(** * minecraft_gen: a shallow embedding of the terrain pipeline

    The definitions below follow [src/minecraft_gen.py] function by
    function.  NumPy arrays are lists (2-D arrays: lists of rows),
    [float64] values are Rocq's primitive binary64 floats, [float32]
    values are binary64 floats rounded to binary32, integer arrays hold
    [Z] or [nat], and a Python exception is [None]. *)

From Stdlib Require Import ZArith Floats Lia.
From stdpp Require Import base option list.

Set Warnings "-inexact-float".

(** ** Arrays *)

(** [a[i, j]] on a 2-D array, [None] for an [IndexError]. *)
Definition get2 {A} (g : list (list A)) (i j : nat) : option A :=
  row ← g !! i; row !! j.

(** [a.shape == (n, m)]. *)
Definition shape {A} (g : list (list A)) (n m : nat) : Prop :=
  length g = n ∧ Forall (λ row, length row = m) g.

(** [a.shape[1]] of a 2-D array with at least one row. *)
Definition ncols {A} (g : list (list A)) : nat :=
  match g with
  | [] => 0
  | row :: _ => length row
  end.

(** A Python slice [l[lo:hi]] with [0 <= lo] and [0 <= hi]: the end is
    cut at [len(l)], and [hi <= lo] gives the empty list. *)
Definition slice {A} (lo hi : Z) (l : list A) : list A :=
  take (Z.to_nat hi - Z.to_nat lo) (drop (Z.to_nat lo) l).

(** A loop with an accumulator whose body may raise. *)
Fixpoint foldM {A B} (f : B → A → option B) (b : B) (l : list A) : option B :=
  match l with
  | [] => Some b
  | x :: l => b' ← f b x; foldM f b' l
  end.

(** [for i in range(n): for j in range(m)], as the list of index pairs
    in the order the loops visit them. *)
Definition range2 (n m : nat) : list (nat * nat) :=
  i ← seq 0 n; j ← seq 0 m; [(i, j)].

(** ** BoundaryDetector: [get_boundary] *)

Module Boundary.

(** [clip = lambda x: max(0, min(size - 1, x))]. *)
Definition clip (size x : Z) : Z := Z.max 0 (Z.min (size - 1) x).

(** [check_for_mult]: [a[0]] raises on an empty array; the loop runs
    over [range(len(a) - 1)] and returns 1 at the first element that
    differs from [a[0]]. *)
Definition check_for_mult (a : list nat) : option bool :=
  match a with
  | [] => None
  | b :: _ => Some (existsb (λ x, negb (x =? b)) (take (length a - 1) a))
  end.

(** [vor_map[r0:r1, c0:c1].flatten()]. *)
Definition window (vor_map : list (list nat)) (r0 r1 c0 c1 : Z) : list nat :=
  concat (slice c0 c1 <$> slice r0 r1 vor_map).

Definition get_boundary (vor_map : list (list nat)) (kernel size : Z)
  : option (list (list bool)) :=
  let n := length vor_map in
  let m := ncols vor_map in
  mapM (λ i : nat,
    mapM (λ j : nat,
      check_for_mult
        (window vor_map
           (clip size (Z.of_nat i - kernel)) (clip size (Z.of_nat i + kernel + 1))
           (clip size (Z.of_nat j - kernel)) (clip size (Z.of_nat j + kernel + 1))))
      (seq 0 m))
    (seq 0 n).

(** What the specification asks for: the [(2·kernel+1)²] neighbourhood
    of pixel [(i, j)], cut at the grid bounds, and whether it holds more
    than one distinct cell id. *)
Definition neighbourhood (vor_map : list (list nat)) (kernel : Z) (i j : nat)
  : list nat :=
  concat (slice (Z.max 0 (Z.of_nat j - kernel)) (Z.of_nat j + kernel + 1)
            <$> slice (Z.max 0 (Z.of_nat i - kernel)) (Z.of_nat i + kernel + 1) vor_map).

Definition several_ids (ids : list nat) : bool :=
  match ids with
  | [] => false
  | b :: rest => existsb (λ x, negb (x =? b)) rest
  end.

Definition boundary_spec (vor_map : list (list nat)) (kernel : Z)
  : list (list bool) :=
  (λ i, (λ j, several_ids (neighbourhood vor_map kernel i j))
          <$> seq 0 (ncols vor_map))
    <$> seq 0 (length vor_map).

(** A 3×3 CellIdGrid whose bottom-right pixel belongs to cell 1. *)
Definition corner_grid : list (list nat) :=
  [[0; 0; 0]; [0; 0; 0]; [0; 0; 1]].

(** A 5×5 CellIdGrid whose pixel (3, 3) alone belongs to cell 1. *)
Definition inner_grid : list (list nat) :=
  [[0; 0; 0; 0; 0]; [0; 0; 0; 0; 0]; [0; 0; 0; 0; 0]; [0; 0; 0; 1; 0];
   [0; 0; 0; 0; 0]].

End Boundary.

(** ** CellAggregator: [average_cells] and [fill_cells] *)

Module Cells.

(** [np.max(vor)]: a [ValueError] on an array without elements. *)
Definition np_max (vor : list (list nat)) : option nat :=
  match concat vor with
  | [] => None
  | x :: rest => Some (foldl Nat.max x rest)
  end.

(** One pass of the loop body of [average_cells] at pixel [(i, j)]:
    [p = vor[i, j]; count[p] += 1; sum_[p] += data[i, j]]. *)
Definition accumulate (vor : list (list nat)) (data : list (list float))
    (acc : list float * list float) (ij : nat * nat)
  : option (list float * list float) :=
  let '(sum_, count) := acc in
  let '(i, j) := ij in
  p ← get2 vor i j;
  c ← count !! p;
  d ← get2 data i j;
  s ← sum_ !! p;
  Some (<[p := (s + d)%float]> sum_, <[p := (c + 1)%float]> count).

(** [np.divide(sum_, count, out=np.zeros_like(count), where=count != 0)]. *)
Definition guarded_divide (sum_ count : list float) : list float :=
  zip_with (λ s c, if (c =? 0)%float then 0%float else (s / c)%float) sum_ count.

(** [average_cells]; [np.max(vor) + 1] is computed in [uint32], the type
    of the grid, and wraps around at [2^32]. *)
Definition average_cells (vor : list (list nat)) (data : list (list float))
  : option (list float) :=
  let size := length vor in
  mx ← np_max vor;
  let count := Z.to_nat ((Z.of_nat mx + 1) mod 2 ^ 32) in
  '(sum_, count) ← foldM (accumulate vor data)
                     (replicate count 0%float, replicate count 0%float)
                     (range2 size size);
  Some (guarded_divide sum_ count).

Definition fill_cells (vor : list (list nat)) (data : list float)
  : option (list (list float)) :=
  let size := length vor in
  mapM (λ i, mapM (λ j, p ← get2 vor i j; data !! p) (seq 0 size)) (seq 0 size).

(** The constant-valued companion grid of a [size × size] CellIdGrid. *)
Definition const_grid (size : nat) (c : float) : list (list float) :=
  replicate size (replicate size c).

(** The mean that [average_cells] computes for a cell of [k] pixels over a
    constant-[c] grid: the running sum [0 + c + ... + c] divided by the
    running count [0 + 1 + ... + 1], both in binary64. *)
Definition const_mean (c : float) (k : nat) : float :=
  let s := Nat.iter k (λ s, (s + c)%float) 0%float in
  let n := Nat.iter k (λ n, (n + 1)%float) 0%float in
  if (n =? 0)%float then 0%float else (s / n)%float.

(** How many of the index pairs in [pixels] lie in cell [p]. *)
Definition hits (vor : list (list nat)) (p : nat) (pixels : list (nat * nat)) : nat :=
  length (filter (λ ij, get2 vor ij.1 ij.2 = Some p) pixels).

(** The number of pixels of cell [p] that the loops of [average_cells] visit. *)
Definition cell_size (vor : list (list nat)) (p : nat) : nat :=
  hits vor p (range2 (length vor) (length vor)).

(** A 2×2 CellIdGrid with three pixels in cell 0 and one in cell 1. *)
Definition three_one : list (list nat) := [[0; 0]; [0; 1]].

(** Every id of the grid is below [2^32 - 1], the largest [uint32]
    value. *)
Definition below_uint32_max (vor : list (list nat)) : Prop :=
  Forall (Forall (λ p : nat, (Z.of_nat p < 2 ^ 32 - 1)%Z)) vor.

(** The 1×1 CellIdGrid whose pixel holds the id [2^32 - 1]. *)
Definition top_id : list (list nat) := [[Z.to_nat 4294967295]].

(** The values of [data] at the pixels of cell [p] among [pixels], in
    the order of [pixels]. *)
Definition cell_data (vor : list (list nat)) (data : list (list float)) (p : nat)
    (pixels : list (nat * nat)) : list float :=
  omap (λ ij, get2 data ij.1 ij.2)
       (filter (λ ij, get2 vor ij.1 ij.2 = Some p) pixels).

(** The mean of a list of values as [average_cells] computes it: the
    values added to [0.0] from the first one on, over a count that grows
    by [1.0] per value; [0.0] for no value. *)
Definition running_mean (values : list float) : float :=
  let s := foldl (λ s d, (s + d)%float) 0%float values in
  let n := foldl (λ n _, (n + 1)%float) 0%float values in
  if (n =? 0)%float then 0%float else (s / n)%float.

End Cells.

(** ** Numbers *)

Module Num.

(** An integer as a [float64], rounded to nearest even as the conversion
    of NumPy and C does. *)
Definition of_Z (z : Z) : float :=
  SF2Prim (binary_normalize prec emax z 0 false).

Definition of_nat (n : nat) : float := of_Z (Z.of_nat n).

(** The integer part of a finite float (rounding toward zero); [None] for
    NaN and the infinities. *)
Definition trunc (x : float) : option Z :=
  match Prim2SF x with
  | S754_zero _ => Some 0%Z
  | S754_finite s m e => Some (cond_Zopp s (Z.shiftl (Z.pos m) e))
  | S754_infinity _ | S754_nan => None
  end.

(** [x.astype(int)]: the C conversion of a double to [int64].  It
    truncates toward zero; for NaN, the infinities and values outside the
    [int64] range C leaves the result open, and x86-64 yields
    [-2^63]. *)
Definition astype_int (x : float) : Z :=
  match trunc x with
  | Some z => if ((- 2 ^ 63 <=? z) && (z <? 2 ^ 63))%Z then z else (- 2 ^ 63)%Z
  | None => (- 2 ^ 63)%Z
  end.

(** [x.astype(np.uint32)]: the low 32 bits of the [int64] conversion. *)
Definition astype_uint32 (x : float) : Z := (astype_int x mod 2 ^ 32)%Z.

(** A [float64] stored into a [float32] array: rounding to binary32
    (24 bits of precision, exponents up to 128), the result held as the
    binary64 float of the same value. *)
Definition to_f32 (x : float) : float :=
  match Prim2SF x with
  | S754_finite s m e =>
      SF2Prim (binary_normalize 24 128 (cond_Zopp s (Z.pos m)) e s)
  | _ => x
  end.

(** [float32] arithmetic: each operation is rounded once to binary32;
    rounding the binary64 result again to binary32 gives the same value
    for [+], [*], [/] and [sqrt] (53 ≥ 2·24 + 2). *)
Definition add32 (x y : float) : float := to_f32 (x + y).
Definition mul32 (x y : float) : float := to_f32 (x * y).
Definition div32 (x y : float) : float := to_f32 (x / y).
Definition sqrt32 (x : float) : float := to_f32 (sqrt x).

(** [np.maximum] and [np.minimum]: a NaN operand is returned. *)
Definition maximum (a b : float) : float :=
  if is_nan a then a else if is_nan b then b else if (a <? b)%float then b else a.

Definition minimum (a b : float) : float :=
  if is_nan a then a else if is_nan b then b else if (b <? a)%float then b else a.

(** [x.clip(lo, hi)] on floats: [minimum(maximum(x, lo), hi)]. *)
Definition clip (x lo hi : float) : float := minimum (maximum x lo) hi.

(** [np.interp(x, (x0, x1), (f0, f1))] with a table of two points: NaN
    is returned as it is, values left of [x0] give [f0], values at or
    right of [x1] give [f1], [x0] itself gives [f0], and the points in
    between lie on the line through the two table points. *)
Definition interp (x x0 x1 f0 f1 : float) : float :=
  if is_nan x then x
  else if (x1 <? x)%float then f1
  else if (x <? x0)%float then f0
  else if (x1 <=? x)%float then f1
  else if (x0 =? x)%float then f0
  else
    let slope := ((f1 - f0) / (x1 - x0))%float in
    let r := (slope * (x - x0) + f0)%float in
    if is_nan r then
      let r' := (slope * (x - x1) + f1)%float in
      if is_nan r' && (f0 =? f1)%float then f0 else r'
    else r.

End Num.

(** ** CellPainter: [color_cells] *)

Module Painter.

(** [color_cells] with the default [dtype=int]: [data] holds one colour
    of three [float64] channels per cell id; [image] is a [float64]
    array, converted at the end. *)
Definition color_cells (vor : list (list nat)) (data : list (float * float * float))
  : option (list (list (Z * Z * Z))) :=
  let size := length vor in
  image ← mapM (λ i, mapM (λ j, p ← get2 vor i j; data !! p) (seq 0 size))
               (seq 0 size);
  Some ((λ row : list (float * float * float),
           (λ c : float * float * float,
              (Num.astype_int c.1.1, Num.astype_int c.1.2, Num.astype_int c.2))
             <$> row) <$> image).

End Painter.

(** ** HeightShaper: [quantize] *)

Module Shaper.

(** [np.linspace(start, stop, num)] (with the end point). *)
Definition linspace (start stop : float) (num : nat) : list float :=
  let div := num - 1 in
  let delta := (stop - start)%float in
  let y := Num.of_nat <$> seq 0 num in
  let y :=
    if 0 <? div then
      let step := (delta / Num.of_nat div)%float in
      if (step =? 0)%float
      then (λ v, v / Num.of_nat div * delta)%float <$> y
      else (λ v, v * step)%float <$> y
    else (λ v, v * delta)%float <$> y in
  let y := (λ v, v + start)%float <$> y in
  if 1 <? num then <[num - 1 := stop]> y else y.

(** [np.digitize(x, bins)] for increasing [bins]: the index [i] with
    [bins[i-1] <= x < bins[i]], that is the position of the first bin
    edge above [x]; [len(bins)] when there is none (also for NaN). *)
Fixpoint digitize (x : float) (bins : list float) : nat :=
  match bins with
  | [] => 0
  | b :: bins => if (x <? b)%float then 0 else S (digitize x bins)
  end.

(** [v.clip(lo, hi)] on integers: [minimum(maximum(v, lo), hi)]. *)
Definition clipZ (v lo hi : Z) : Z := Z.min (Z.max v lo) hi.

(** [(np.digitize(x, bins) - 1).clip(0, n - 1)] at one element. *)
Definition band (bins : list float) (n : nat) (x : float) : Z :=
  clipZ (Z.of_nat (digitize x bins) - 1) 0 (Z.of_nat n - 1).

Definition quantize (data : list (list float)) (n : nat) : list (list Z) :=
  let bins := linspace (-1) 1 (n + 1) in
  (λ row : list float, band bins n <$> row) <$> data.

(** Every value of the grid lies in [[-1, 1]]. *)
Definition in_unit_range (data : list (list float)) : bool :=
  forallb (forallb (λ x, (-1 <=? x)%float && (x <=? 1)%float)) data.

End Shaper.

(** ** PointRelaxer and Scatterer *)

Module Scatter.

Definition point : Type := float * float.

(** What [scipy.spatial.Voronoi] returns, as far as the code reads it:
    the vertex coordinates and, for each region, the indices of its
    vertices ([-1] marks a vertex at infinity). *)
Record diagram := Diagram {
  vertices : list point;
  regions : list (list Z)
}.

(** An array of points: [np.array([])], of shape [(0,)], or an array of
    shape [(len, 2)]. *)
Inductive ndpoints :=
  | Flat0
  | Pts (rows : list point).

(** A Python index into a sequence of [len] elements: a negative index
    counts from the end, and an index out of range raises. *)
Definition py_index (len : nat) (i : Z) : option nat :=
  if (0 <=? i)%Z then
    if (i <? Z.of_nat len)%Z then Some (Z.to_nat i) else None
  else
    if (- Z.of_nat len <=? i)%Z then Some (Z.to_nat (Z.of_nat len + i)) else None.

(** [poly.mean(axis=0)] over the rows of a non-empty array: the rows are
    added up from the first one on and the sum is divided by their
    number. *)
Definition mean_rows (poly : list point) : point :=
  match poly with
  | [] => (nan, nan)
  | p :: rest =>
      let s := foldl (λ acc q : point, (acc.1 + q.1, acc.2 + q.2)%float) p rest in
      (s.1 / Num.of_nat (length poly), s.2 / Num.of_nat (length poly))%float
  end.

(** [np.array(new_points)] of a list of 2-vectors. *)
Definition as_array (new_points : list point) : ndpoints :=
  match new_points with
  | [] => Flat0
  | _ => Pts new_points
  end.

(** [a.clip(0, size)], element by element. *)
Definition clip_points (size : Z) (a : ndpoints) : ndpoints :=
  match a with
  | Flat0 => Flat0
  | Pts rows =>
      Pts ((λ p : point, (Num.clip p.1 (Num.of_Z 0) (Num.of_Z size),
                          Num.clip p.2 (Num.of_Z 0) (Num.of_Z size))) <$> rows)
  end.

(** A coordinate as [clip(0, size)] leaves it: NaN, or between [0] and
    [size]. *)
Definition in_clip_range (size : Z) (c : float) : Prop :=
  is_nan c = true
  ∨ ((Num.of_Z 0 <=? c)%float = true ∧ (c <=? Num.of_Z size)%float = true).

(** [pts.astype(np.uint32)]. *)
Definition astype_points (a : ndpoints) : option (list (Z * Z)) :=
  match a with
  | Flat0 => None
  | Pts rows => Some ((λ p : point, (Num.astype_uint32 p.1, Num.astype_uint32 p.2)) <$> rows)
  end.

(** [filter_inbox]: [np.all(pts < size, axis=1)] raises on the array of
    shape [(0,)], which has no axis 1 ([None] stands for that array
    here); otherwise the rows with both coordinates below [size] are
    kept. *)
Definition filter_inbox (pts : option (list (Z * Z))) (size : Z)
  : option (list (Z * Z)) :=
  rows ← pts;
  Some (filter (λ p : Z * Z, (p.1 < size)%Z ∧ (p.2 < size)%Z) rows).

(** [output_trees[rr, cc] = True]. *)
Definition set_true (g : list (list bool)) (rc : Z * Z) : option (list (list bool)) :=
  r ← py_index (length g) rc.1;
  row ← g !! r;
  c ← py_index (length row) rc.2;
  Some (<[r := <[c := true]> row]> g).

(** An element-wise operation on two arrays of one shape; arrays of
    different shapes are taken to raise (every grid of the pipeline is
    [size × size]; broadcasting of other shapes is left out). *)
Definition zip_grid {A B C} (f : A → B → C) (a : list (list A)) (b : list (list B))
  : option (list (list C)) :=
  if decide (length a = length b) then
    mapM (λ rows : list A * list B,
            if decide (length rows.1 = length rows.2)
            then Some (zip_with f rows.1 rows.2) else None)
         (zip a b)
  else None.

(** [np.where(g == 1)] on a boolean array: the row and the column of
    every true element, in row-major order, here already paired. *)
Definition where_true (g : list (list bool)) : list (nat * nat) :=
  '(i, row) ← imap pair g;
  '(j, b) ← imap pair row;
  if b : bool then [(i, j)] else [].

Section WithVoronoi.

(** [scipy.spatial.Voronoi] (Qhull) on a list of points; [None] when it
    raises. *)
Variable Voronoi : list point → option diagram.

Definition edge_points (size : Z) : list point :=
  (λ p : Z * Z, (Num.of_Z (size * p.1), Num.of_Z (size * p.2)))
    <$> [(-1, -1); (-1, 2); (2, -1); (2, 2)]%Z.

(** [voronoi]: [np.vstack] raises when [points] has the shape [(0,)]. *)
Definition voronoi (points : ndpoints) (size : Z) : option diagram :=
  match points with
  | Flat0 => None
  | Pts rows => Voronoi (rows ++ edge_points size)
  end.

(** The inner loop of [relax]: the centre of every region that is
    neither empty nor unbounded, in the order of the regions. *)
Definition centers (vor : diagram) : option (list point) :=
  foldM (λ (new_points : list point) (region : list Z),
           if bool_decide (region = []) || bool_decide ((-1)%Z ∈ region)
           then Some new_points
           else
             poly ← mapM (λ i, idx ← py_index (length (vertices vor)) i;
                               vertices vor !! idx) region;
             Some (new_points ++ [mean_rows poly]))
        [] (regions vor).

Fixpoint relax_loop (size : Z) (k : nat) (new_points : ndpoints) : option ndpoints :=
  match k with
  | 0 => Some new_points
  | S k =>
      vor ← voronoi new_points size;
      new_points ← centers vor;
      relax_loop size k (clip_points size (as_array new_points))
  end.

(** [relax(points, size, k)], starting from [points.copy()]. *)
Definition relax (points : ndpoints) (size : Z) (k : nat) : option ndpoints :=
  relax_loop size k points.

(** [generate_trees], given the array [draw] that
    [np.random.randint(0, size - 1, (n, 2))] returns. *)
Definition generate_trees (draw : list (Z * Z)) (size : Z) : option (list (Z * Z)) :=
  let trees := Pts ((λ p : Z * Z, (Num.of_Z p.1, Num.of_Z p.2)) <$> draw) in
  trees ← relax trees size 10;
  filter_inbox (astype_points trees) size.

(** [place_trees]; the result lists [(x, y)], column first. *)
Definition place_trees (draw : list (Z * Z)) (mask : list (list float)) (a : float)
    (river_land_mask : list (list bool))
    (adjusted_height_river_map : list (list float)) (size : Z)
  : option (list (nat * nat)) :=
  trees ← generate_trees draw size;
  zeros ← (if (0 <=? size)%Z
           then Some (replicate (Z.to_nat size) (replicate (Z.to_nat size) false))
           else None);
  output_trees ← foldM set_true zeros trees;
  t1 ← zip_grid andb output_trees ((λ row : list float, (λ m, a <? m)%float <$> row) <$> mask);
  t2 ← zip_grid andb t1 river_land_mask;
  t3 ← zip_grid andb t2 ((λ row : list float, (λ h, h <? 0.5)%float <$> row)
                           <$> adjusted_height_river_map);
  Some ((λ rc : nat * nat, (rc.2, rc.1)) <$> where_true t3).

End WithVoronoi.

(** A stand-in for Qhull on one input: a diagram with a single bounded
    region, the square with corners (1,1) and (3,3). *)
Definition square_diagram (_ : list point) : option diagram :=
  Some (Diagram [(1, 1); (3, 1); (3, 3); (1, 3)]%float [[]; [0; 1; 2; 3]; [-1; 0; 1]]%Z).

(** A stand-in for Qhull with two bounded regions, the square with
    corners (1,1) and (3,3) and the square with corners (2,2) and (3,3);
    their centres (2, 2) and (2.5, 2.5) lie on one pixel. *)
Definition twin_diagram (_ : list point) : option diagram :=
  Some (Diagram [(1, 1); (3, 1); (3, 3); (1, 3); (2, 2); (3, 2); (3, 3); (2, 3)]%float
          [[]; [0; 1; 2; 3]; [4; 5; 6; 7]; [-1; 0; 1]]%Z).

End Scatter.

(** ** CellMapper: [voronoi_map] *)

Module CellMap.

(** [vor_map[r, c] = i] at one position of the index arrays. *)
Definition paint (i : nat) (vor_map : list (list nat)) (rc : Z * Z)
  : option (list (list nat)) :=
  r ← Scatter.py_index (length vor_map) rc.1;
  row ← vor_map !! r;
  c ← Scatter.py_index (length row) rc.2;
  Some (<[r := <[c := i]> row]> vor_map).

Section WithPolygon.

(** [skimage.draw.polygon] on the row and the column coordinates of the
    polygon vertices: the pixels inside, as pairs [(rr[t], cc[t])];
    [None] when it raises. *)
Variable polygon : list float → list float → option (list (Z * Z)).

(** The vertices of a region, [[vor.vertices[i] for i in region]]. *)
Definition region_vertices (vor : Scatter.diagram) (region : list Z)
  : option (list Scatter.point) :=
  mapM (λ i, idx ← Scatter.py_index (length (Scatter.vertices vor)) i;
             Scatter.vertices vor !! idx) region.

(** The pixels of a region: the vertices are reversed to (row, column)
    before they go to [polygon]. *)
Definition region_pixels (vor : Scatter.diagram) (region : list Z)
  : option (list (Z * Z)) :=
  verts ← region_vertices vor region;
  polygon (snd <$> verts) (fst <$> verts).

(** The body of the loop of [voronoi_map] for region [i]: regions that
    are empty or reach infinity are skipped; the pixels outside of the
    image are dropped before the assignment.  The index [i] is stored
    into a [uint32] array, which is taken to raise from [2^32] on. *)
Definition region_step (vor : Scatter.diagram) (size : Z)
    (vor_map : list (list nat)) (ir : nat * list Z) : option (list (list nat)) :=
  let '(i, region) := ir in
  if bool_decide (region = []) || bool_decide ((-1)%Z ∈ region)
  then Some vor_map
  else
    pixels ← region_pixels vor region;
    let in_box :=
      filter (λ rc : Z * Z,
                (0 ≤ rc.1)%Z ∧ (rc.1 < size)%Z
                ∧ (0 ≤ rc.2)%Z ∧ (rc.2 < size)%Z) pixels in
    if (Z.of_nat i <? 2 ^ 32)%Z then foldM (paint i) vor_map in_box
    else None.

(** [voronoi_map]: [np.zeros] raises on a negative [size]. *)
Definition voronoi_map (vor : Scatter.diagram) (size : Z)
  : option (list (list nat)) :=
  vor_map ← (if (0 <=? size)%Z
             then Some (replicate (Z.to_nat size) (replicate (Z.to_nat size) 0))
             else None);
  foldM (region_step vor size) vor_map (imap pair (Scatter.regions vor)).

(** Region [i] is painted, and its polygon holds the pixel [(r, c)]. *)
Definition covers (vor : Scatter.diagram) (i r c : nat) : Prop :=
  ∃ region pixels,
    Scatter.regions vor !! i = Some region
    ∧ region ≠ [] ∧ ((-1)%Z ∉ region)
    ∧ region_pixels vor region = Some pixels
    ∧ (Z.of_nat r, Z.of_nat c) ∈ pixels.

(** The state of the map after the first [k] regions: a pixel holds
    [0] or a region among them that covers it, and no later one of them
    covers it. *)
Definition painted (vor : Scatter.diagram) (size : Z) (k : nat)
    (g : list (list nat)) : Prop :=
  shape g (Z.to_nat size) (Z.to_nat size)
  ∧ ∀ r c v, get2 g r c = Some v →
      (v = 0 ∨ (v < k ∧ covers vor v r c))
      ∧ ∀ i, i < k → covers vor i r c → i ≤ v.

End WithPolygon.

(** A stand-in for [polygon] on one input: the four pixels of the
    square with corners (1,1) and (2,2), and one pixel off the image. *)
Definition square_pixels (_ _ : list float) : option (list (Z * Z)) :=
  Some [(1, 1); (1, 2); (2, 1); (2, 2); (-1, 7)]%Z.

End CellMap.

(** ** ShadingEngine *)

Module Shading.

(** The boundary mode [reflect] of [scipy.ndimage]
    ([d c b a | a b c d | d c b a]): the index into an axis of [len]
    elements that stands for the position [i] outside of it. *)
Definition reflect (len : nat) (i : Z) : nat :=
  let period := (2 * Z.of_nat len)%Z in
  let r := (i mod period)%Z in
  if (r <? Z.of_nat len)%Z then Z.to_nat r else Z.to_nat (period - 1 - r).

Definition DBL_EPSILON : float := 0x1p-52.

(** The footprint of a weights array: its entries of magnitude above
    [DBL_EPSILON] with their positions, in row-major order. *)
Definition footprint (weights : list (list float)) : list (nat * nat * float) :=
  '(a, row) ← imap pair weights;
  '(b, w) ← imap pair row;
  if (DBL_EPSILON <? abs w)%float then [(a, b, w)] else [].

(** [scipy.ndimage.correlate] on a 2-D array, mode [reflect]: at each
    position the products of the footprint weights with the input
    elements under them are added to [0.0], in footprint order.  The
    weights array is centred at [shape // 2 + origin] along each axis. *)
Definition correlate (input weights : list (list float)) (origin : Z * Z)
  : option (list (list float)) :=
  let n := length input in
  let m := ncols input in
  let ca := (Z.of_nat (length weights / 2) + origin.1)%Z in
  let cb := (Z.of_nat (ncols weights / 2) + origin.2)%Z in
  mapM (λ i : nat,
    mapM (λ j : nat,
      foldM (λ (tmp : float) (abw : nat * nat * float),
               let '(a, b, w) := abw in
               v ← get2 input (reflect n (Z.of_nat i + Z.of_nat a - ca))
                              (reflect m (Z.of_nat j + Z.of_nat b - cb));
               Some (tmp + w * v)%float)
            0%float (footprint weights))
      (seq 0 m))
    (seq 0 n).

(** [scipy.ndimage.convolve]: the correlation with the weights reversed
    along both axes; an axis of even length moves its origin by [-1]. *)
Definition convolve (input weights : list (list float)) : option (list (list float)) :=
  let flipped := reverse (reverse <$> weights) in
  let shift (len : nat) : Z := if Nat.even len then (-1)%Z else 0%Z in
  correlate input flipped (shift (length weights), shift (ncols weights)).

(** [a.T] of a 2-D array given by its rows. *)
Definition transpose {A} (a : list (list A)) : list (list A) :=
  (λ j, omap (λ row : list A, row !! j) a) <$> seq 0 (ncols a).

(** [np.arange(lo, hi).astype(float)]. *)
Definition arange (lo hi : Z) : list float :=
  (λ k : nat, Num.of_Z (lo + Z.of_nat k)) <$> seq 0 (Z.to_nat (hi - lo)).

Definition gradient (im_smooth : list (list float))
  : option (list (list float) * list (list float)) :=
  let kernel := arange (-1) 2 in
  let kernel := (λ k, - k / 2)%float <$> kernel in
  gradient_x ← convolve im_smooth [kernel];
  gradient_y ← convolve im_smooth (transpose [kernel]);
  Some (gradient_x, gradient_y).

(** The gradient as the specification words it: the convolution with
    the kernel [[-0.5, 0, 0.5]] along each axis. *)
Definition gradient_spec (im_smooth : list (list float))
  : option (list (list float) * list (list float)) :=
  let kernel := [-0.5; 0; 0.5]%float in
  gradient_x ← convolve im_smooth [kernel];
  gradient_y ← convolve im_smooth (transpose [kernel]);
  Some (gradient_x, gradient_y).

Definition sobel (im_smooth : list (list float))
  : option (list (list float) * list (list float)) :=
  let kernel := [[-1; 0; 1]; [-2; 0; 2]; [-1; 0; 1]]%float in
  gradient_x ← convolve im_smooth kernel;
  gradient_y ← convolve im_smooth (transpose kernel);
  Some (gradient_x, gradient_y).

(** [np.max] of a float array: NaN if there is one; a [ValueError] on an
    array without elements. *)
Definition np_max (a : list (list float)) : option float :=
  match concat a with
  | [] => None
  | x :: rest => Some (foldl Num.maximum x rest)
  end.

(** One pixel of the normal map: the three [float32] channels. *)
Definition normal (max_value strength gx gy : float) : float * float * float :=
  let nx := Num.to_f32 (gx / max_value) in
  let ny := Num.to_f32 (gy / max_value) in
  let nz := Num.to_f32 (1 / strength) in
  let norm :=
    Num.sqrt32 (Num.add32 (Num.add32 (Num.mul32 nx nx) (Num.mul32 ny ny))
                          (Num.mul32 nz nz)) in
  let finish (v : float) := Num.add32 (Num.mul32 (Num.div32 v norm) 0.5) 0.5 in
  (finish nx, finish ny, finish nz).

(** [compute_normal_map]; [1 / intensity] is a Python division, which
    raises on zero. *)
Definition compute_normal_map (gradient_x gradient_y : list (list float))
    (intensity : float) : option (list (list (float * float * float))) :=
  max_x ← np_max gradient_x;
  max_y ← np_max gradient_y;
  let max_value := if (max_x <? max_y)%float then max_y else max_x in
  intensity ← (if (intensity =? 0)%float then None else Some (1 / intensity)%float);
  let strength := (max_value / (max_value * intensity))%float in
  Scatter.zip_grid (normal max_value strength) gradient_x gradient_y.

Definition get_normal_map (im : list (list float)) (intensity : float)
  : option (list (list (float * float * float))) :=
  '(sobel_x, sobel_y) ← sobel im;
  compute_normal_map sobel_x sobel_y intensity.

(** [get_normal_light]: the [float32] mean of the first two channels,
    mapped from [(0, 1)] to [(-1, 1)]. *)
Definition get_normal_light (height_map_ : list (list float))
  : option (list (list float)) :=
  normal_map_ ← get_normal_map height_map_ 1;
  Some ((λ row : list (float * float * float),
           (λ px : float * float * float,
              Num.interp (Num.div32 (Num.add32 px.1.1 px.1.2) 2) 0 1 (-1) 1) <$> row)
          <$> (normal_map_ : list (list (float * float * float)))).

(** [True] and [False] as factors of a float. *)
Definition of_bool (b : bool) : float := if b then 1%float else 0%float.

(** Addition of [int64] values. *)
Definition add64 (x y : Z) : Z := ((x + y + 2 ^ 63) mod 2 ^ 64 - 2 ^ 63)%Z.

Definition color : Type := Z * Z * Z.

(** [apply_height_map]: the pair of the shaded colour grid and the
    remapped shading signal. *)
Definition apply_height_map (im_map : list (list color))
    (smooth_map height_map : list (list float)) (land_mask : list (list bool))
  : option (list (list color) * list (list float)) :=
  normal_map ← get_normal_light height_map;
  lit ← Scatter.zip_grid (λ v (l : bool), v * of_bool l)%float normal_map land_mask;
  flat ← Scatter.zip_grid (λ s (l : bool), s / 2 * of_bool (negb l))%float
           smooth_map land_mask;
  normal_map ← Scatter.zip_grid (λ x y, x + y)%float lit flat;
  let normal_map :=
    (λ row : list float, (λ v, Num.interp v (-1) 1 (-192) 192) <$> row)
      <$> normal_map in
  out_map ← Scatter.zip_grid
              (λ (px : color) (v : float),
                 let offset := Num.astype_int v in
                 (add64 px.1.1 offset, add64 px.1.2 offset, add64 px.2 offset))
              im_map normal_map;
  Some (out_map, normal_map).

(** A 3×3 height map that rises along both axes. *)
Definition ramp : list (list float) :=
  [[0; 1; 2]; [1; 2; 3]; [2; 3; 4]]%float.

End Shading.

(** ** Reading the results of the shading stage *)

Module ShadingSpec.

(** The value that [gradient] stores at a pixel, from the elements before
    and after it along the axis: the accumulator [0.0] plus [-0.5] times
    the element before plus [0.5] times the element after. *)
Definition central_difference (before after : float) : float :=
  (0 + -0.5 * before + 0.5 * after)%float.

(** The combined shading signal of [apply_height_map] at one pixel. *)
Definition signal (light smooth : float) (land : bool) : float :=
  (light * Shading.of_bool land + smooth / 2 * Shading.of_bool (negb land))%float.

(** The remapping of the signal to the offset range. *)
Definition remap (v : float) : float := Num.interp v (-1) 1 (-192) 192.

Definition in_channel_range (px : Shading.color) : Prop :=
  (0 ≤ px.1.1 ≤ 255 ∧ 0 ≤ px.1.2 ≤ 255 ∧ 0 ≤ px.2 ≤ 255)%Z.

End ShadingSpec.

(** ** Values of binary64 floats *)

Module Rounding.

(** The value [m·2^e] of a mantissa and an exponent, scaled by [2^2200]
    to an integer (the exponents met are above [-2200]). *)
Definition V (m e : Z) : Z := (m * 2 ^ (e + 2200))%Z.

(** A float is zero or finite, with a magnitude of at most [b·2^q]. *)
Definition mag_le (x : spec_float) (b q : Z) : Prop :=
  match x with
  | S754_zero _ => True
  | S754_finite _ m e => (-1074 ≤ e ≤ 971 ∧ V (Z.pos m) e ≤ V b q)%Z
  | _ => False
  end.

(** A float is zero or finite, and not negative. *)
Definition nonneg (x : spec_float) : Prop :=
  match x with
  | S754_zero _ => True
  | S754_finite s _ _ => s = false
  | _ => False
  end.

(** The floats 1, -1, 192 and -192. *)
Definition SF_one : spec_float := S754_finite false 4503599627370496 (-52).
Definition SF_mone : spec_float := S754_finite true 4503599627370496 (-52).
Definition SF_192 : spec_float := S754_finite false 6755399441055744 (-45).
Definition SF_m192 : spec_float := S754_finite true 6755399441055744 (-45).

End Rounding.

(** * Properties *)

(** ** Facts about arrays and loops *)

Section ArrayFacts.
Context {A : Type}.
Implicit Types g : list (list A).

Lemma get2_shape g n m i j :
  shape g n m → i < n → j < m → is_Some (get2 g i j).
Proof.
  intros [Hn Hm] Hi Hj. unfold get2.
  destruct (lookup_lt_is_Some_2 g i) as [row Hrow]; [lia|].
  rewrite Hrow. simpl. apply lookup_lt_is_Some_2.
  rewrite Forall_forall in Hm.
  rewrite (Hm row); [done|]. by eapply list_elem_of_lookup_2.
Qed.

Lemma get2_elem_of g i j x : get2 g i j = Some x → x ∈ concat g.
Proof.
  unfold get2. intros H.
  destruct (g !! i) as [row|] eqn:Hrow; simplify_eq/=.
  apply list_elem_of_In, in_concat. exists row.
  split; apply list_elem_of_In; by eapply list_elem_of_lookup_2.
Qed.

Lemma get2_replicate n m (x : A) i j :
  i < n → j < m → get2 (replicate n (replicate m x)) i j = Some x.
Proof.
  intros Hi Hj. unfold get2.
  rewrite lookup_replicate_2 by done. simpl. by apply lookup_replicate_2.
Qed.

Lemma get2_replicate_inv n m (x y : A) i j :
  get2 (replicate n (replicate m x)) i j = Some y → y = x.
Proof.
  unfold get2. intros H.
  destruct (replicate n (replicate m x) !! i) as [row|] eqn:Hrow; [|done].
  apply lookup_replicate in Hrow as [-> _]. simpl in H.
  by apply lookup_replicate in H as [? _].
Qed.

Lemma shape_replicate n m (x : A) : shape (replicate n (replicate m x)) n m.
Proof.
  split; [apply length_replicate|].
  apply Forall_forall. intros row Hrow.
  apply elem_of_replicate in Hrow as [-> _]. apply length_replicate.
Qed.

Lemma mapM_seq_lookup (f : nat → option A) n l i :
  mapM f (seq 0 n) = Some l → i < n → l !! i = f i ∧ is_Some (f i).
Proof.
  intros H Hi. apply mapM_Some_1 in H.
  destruct (Forall2_lookup_l _ _ _ i i H) as (y & Hy & Hf).
  { by apply lookup_seq_lt. }
  rewrite Hy, Hf. eauto.
Qed.

Lemma mapM_seq_total (f : nat → option A) n :
  (∀ i, i < n → is_Some (f i)) → is_Some (mapM f (seq 0 n)).
Proof.
  intros H. apply mapM_is_Some, Forall_forall.
  intros i Hi. apply elem_of_seq in Hi. apply H. lia.
Qed.

End ArrayFacts.

(** Two nested loops that fill an array and never raise. *)
Lemma mapM2_seq {A} (f : nat → nat → option A) n m :
  (∀ i j, i < n → j < m → is_Some (f i j)) →
  ∃ g, mapM (λ i, mapM (f i) (seq 0 m)) (seq 0 n) = Some g
       ∧ shape g n m
       ∧ ∀ i j, i < n → j < m → get2 g i j = f i j.
Proof.
  intros Hf.
  destruct (mapM_seq_total (λ i, mapM (f i) (seq 0 m)) n) as [g Hg].
  { intros i Hi. apply mapM_seq_total. intros j Hj. by apply Hf. }
  exists g. split; [done|]. split.
  - split.
    + apply length_mapM in Hg. by rewrite length_seq in Hg.
    + apply Forall_forall. intros row Hrow.
      apply list_elem_of_lookup_1 in Hrow as [i Hrow].
      apply mapM_Some_1 in Hg.
      destruct (Forall2_lookup_r _ _ _ _ _ Hg Hrow) as (i' & _ & Hi').
      apply length_mapM in Hi'. by rewrite length_seq in Hi'.
  - intros i j Hi Hj.
    destruct (mapM_seq_lookup _ _ _ i Hg Hi) as [Hrow [row Hrow']].
    rewrite Hrow' in Hrow.
    destruct (mapM_seq_lookup _ _ _ j Hrow' Hj) as [Hpx _].
    unfold get2. rewrite Hrow. simpl. done.
Qed.

Lemma elem_of_range2 n m i j : (i, j) ∈ range2 n m ↔ i < n ∧ j < m.
Proof.
  unfold range2. rewrite list_elem_of_bind. split.
  - intros (i' & Hj & Hi). apply list_elem_of_bind in Hj as (j' & Hij & Hj).
    apply list_elem_of_singleton in Hij. simplify_eq.
    apply elem_of_seq in Hi, Hj. lia.
  - intros [Hi Hj]. exists i. split; [|apply elem_of_seq; lia].
    apply list_elem_of_bind. exists j. split; [by apply list_elem_of_singleton|].
    apply elem_of_seq; lia.
Qed.

(** ** BoundaryDetector *)

(** C1, at the failing input: on the 3×3 grid whose bottom-right pixel
    alone belongs to cell 1, with kernel radius 1, [get_boundary] flags no
    pixel at all, while the clipped 3×3 neighbourhoods of the four pixels
    (1,1), (1,2), (2,1) and (2,2) each contain the two ids 0 and 1.  Away
    from the edge the same happens: on the 5×5 grid with cell 1 at (3,3)
    the window of pixel (2,2) is the full 3×3 neighbourhood, its last
    element is the one of cell 1, and the pixel is not flagged. *)
Theorem get_boundary_misses_corner :
  Boundary.get_boundary Boundary.corner_grid 1 3
    = Some [[false; false; false]; [false; false; false]; [false; false; false]]
  ∧ Boundary.boundary_spec Boundary.corner_grid 1
    = [[false; false; false]; [false; true; true]; [false; true; true]]
  ∧ Boundary.window Boundary.inner_grid 1 4 1 4 = [0; 0; 0; 0; 0; 0; 0; 0; 1]
  ∧ Boundary.neighbourhood Boundary.inner_grid 1 2 2 = [0; 0; 0; 0; 0; 0; 0; 0; 1]
  ∧ (rows ← Boundary.get_boundary Boundary.inner_grid 1 5; get2 rows 2 2)
    = Some false
  ∧ get2 (Boundary.boundary_spec Boundary.inner_grid 1) 2 2 = Some true.
Proof. repeat split; vm_compute; reflexivity. Qed.

(** ** CellAggregator *)

Section CellFacts.
Import Cells.
Implicit Types vor : list (list nat).

Lemma foldl_max_ge (x : nat) (l : list nat) :
  x ≤ foldl Nat.max x l ∧ ∀ y, y ∈ l → y ≤ foldl Nat.max x l.
Proof.
  revert x. induction l as [|z l IH]; intros x; simpl.
  - split; [lia|]. intros y Hy. by apply elem_of_nil in Hy.
  - destruct (IH (x `max` z)) as [H1 H2]. split; [lia|].
    intros y Hy. apply elem_of_cons in Hy as [->|Hy]; [lia|auto].
Qed.

Lemma np_max_bound vor mx p : np_max vor = Some mx → p ∈ concat vor → p ≤ mx.
Proof.
  unfold np_max. destruct (concat vor) as [|x rest]; [done|].
  intros [= <-] Hp. destruct (foldl_max_ge x rest) as [H1 H2].
  apply elem_of_cons in Hp as [->|Hp]; auto.
Qed.

Lemma foldl_max_elem (x : nat) (l : list nat) : foldl Nat.max x l ∈ x :: l.
Proof.
  revert x. induction l as [|z l IH]; intros x; simpl.
  - apply elem_of_cons. auto.
  - specialize (IH (x `max` z)). apply elem_of_cons in IH as [IH|IH].
    + rewrite IH. destruct (Nat.max_spec x z) as [[_ ->]|[_ ->]].
      * apply elem_of_cons. right. apply elem_of_cons. auto.
      * apply elem_of_cons. auto.
    + apply elem_of_cons. right. apply elem_of_cons. auto.
Qed.

Lemma np_max_elem vor mx : np_max vor = Some mx → mx ∈ concat vor.
Proof.
  unfold np_max. destruct (concat vor) as [|x rest]; [done|].
  intros [= <-]. apply foldl_max_elem.
Qed.

(** Below the largest [uint32] value the table length [np.max(vor) + 1]
    does not wrap. *)
Lemma table_length_no_wrap vor mx :
  below_uint32_max vor → np_max vor = Some mx →
  Z.to_nat ((Z.of_nat mx + 1) mod 2 ^ 32) = S mx.
Proof.
  intros Hids Hmx. apply np_max_elem in Hmx.
  apply list_elem_of_In, in_concat in Hmx as (row & Hrow & Hmx).
  unfold below_uint32_max in Hids. rewrite Forall_forall in Hids.
  specialize (Hids row (proj2 (list_elem_of_In _ _) Hrow)).
  rewrite Forall_forall in Hids.
  specialize (Hids mx (proj2 (list_elem_of_In _ _) Hmx)). simpl in Hids.
  rewrite Z.mod_small by lia. lia.
Qed.

Lemma np_max_is_Some vor n : 0 < n → shape vor n n → is_Some (np_max vor).
Proof.
  intros Hn Hs. destruct (get2_shape vor n n 0 0 Hs Hn Hn) as [p Hp].
  apply get2_elem_of in Hp. unfold np_max.
  destruct (concat vor); [by apply elem_of_nil in Hp|eauto].
Qed.

(** The loop of [average_cells] never raises when every visited pixel
    holds an id below the table length and has a companion value. *)
Lemma accumulate_total vor data K pixels sum_ count :
  length sum_ = K → length count = K →
  (∀ i j, (i, j) ∈ pixels →
     (∃ p, get2 vor i j = Some p ∧ p < K) ∧ is_Some (get2 data i j)) →
  ∃ sum' count',
    foldM (accumulate vor data) (sum_, count) pixels = Some (sum', count')
    ∧ length sum' = K ∧ length count' = K.
Proof.
  revert sum_ count. induction pixels as [|[i j] pixels IH]; intros sum_ count Hs Hc Hpx.
  - simpl. eauto.
  - destruct (Hpx i j) as [(p & Hp & HpK) [d Hd]]; [apply elem_of_cons; auto|].
    destruct (lookup_lt_is_Some_2 sum_ p) as [s Hsp]; [lia|].
    destruct (lookup_lt_is_Some_2 count p) as [c Hcp]; [lia|].
    simpl. rewrite Hp. simpl. rewrite Hcp. simpl. rewrite Hd. simpl.
    rewrite Hsp. simpl. apply IH.
    + by rewrite length_insert.
    + by rewrite length_insert.
    + intros i' j' H'. apply Hpx, elem_of_cons. auto.
Qed.

Lemma hits_cons_eq vor p i j pixels :
  get2 vor i j = Some p → hits vor p ((i, j) :: pixels) = S (hits vor p pixels).
Proof. intros H. unfold hits. by rewrite filter_cons_True. Qed.

Lemma hits_cons_ne vor p q i j pixels :
  get2 vor i j = Some q → q ≠ p → hits vor p ((i, j) :: pixels) = hits vor p pixels.
Proof.
  intros H Hne. unfold hits. rewrite filter_cons_False; [done|].
  simpl. rewrite H. congruence.
Qed.

(** Over a constant-[c] companion grid, the table entries of cell [p]
    after the loop has visited [pixels] are the [c]-sum and the [1]-sum
    iterated once for each visited pixel of that cell. *)
Lemma accumulate_const vor data c pixels :
  (∀ i j, (i, j) ∈ pixels → get2 data i j = Some c) →
  ∀ (k : nat → nat) sum_ count sum' count',
    (∀ p, p < length sum_ →
       sum_ !! p = Some (Nat.iter (k p) (λ s, (s + c)%float) 0%float)
       ∧ count !! p = Some (Nat.iter (k p) (λ n, (n + 1)%float) 0%float)) →
    foldM (accumulate vor data) (sum_, count) pixels = Some (sum', count') →
    length sum' = length sum_ ∧
    ∀ p, p < length sum_ →
      sum' !! p = Some (Nat.iter (k p + hits vor p pixels) (λ s, (s + c)%float) 0%float)
      ∧ count' !! p = Some (Nat.iter (k p + hits vor p pixels) (λ n, (n + 1)%float) 0%float).
Proof.
  induction pixels as [|[i j] pixels IH]; intros Hdata k sum_ count sum' count' Hinv Hrun.
  - simpl in Hrun. simplify_eq. split; [done|]. intros p Hp.
    unfold hits. simpl. rewrite Nat.add_0_r. auto.
  - simpl in Hrun.
    destruct (get2 vor i j) as [q|] eqn:Hq; [|done]. simpl in Hrun.
    destruct (count !! q) as [cq|] eqn:Hcq; [|done]. simpl in Hrun.
    rewrite (Hdata i j) in Hrun by (apply elem_of_cons; auto). simpl in Hrun.
    destruct (sum_ !! q) as [sq|] eqn:Hsq; [|done]. simpl in Hrun.
    assert (Hlt : q < length sum_) by (by eapply lookup_lt_Some).
    destruct (Hinv q Hlt) as [Hs Hc].
    assert (Hqc : q < length count).
    { eapply lookup_lt_Some. exact Hcq. }
    eapply (IH _ (λ p, if decide (p = q) then S (k p) else k p)) in Hrun.
    + destruct Hrun as [Hlen Hrun]. rewrite length_insert in Hlen, Hrun.
      split; [done|]. intros p Hp. destruct (Hrun p Hp) as [H1 H2].
      destruct (decide (p = q)) as [->|Hne].
      * rewrite (hits_cons_eq _ _ _ _ _ Hq).
        by rewrite Nat.add_succ_r.
      * by rewrite (hits_cons_ne _ _ _ _ _ _ Hq (not_eq_sym Hne)).
    + rewrite length_insert. intros p Hp.
      destruct (decide (p = q)) as [->|Hne].
      * rewrite !list_lookup_insert_eq by done. simpl.
        split; f_equal; f_equal; congruence.
      * rewrite !list_lookup_insert_ne by done. auto.
  Unshelve. intros i' j' H'. apply Hdata, elem_of_cons. auto.
Qed.

Lemma guarded_divide_lookup sum_ count p s n :
  sum_ !! p = Some s → count !! p = Some n →
  guarded_divide sum_ count !! p
    = Some (if (n =? 0)%float then 0%float else (s / n)%float).
Proof.
  intros Hs Hn. unfold guarded_divide.
  rewrite lookup_zip_with, Hs. simpl. by rewrite Hn.
Qed.

End CellFacts.

Section CellRuns.
Import Cells.

(** The loop of [average_cells] over a square grid runs to its end, with
    tables of length [max(vor) + 1]. *)
Lemma average_cells_run (size : nat) (vor : list (list nat)) (data : list (list float)) :
  0 < size → shape vor size size → shape data size size → below_uint32_max vor →
  ∃ mx sum' count',
    np_max vor = Some mx
    ∧ (∀ i j p, get2 vor i j = Some p → p < S mx)
    ∧ foldM (accumulate vor data)
        (replicate (S mx) 0%float, replicate (S mx) 0%float) (range2 size size)
      = Some (sum', count')
    ∧ length sum' = S mx ∧ length count' = S mx
    ∧ average_cells vor data = Some (guarded_divide sum' count').
Proof.
  intros Hpos Hvor Hdata Hbelow.
  destruct (np_max_is_Some vor size Hpos Hvor) as [mx Hmx].
  assert (Hids : ∀ i j p, get2 vor i j = Some p → p < S mx).
  { intros i j p Hp. apply get2_elem_of in Hp.
    pose proof (np_max_bound _ _ _ Hmx Hp). lia. }
  destruct (accumulate_total vor data (S mx) (range2 size size)
              (replicate (S mx) 0%float) (replicate (S mx) 0%float))
    as (sum' & count' & Hrun & Hls & Hlc).
  { apply length_replicate. }
  { apply length_replicate. }
  { intros i j Hij. apply elem_of_range2 in Hij as [Hi Hj]. split.
    - destruct (get2_shape vor size size i j Hvor Hi Hj) as [p Hp]. eauto.
    - by eapply get2_shape. }
  exists mx, sum', count'. repeat (split; [done|]).
  unfold average_cells. rewrite Hmx. cbn [mbind option_bind].
  rewrite (table_length_no_wrap vor mx Hbelow Hmx).
  destruct Hvor as [-> _]. by rewrite Hrun.
Qed.

(** [fill_cells] with a table that covers the ids of a square grid. *)
Lemma fill_cells_run (size : nat) (vor : list (list nat)) (table : list float) :
  shape vor size size →
  (∀ i j p, get2 vor i j = Some p → p < length table) →
  ∃ image,
    fill_cells vor table = Some image
    ∧ shape image size size
    ∧ ∀ i j, i < size → j < size →
        get2 image i j = (p ← get2 vor i j; table !! p).
Proof.
  intros Hvor Hids. unfold fill_cells. pose proof Hvor as [-> _].
  apply (mapM2_seq (λ i j, p ← get2 vor i j; table !! p)).
  intros i j Hi Hj.
  destruct (get2_shape vor _ _ i j Hvor Hi Hj) as [p Hp].
  rewrite Hp. simpl. apply lookup_lt_is_Some_2. eauto.
Qed.

End CellRuns.

(** On a 1×1 grid whose table length wraps around to [0] the first
    [count[p] += 1] raises. *)
Lemma average_cells_empty_table (p : nat) (d : float) :
  Z.to_nat ((Z.of_nat p + 1) mod 2 ^ 32) = 0 →
  Cells.average_cells [[p]] [[d]] = None.
Proof.
  intros Hwrap. unfold Cells.average_cells, Cells.np_max.
  cbn [concat app foldl mbind option_bind]. rewrite Hwrap. reflexivity.
Qed.

(** C9, as the code has it: for a [size × size] CellIdGrid [vor] (size
    positive) whose ids are all below [2^32 - 1] and a companion grid
    [data] of the same shape, [average_cells] returns a table of length
    [max(vor) + 1]; every id of [vor] indexes into it, and [fill_cells]
    with that table returns an image: no lookup is out of range. *)
Theorem average_cells_table_covers_ids (size : nat)
    (vor : list (list nat)) (data : list (list float)) :
  0 < size → shape vor size size → shape data size size →
  Cells.below_uint32_max vor →
  ∃ mx table image,
    Cells.np_max vor = Some mx
    ∧ Cells.average_cells vor data = Some table
    ∧ length table = S mx
    ∧ (∀ i j p, get2 vor i j = Some p → p < length table)
    ∧ Cells.fill_cells vor table = Some image.
Proof.
  intros Hpos Hvor Hdata Hbelow.
  destruct (average_cells_run size vor data Hpos Hvor Hdata Hbelow)
    as (mx & sum' & count' & Hmx & Hids & _ & Hls & Hlc & Havg).
  assert (Hlen : length (Cells.guarded_divide sum' count') = S mx).
  { unfold Cells.guarded_divide. rewrite length_zip_with. lia. }
  destruct (fill_cells_run size vor (Cells.guarded_divide sum' count') Hvor)
    as (image & Hfill & _).
  { intros i j p Hp. rewrite Hlen. eauto. }
  exists mx, (Cells.guarded_divide sum' count'), image.
  repeat (split; [done|]). split; [|done].
  intros i j p Hp. rewrite Hlen. eauto.
Qed.

Lemma average_cells_table_covers_ids_witness :
  ∃ mx table image,
    Cells.np_max Cells.three_one = Some mx
    ∧ Cells.average_cells Cells.three_one [[1; 2]; [3; 4]]%float = Some table
    ∧ length table = S mx
    ∧ (∀ i j p, get2 Cells.three_one i j = Some p → p < length table)
    ∧ Cells.fill_cells Cells.three_one table = Some image.
Proof.
  apply (average_cells_table_covers_ids 2).
  - lia.
  - split; [reflexivity|]. repeat constructor.
  - split; [reflexivity|]. repeat constructor.
  - repeat constructor.
Defined.

(** C9 fails as stated: on the 1×1 CellIdGrid whose pixel holds the id
    [2^32 - 1], the table length [max(vor) + 1] wraps around to [0] in
    [uint32]; the tables are empty, and the first [count[p] += 1] of
    [average_cells] raises an [IndexError]. *)
Lemma average_cells_wraps_at_top_id :
  shape Cells.top_id 1 1
  ∧ Cells.np_max Cells.top_id = Some (Z.to_nat 4294967295)
  ∧ Z.to_nat ((Z.of_nat (Z.to_nat 4294967295) + 1) mod 2 ^ 32) = 0
  ∧ Cells.average_cells Cells.top_id [[1]]%float = None.
Proof.
  assert (Hwrap : Z.to_nat ((Z.of_nat (Z.to_nat 4294967295) + 1) mod 2 ^ 32) = 0).
  { rewrite Z2Nat.id by lia. reflexivity. }
  split; [split; [reflexivity|repeat constructor]|].
  split; [reflexivity|]. split; [exact Hwrap|].
  exact (average_cells_empty_table (Z.to_nat 4294967295) 1 Hwrap).
Qed.

(** C2, as the code has it: over a [size × size] CellIdGrid whose ids
    are all below [2^32 - 1] (so that the table length [max(vor) + 1]
    does not wrap around in [uint32]),
    [average_cells] on the constant-[c] grid followed by [fill_cells]
    returns a [size × size] image whose pixel [(i, j)] holds the binary64
    quotient of the running sum [0 + c + ... + c] by the running count
    [0 + 1 + ... + 1], one term for each pixel of the cell of [(i, j)]. *)
Theorem average_fill_const_mean (size : nat) (vor : list (list nat)) (c : float) :
  0 < size → shape vor size size → Cells.below_uint32_max vor →
  ∃ table image,
    Cells.average_cells vor (Cells.const_grid size c) = Some table
    ∧ Cells.fill_cells vor table = Some image
    ∧ shape image size size
    ∧ ∀ i j p, i < size → j < size → get2 vor i j = Some p →
        get2 image i j = Some (Cells.const_mean c (Cells.cell_size vor p)).
Proof.
  intros Hpos Hvor Hbelow.
  destruct (average_cells_run size vor (Cells.const_grid size c) Hpos Hvor)
    as (mx & sum' & count' & Hmx & Hids & Hrun & Hls & Hlc & Havg);
    [apply shape_replicate|exact Hbelow|].
  assert (Hlen : length (Cells.guarded_divide sum' count') = S mx).
  { unfold Cells.guarded_divide. rewrite length_zip_with. lia. }
  destruct (fill_cells_run size vor (Cells.guarded_divide sum' count') Hvor)
    as (image & Hfill & Hshape & Hpx).
  { intros i j p Hp. rewrite Hlen. eauto. }
  exists (Cells.guarded_divide sum' count'), image.
  repeat (split; [done|]).
  intros i j p Hi Hj Hp. rewrite (Hpx i j Hi Hj), Hp. simpl.
  apply (accumulate_const vor _ c _) with (k := λ _, 0) in Hrun.
  - destruct Hrun as [_ Hrun]. rewrite length_replicate in Hrun.
    destruct (Hrun p (Hids i j p Hp)) as [Hs Hc]. simpl in Hs, Hc.
    rewrite (guarded_divide_lookup _ _ _ _ _ Hs Hc).
    unfold Cells.const_mean, Cells.cell_size. by destruct Hvor as [-> _].
  - intros i' j' Hij. apply elem_of_range2 in Hij as [? ?].
    by apply get2_replicate.
  - rewrite length_replicate. intros q Hq.
    rewrite !lookup_replicate_2 by done. done.
Qed.

Lemma average_fill_const_mean_witness :
  ∃ table image,
    Cells.average_cells Cells.three_one (Cells.const_grid 2 0.1%float) = Some table
    ∧ Cells.fill_cells Cells.three_one table = Some image
    ∧ shape image 2 2
    ∧ ∀ i j p, i < 2 → j < 2 → get2 Cells.three_one i j = Some p →
        get2 image i j
          = Some (Cells.const_mean 0.1%float (Cells.cell_size Cells.three_one p)).
Proof.
  apply (average_fill_const_mean 2).
  - lia.
  - split; [reflexivity|]. repeat constructor.
  - repeat constructor.
Defined.

(** C2 fails as stated: on the 2×2 grid with three pixels in cell 0, the
    constant 0.1 comes back as 0.10000000000000002 at every pixel of that
    cell, so the result is not the constant grid. *)
Lemma average_fill_const_not_exact :
  ∃ table image,
    Cells.average_cells Cells.three_one (Cells.const_grid 2 0.1%float) = Some table
    ∧ Cells.fill_cells Cells.three_one table = Some image
    ∧ get2 image 0 0 = Some 0x1.999999999999bp-4%float
    ∧ (0x1.999999999999bp-4 =? 0.1)%float = false
    ∧ image ≠ Cells.const_grid 2 0.1%float.
Proof.
  eexists _, _. split; [vm_compute; reflexivity|].
  split; [vm_compute; reflexivity|].
  split; [vm_compute; reflexivity|].
  split; [vm_compute; reflexivity|].
  intros H.
  apply (f_equal (λ g, from_option (λ x, (x =? 0.1)%float) true (get2 g 0 0))) in H.
  vm_compute in H. discriminate.
Qed.

(** ** The order on floats *)

Section FloatOrder.

Ltac cases_compare :=
  repeat match goal with
    | H : context [Z.compare ?x ?y] |- _ => destruct (Z.compare_spec x y)
    | |- context [Z.compare ?x ?y] => destruct (Z.compare_spec x y)
    | H : context [Pos.compare_cont Eq ?x ?y] |- _ =>
        change (Pos.compare_cont Eq x y) with (Pos.compare x y) in H;
        destruct (Pos.compare_spec x y)
    | |- context [Pos.compare_cont Eq ?x ?y] =>
        change (Pos.compare_cont Eq x y) with (Pos.compare x y);
        destruct (Pos.compare_spec x y)
    end.

Lemma SFleb_SFltb_trans (a b c : spec_float) :
  SFleb a b = true → SFltb b c = true → SFltb a c = true.
Proof.
  unfold SFleb, SFltb.
  destruct a as [[]|[]| |[] ma ea], b as [[]|[]| |[] mb eb],
    c as [[]|[]| |[] mc ec]; simpl; try done;
    cases_compare; simpl in *; try done; lia.
Qed.

Lemma leb_ltb_trans (x y z : float) :
  (x <=? y)%float = true → (y <? z)%float = true → (x <? z)%float = true.
Proof. rewrite leb_spec, !ltb_spec. apply SFleb_SFltb_trans. Qed.

Lemma SFltb_SFleb_trans (a b c : spec_float) :
  SFltb a b = true → SFleb b c = true → SFltb a c = true.
Proof.
  unfold SFleb, SFltb.
  destruct a as [[]|[]| |[] ma ea], b as [[]|[]| |[] mb eb],
    c as [[]|[]| |[] mc ec]; simpl; try done;
    cases_compare; simpl in *; try done; lia.
Qed.

Lemma ltb_leb_trans (x y z : float) :
  (x <? y)%float = true → (y <=? z)%float = true → (x <? z)%float = true.
Proof. rewrite leb_spec, !ltb_spec. apply SFltb_SFleb_trans. Qed.

Lemma SFleb_not_SFltb (a b : spec_float) :
  SFleb a b = true → SFltb a b = false → SFeqb b a = true.
Proof.
  unfold SFleb, SFltb, SFeqb.
  destruct a as [[]|[]| |[] ma ea], b as [[]|[]| |[] mb eb]; simpl; try done;
    cases_compare; simpl in *; try done; lia.
Qed.

Lemma leb_not_ltb (x y : float) :
  (x <=? y)%float = true → (x <? y)%float = false → (y =? x)%float = true.
Proof. rewrite leb_spec, ltb_spec, FloatAxioms.eqb_spec. apply SFleb_not_SFltb. Qed.

Lemma SFleb_refl_l (a b : spec_float) :
  SFleb a b = true → SFeqb a a = true ∧ SFeqb b b = true.
Proof.
  unfold SFleb, SFeqb.
  destruct a as [[]|[]| |[] ma ea], b as [[]|[]| |[] mb eb]; simpl; try done;
    rewrite ?Z.compare_refl; simpl;
    change (Pos.compare_cont Eq ?x ?y) with (Pos.compare x y);
    rewrite ?Pos.compare_refl; done.
Qed.

Lemma leb_not_nan (x y : float) :
  (x <=? y)%float = true → is_nan x = false ∧ is_nan y = false.
Proof.
  rewrite leb_spec. intros H. apply SFleb_refl_l in H as [Hx Hy].
  unfold is_nan. by rewrite !FloatAxioms.eqb_spec, Hx, Hy.
Qed.

Lemma SFltb_total (a b : spec_float) :
  SFltb a b = false → SFeqb a a = true → SFeqb b b = true → SFleb b a = true.
Proof.
  unfold SFleb, SFltb, SFeqb.
  destruct a as [[]|[]| |[] ma ea], b as [[]|[]| |[] mb eb]; simpl; try done;
    intros H _ _; cases_compare; simpl in *; try done; lia.
Qed.

Lemma ltb_total (x y : float) :
  (x <? y)%float = false → is_nan x = false → is_nan y = false →
  (y <=? x)%float = true.
Proof.
  unfold is_nan. rewrite leb_spec, ltb_spec, !FloatAxioms.eqb_spec.
  intros H Hx Hy. apply SFltb_total; [done| |].
  - by destruct (SFeqb (Prim2SF x) (Prim2SF x)).
  - by destruct (SFeqb (Prim2SF y) (Prim2SF y)).
Qed.

Lemma leb_refl (x : float) : is_nan x = false → (x <=? x)%float = true.
Proof.
  intros Hx. apply ltb_total; [|done|done].
  destruct (x <? x)%float eqn:H; [|done].
  unfold is_nan in Hx. rewrite ltb_spec in H. rewrite FloatAxioms.eqb_spec in Hx.
  unfold SFltb in H. unfold SFeqb in Hx.
  destruct (SFcompare (Prim2SF x) (Prim2SF x)) as [[]|]; done.
Qed.

(** [x.clip(lo, hi)] of a value that is not NaN lies between the
    bounds. *)
Lemma clip_in_range (x lo hi : float) :
  is_nan x = false → (lo <=? hi)%float = true →
  (lo <=? Num.clip x lo hi)%float = true ∧ (Num.clip x lo hi <=? hi)%float = true.
Proof.
  intros Hx Hlh. destruct (leb_not_nan _ _ Hlh) as [Hlo Hhi].
  unfold Num.clip, Num.maximum. rewrite Hx, Hlo.
  destruct (x <? lo)%float eqn:Hxl; unfold Num.minimum.
  - rewrite Hlo, Hhi. destruct (hi <? lo)%float eqn:Hhl.
    + pose proof (leb_ltb_trans _ _ _ Hlh Hhl) as H.
      pose proof (leb_refl lo Hlo) as H'.
      pose proof (ltb_leb_trans _ _ _ H H') as H''.
      rewrite ltb_spec in H''. unfold SFltb in H''.
      pose proof Hlo as Hn. unfold is_nan in Hn.
      rewrite FloatAxioms.eqb_spec in Hn. unfold SFeqb in Hn.
      destruct (SFcompare (Prim2SF lo) (Prim2SF lo)) as [[]|]; done.
    + split; [by apply leb_refl|done].
  - rewrite Hx, Hhi.
    pose proof (ltb_total _ _ Hxl Hx Hlo) as Hlx.
    destruct (hi <? x)%float eqn:Hhx.
    + split; [done|by apply leb_refl].
    + split; [done|]. by apply ltb_total.
Qed.

End FloatOrder.

(** ** HeightShaper *)

Section ShaperFacts.
Import Shaper.

Lemma digitize_monotone (bins : list float) (x y : float) :
  (x <=? y)%float = true → digitize x bins ≤ digitize y bins.
Proof.
  intros Hxy. induction bins as [|b bins IH]; simpl; [done|].
  destruct (y <? b)%float eqn:Hy.
  - by rewrite (leb_ltb_trans x y b Hxy Hy).
  - destruct (x <? b)%float; lia.
Qed.

Lemma band_range (bins : list float) (n : nat) (x : float) :
  1 ≤ n → (0 ≤ band bins n x ≤ Z.of_nat n - 1)%Z.
Proof. unfold band, clipZ. lia. Qed.

Lemma band_monotone (bins : list float) (n : nat) (x y : float) :
  (x <=? y)%float = true → (band bins n x ≤ band bins n y)%Z.
Proof.
  intros Hxy. pose proof (digitize_monotone bins x y Hxy).
  unfold band, clipZ. lia.
Qed.

Lemma quantize_get2 (data : list (list float)) (n : nat) i j :
  get2 (quantize data n) i j
    = band (linspace (-1) 1 (n + 1)) n <$> get2 data i j.
Proof.
  unfold quantize, get2. rewrite list_lookup_fmap.
  destruct (data !! i) as [row|]; simpl; [|done].
  by rewrite list_lookup_fmap.
Qed.

End ShaperFacts.

(** C3: for [n ≥ 1] and a grid with values in [[-1, 1]], [quantize]
    returns a grid of the same positions whose every band index lies in
    [[0, n-1]], and a larger (or equal) value, in this grid or in another
    one quantized with the same [n], never receives a smaller band
    index. *)
Theorem quantize_range_monotone (n : nat) (data : list (list float)) :
  1 ≤ n → Shaper.in_unit_range data = true →
  (∀ i j x, get2 data i j = Some x →
     ∃ b, get2 (Shaper.quantize data n) i j = Some b ∧ (0 ≤ b ≤ Z.of_nat n - 1)%Z)
  ∧ (∀ data' i j i' j' x y b b',
       get2 data i j = Some x → get2 data' i' j' = Some y →
       (x <=? y)%float = true →
       get2 (Shaper.quantize data n) i j = Some b →
       get2 (Shaper.quantize data' n) i' j' = Some b' →
       (b ≤ b')%Z).
Proof.
  intros Hn _. split.
  - intros i j x Hx. rewrite quantize_get2, Hx. simpl.
    eexists. split; [done|]. by apply band_range.
  - intros data' i j i' j' x y b b' Hx Hy Hxy.
    rewrite !quantize_get2, Hx, Hy. simpl. intros [= <-] [= <-].
    by apply band_monotone.
Qed.

Lemma quantize_range_monotone_witness :
  (1 ≤ 4 ∧ Shaper.in_unit_range [[-1; -0.5; 0.3]; [0; 1; 0.7]]%float = true)
  ∧ (∀ i j x, get2 [[-1; -0.5; 0.3]; [0; 1; 0.7]]%float i j = Some x →
       ∃ b, get2 (Shaper.quantize [[-1; -0.5; 0.3]; [0; 1; 0.7]]%float 4) i j = Some b
            ∧ (0 ≤ b ≤ Z.of_nat 4 - 1)%Z)
  ∧ (∀ data' i j i' j' x y b b',
       get2 [[-1; -0.5; 0.3]; [0; 1; 0.7]]%float i j = Some x →
       get2 data' i' j' = Some y →
       (x <=? y)%float = true →
       get2 (Shaper.quantize [[-1; -0.5; 0.3]; [0; 1; 0.7]]%float 4) i j = Some b →
       get2 (Shaper.quantize data' 4) i' j' = Some b' →
       (b ≤ b')%Z).
Proof.
  split; [split; [lia|vm_compute; reflexivity]|].
  apply (quantize_range_monotone 4 [[-1; -0.5; 0.3]; [0; 1; 0.7]]%float).
  - lia.
  - vm_compute. reflexivity.
Defined.

(** ** PointRelaxer and Scatterer *)

Section ScatterFacts.
Import Scatter.

Lemma get2_fmap {A B} (f : A → B) (g : list (list A)) i j :
  get2 ((λ row : list A, f <$> row) <$> g) i j = f <$> get2 g i j.
Proof.
  unfold get2. rewrite list_lookup_fmap.
  destruct (g !! i) as [row|]; simpl; [|done].
  by rewrite list_lookup_fmap.
Qed.

Lemma astype_uint32_range (x : float) : (0 ≤ Num.astype_uint32 x < 2 ^ 32)%Z.
Proof. unfold Num.astype_uint32. apply Z.mod_pos_bound. lia. Qed.

Lemma py_index_nonneg (len : nat) (i : Z) (k : nat) :
  (0 ≤ i)%Z → py_index len i = Some k → k = Z.to_nat i ∧ k < len.
Proof.
  intros Hi. unfold py_index.
  destruct (Z.leb_spec 0 i); [|lia].
  destruct (Z.ltb_spec i (Z.of_nat len)); [|done].
  intros [= <-]. lia.
Qed.

Lemma py_index_in_range (len : nat) (i : Z) :
  (0 ≤ i < Z.of_nat len)%Z → py_index len i = Some (Z.to_nat i).
Proof.
  intros Hi. unfold py_index.
  destruct (Z.leb_spec 0 i); [|lia].
  destruct (Z.ltb_spec i (Z.of_nat len)); [done|lia].
Qed.

(** One assignment of the rasterization, at non-negative indices: the
    shape stays, and the only element that may become true is the one
    assigned. *)
Lemma set_true_spec (g g' : list (list bool)) (r c : Z) n m :
  (0 ≤ r)%Z → (0 ≤ c)%Z → shape g n m → set_true g (r, c) = Some g' →
  shape g' n m
  ∧ ∀ i j, get2 g' i j = Some true →
      get2 g i j = Some true ∨ (Z.of_nat i = r ∧ Z.of_nat j = c).
Proof.
  intros Hr Hc [Hn Hm] Hset. unfold set_true in Hset. simpl in Hset.
  destruct (py_index (length g) r) as [ri|] eqn:Hri; [|done]. simpl in Hset.
  destruct (g !! ri) as [row|] eqn:Hrow; [|done]. simpl in Hset.
  destruct (py_index (length row) c) as [ci|] eqn:Hci; [|done]. simpl in Hset.
  simplify_eq.
  apply py_index_nonneg in Hri as [-> Hrlt]; [|done].
  apply py_index_nonneg in Hci as [-> Hclt]; [|done].
  split.
  - split; [by rewrite length_insert|].
    apply Forall_insert; [done|]. rewrite length_insert.
    rewrite Forall_forall in Hm. apply Hm. by eapply list_elem_of_lookup_2.
  - intros i j. unfold get2.
    destruct (decide (i = Z.to_nat r)) as [->|Hne].
    + rewrite list_lookup_insert_eq by done. simpl.
      destruct (decide (j = Z.to_nat c)) as [->|Hne].
      * intros _. right. lia.
      * rewrite list_lookup_insert_ne by done. rewrite Hrow. auto.
    + rewrite list_lookup_insert_ne by done. auto.
Qed.

Lemma set_true_total (g : list (list bool)) (r c : Z) n m :
  shape g n m → (0 ≤ r < Z.of_nat n)%Z → (0 ≤ c < Z.of_nat m)%Z →
  is_Some (set_true g (r, c)).
Proof.
  intros [Hn Hm] Hr Hc. unfold set_true. simpl.
  rewrite py_index_in_range by lia. simpl.
  destruct (lookup_lt_is_Some_2 g (Z.to_nat r)) as [row Hrow]; [lia|].
  rewrite Hrow. simpl.
  rewrite Forall_forall in Hm.
  rewrite (Hm row) by (by eapply list_elem_of_lookup_2).
  rewrite py_index_in_range by lia. simpl. eauto.
Qed.

(** The whole rasterization. *)
Lemma rasterize_spec (trees : list (Z * Z)) (g g' : list (list bool)) n m :
  Forall (λ p : Z * Z, (0 ≤ p.1)%Z ∧ (0 ≤ p.2)%Z) trees →
  shape g n m → foldM set_true g trees = Some g' →
  shape g' n m
  ∧ ∀ i j, get2 g' i j = Some true →
      get2 g i j = Some true ∨ (Z.of_nat i, Z.of_nat j) ∈ trees.
Proof.
  revert g. induction trees as [|[r c] trees IH]; intros g Hpos Hs Hrun.
  - simpl in Hrun. simplify_eq. auto.
  - simpl in Hrun. destruct (set_true g (r, c)) as [g1|] eqn:Hset; [|done].
    simpl in Hrun. apply Forall_cons in Hpos as [[Hr Hc] Hpos].
    destruct (set_true_spec _ _ _ _ _ _ Hr Hc Hs Hset) as [Hs1 Hg1].
    destruct (IH g1 Hpos Hs1 Hrun) as [Hs' Hg']. split; [done|].
    intros i j Hij. destruct (Hg' i j Hij) as [H1|H1].
    + destruct (Hg1 i j H1) as [?|[Hi Hj]]; [auto|].
      right. apply elem_of_cons. left. by rewrite Hi, Hj.
    + right. apply elem_of_cons. auto.
Qed.

Lemma rasterize_total (trees : list (Z * Z)) (g : list (list bool)) n m :
  Forall (λ p : Z * Z, (0 ≤ p.1 < Z.of_nat n)%Z ∧ (0 ≤ p.2 < Z.of_nat m)%Z) trees →
  shape g n m → is_Some (foldM set_true g trees).
Proof.
  revert g. induction trees as [|[r c] trees IH]; intros g Hin Hs; simpl.
  - eauto.
  - apply Forall_cons in Hin as [[Hr Hc] Hin].
    destruct (set_true_total g r c n m Hs Hr Hc) as [g1 Hset].
    rewrite Hset. simpl. apply IH; [done|].
    eapply set_true_spec; [| |done|done]; simpl in *; lia.
Qed.

Lemma zip_grid_get2 {A B C} (f : A → B → C) a b c i j v :
  zip_grid f a b = Some c → get2 c i j = Some v →
  ∃ x y, get2 a i j = Some x ∧ get2 b i j = Some y ∧ v = f x y.
Proof.
  unfold zip_grid. destruct (decide (length a = length b)); [|done].
  intros Hc Hv. apply mapM_Some_1 in Hc. unfold get2 in Hv.
  destruct (c !! i) as [rowc|] eqn:Hrowc; [|done]. simpl in Hv.
  destruct (Forall2_lookup_r _ _ _ _ _ Hc Hrowc) as ([ra rb] & Hzip & Hrow).
  apply lookup_zip_with_Some in Hzip as (ra' & rb' & [= <- <-] & Ha & Hb).
  simpl in Hrow. destruct (decide (length ra = length rb)); [|done].
  simplify_eq.
  apply lookup_zip_with_Some in Hv as (x & y & -> & Hx & Hy).
  exists x, y. unfold get2. rewrite Ha, Hb. simpl. auto.
Qed.

Lemma where_true_spec (g : list (list bool)) i j :
  (i, j) ∈ where_true g → get2 g i j = Some true.
Proof.
  unfold where_true. intros H.
  apply list_elem_of_bind in H as ([i' row] & H & Hrow).
  apply elem_of_lookup_imap_1 in Hrow as (i0 & row0 & [= -> ->] & Hrow).
  apply list_elem_of_bind in H as ([j' b] & H & Hb).
  apply elem_of_lookup_imap_1 in Hb as (j0 & b0 & [= -> ->] & Hb).
  destruct b0; [|by apply elem_of_nil in H].
  apply list_elem_of_singleton in H as [= -> ->].
  unfold get2. rewrite Hrow. simpl. done.
Qed.

Section WithVoronoi.
Variable Voronoi : list point → option diagram.

Lemma generate_trees_spec (draw trees : list (Z * Z)) (size : Z) :
  generate_trees Voronoi draw size = Some trees →
  Forall (λ p : Z * Z, (0 ≤ p.1 < size)%Z ∧ (0 ≤ p.2 < size)%Z) trees.
Proof.
  unfold generate_trees. intros H.
  destruct (relax _ _ _ _) as [[|rows]|]; simpl in H; try done.
  simplify_eq. apply Forall_forall. intros [r c] Hp.
  apply list_elem_of_filter in Hp as [[Hr Hc] Hp]. simpl in Hr, Hc.
  apply list_elem_of_fmap in Hp as ([x y] & [= -> ->] & _). simpl.
  pose proof (astype_uint32_range x). pose proof (astype_uint32_range y). lia.
Qed.

Lemma clip_in_clip_range (size : Z) (x : float) :
  (Num.of_Z 0 <=? Num.of_Z size)%float = true →
  in_clip_range size (Num.clip x (Num.of_Z 0) (Num.of_Z size)).
Proof.
  intros Hsize. destruct (is_nan x) eqn:Hx.
  - left. unfold Num.clip, Num.maximum. rewrite Hx.
    unfold Num.minimum. by rewrite Hx.
  - right. by apply clip_in_range.
Qed.

Lemma relax_loop_S (size : Z) (k : nat) (pts : ndpoints) :
  relax_loop Voronoi size (S k) pts
    = (vor ← voronoi Voronoi pts size;
       new_points ← centers vor;
       relax_loop Voronoi size k (clip_points size (as_array new_points))).
Proof. reflexivity. Qed.

(** After at least one iteration every coordinate that [relax] returns
    has gone through [clip(0, size)]. *)
Lemma relax_clipped (size : Z) (k : nat) (pts : ndpoints) (rows : list point) :
  (Num.of_Z 0 <=? Num.of_Z size)%float = true →
  relax Voronoi pts size (S k) = Some (Pts rows) →
  Forall (λ p : point, in_clip_range size p.1 ∧ in_clip_range size p.2) rows.
Proof.
  intros Hsize. unfold relax. revert pts.
  induction k as [|k IH]; intros pts; rewrite relax_loop_S; intros H.
  - destruct (voronoi Voronoi pts size) as [vor|]; [|done].
    cbn [mbind option_bind] in H.
    destruct (centers vor) as [cs|]; [|done].
    cbn [mbind option_bind relax_loop] in H.
    destruct (as_array cs) as [|rows']; simpl in H; [done|]. simplify_eq.
    apply Forall_forall. intros p Hp.
    apply list_elem_of_fmap in Hp as (q & -> & _). simpl.
    split; by apply clip_in_clip_range.
  - destruct (voronoi Voronoi pts size) as [vor|]; [|done].
    cbn [mbind option_bind] in H.
    destruct (centers vor) as [cs|]; [|done].
    cbn [mbind option_bind] in H. by eapply IH.
Qed.

End WithVoronoi.
End ScatterFacts.

(** C8: [relax] with [k = 0] returns its input points, the same points
    in the same order, whatever the Voronoi routine does. *)
Theorem relax_zero_iterations (Voronoi : list Scatter.point → option Scatter.diagram)
    (points : Scatter.ndpoints) (size : Z) :
  Scatter.relax Voronoi points size 0 = Some points.
Proof. unfold Scatter.relax. simpl. reflexivity. Qed.

(** C10: every point that [generate_trees] returns has both coordinates
    in [[0, size)], and rasterizing the returned points into a
    [size × size] mask raises no [IndexError].  The points come from ten
    iterations of [relax], each coordinate of which has been clipped into
    [[0, size]] (or is NaN), by the cast to [uint32], which leaves them
    in [[0, 2^32)], and by [filter_inbox], which keeps the points with
    both coordinates below [size]. *)
Theorem generate_trees_in_box (Voronoi : list Scatter.point → option Scatter.diagram)
    (draw trees : list (Z * Z)) (size : Z) :
  Scatter.generate_trees Voronoi draw size = Some trees →
  Forall (λ p : Z * Z, (0 ≤ p.1 < size)%Z ∧ (0 ≤ p.2 < size)%Z) trees
  ∧ is_Some (foldM Scatter.set_true
               (replicate (Z.to_nat size) (replicate (Z.to_nat size) false)) trees)
  ∧ ∃ relaxed,
      Scatter.relax Voronoi
        (Scatter.Pts ((λ p : Z * Z, (Num.of_Z p.1, Num.of_Z p.2)) <$> draw)) size 10
        = Some (Scatter.Pts relaxed)
      ∧ ((Num.of_Z 0 <=? Num.of_Z size)%float = true →
         Forall (λ p : Scatter.point,
                   Scatter.in_clip_range size p.1 ∧ Scatter.in_clip_range size p.2)
                relaxed)
      ∧ trees
        = filter (λ p : Z * Z, (p.1 < size)%Z ∧ (p.2 < size)%Z)
            ((λ p : Scatter.point, (Num.astype_uint32 p.1, Num.astype_uint32 p.2))
               <$> relaxed)
      ∧ Forall (λ p : Z * Z, (0 ≤ p.1 < 2 ^ 32)%Z ∧ (0 ≤ p.2 < 2 ^ 32)%Z)
          ((λ p : Scatter.point, (Num.astype_uint32 p.1, Num.astype_uint32 p.2))
             <$> relaxed).
Proof.
  intros H. pose proof (generate_trees_spec _ _ _ _ H) as Hbox.
  split; [done|]. split.
  { apply (rasterize_total _ _ (Z.to_nat size) (Z.to_nat size));
      [|apply shape_replicate].
    eapply Forall_impl; [exact Hbox|]. simpl. intros [r c]. simpl. lia. }
  unfold Scatter.generate_trees in H.
  destruct (Scatter.relax _ _ _ _) as [[|relaxed]|] eqn:Hrelax; simpl in H; try done.
  simplify_eq. exists relaxed. split; [done|]. split.
  { intros Hsize. by eapply relax_clipped. }
  split; [done|].
  apply Forall_forall. intros p Hp.
  apply list_elem_of_fmap in Hp as ([x y] & -> & _). simpl.
  split; apply astype_uint32_range.
Qed.

Lemma generate_trees_in_box_witness :
  Scatter.generate_trees Scatter.square_diagram [(5, 5)]%Z 8 = Some [(2, 2)]%Z
  ∧ Forall (λ p : Z * Z, (0 ≤ p.1 < 8)%Z ∧ (0 ≤ p.2 < 8)%Z) [(2, 2)]%Z
  ∧ is_Some (foldM Scatter.set_true
               (replicate (Z.to_nat 8) (replicate (Z.to_nat 8) false)) [(2, 2)]%Z)
  ∧ ∃ relaxed,
      Scatter.relax Scatter.square_diagram
        (Scatter.Pts ((λ p : Z * Z, (Num.of_Z p.1, Num.of_Z p.2)) <$> [(5, 5)]%Z)) 8 10
        = Some (Scatter.Pts relaxed)
      ∧ ((Num.of_Z 0 <=? Num.of_Z 8)%float = true →
         Forall (λ p : Scatter.point,
                   Scatter.in_clip_range 8 p.1 ∧ Scatter.in_clip_range 8 p.2)
                relaxed)
      ∧ [(2, 2)]%Z
        = filter (λ p : Z * Z, (p.1 < 8)%Z ∧ (p.2 < 8)%Z)
            ((λ p : Scatter.point, (Num.astype_uint32 p.1, Num.astype_uint32 p.2))
               <$> relaxed)
      ∧ Forall (λ p : Z * Z, (0 ≤ p.1 < 2 ^ 32)%Z ∧ (0 ≤ p.2 < 2 ^ 32)%Z)
          ((λ p : Scatter.point, (Num.astype_uint32 p.1, Num.astype_uint32 p.2))
             <$> relaxed).
Proof.
  split; [vm_compute; reflexivity|].
  apply (generate_trees_in_box Scatter.square_diagram [(5, 5)]%Z [(2, 2)]%Z 8).
  vm_compute. reflexivity.
Defined.

(** C4: every coordinate [(x, y)] that [place_trees] returns names a
    mask position, row [y] and column [x], that holds one of the points
    of [generate_trees], where [mask > a], where [river_land_mask] is
    true and where [adjusted_height_river_map < 0.5]. *)
Theorem place_trees_positions_valid
    (Voronoi : list Scatter.point → option Scatter.diagram)
    (draw : list (Z * Z)) (mask : list (list float)) (a : float)
    (river_land_mask : list (list bool))
    (adjusted_height_river_map : list (list float)) (size : Z)
    (output_trees : list (nat * nat)) :
  Scatter.place_trees Voronoi draw mask a river_land_mask
    adjusted_height_river_map size = Some output_trees →
  ∀ x y, (x, y) ∈ output_trees →
    ∃ trees m h,
      Scatter.generate_trees Voronoi draw size = Some trees
      ∧ (Z.of_nat y, Z.of_nat x) ∈ trees
      ∧ get2 mask y x = Some m ∧ (a <? m)%float = true
      ∧ get2 river_land_mask y x = Some true
      ∧ get2 adjusted_height_river_map y x = Some h ∧ (h <? 0.5)%float = true.
Proof.
  unfold Scatter.place_trees. intros Hrun x y Hxy.
  destruct (Scatter.generate_trees _ _ _) as [trees|] eqn:Htrees; [|done].
  simpl in Hrun.
  destruct (0 <=? size)%Z; [|done]. simpl in Hrun.
  destruct (foldM _ _ _) as [raster|] eqn:Hraster; [|done]. simpl in Hrun.
  destruct (Scatter.zip_grid andb raster _) as [t1|] eqn:H1; [|done]. simpl in Hrun.
  destruct (Scatter.zip_grid andb t1 _) as [t2|] eqn:H2; [|done]. simpl in Hrun.
  destruct (Scatter.zip_grid andb t2 _) as [t3|] eqn:H3; [|done]. simpl in Hrun.
  simplify_eq.
  apply list_elem_of_fmap in Hxy as ([i j] & [= -> ->] & Hij).
  apply where_true_spec in Hij.
  destruct (zip_grid_get2 _ _ _ _ _ _ _ H3 Hij) as (b2 & bh & Hb2 & Hbh & Hand3).
  symmetry in Hand3. apply andb_prop in Hand3 as [-> ->].
  destruct (zip_grid_get2 _ _ _ _ _ _ _ H2 Hb2) as (b1 & br & Hb1 & Hbr & Hand2).
  symmetry in Hand2. apply andb_prop in Hand2 as [-> ->].
  destruct (zip_grid_get2 _ _ _ _ _ _ _ H1 Hb1) as (b0 & bm & Hb0 & Hbm & Hand1).
  symmetry in Hand1. apply andb_prop in Hand1 as [-> ->].
  rewrite get2_fmap in Hbm, Hbh.
  destruct (get2 mask i j) as [m|]; [|done].
  destruct (get2 adjusted_height_river_map i j) as [h|]; [|done].
  simpl in Hbm, Hbh.
  exists trees, m, h.
  pose proof (generate_trees_spec _ _ _ _ Htrees) as Hbox.
  assert (Hpos : Forall (λ p : Z * Z, (0 ≤ p.1)%Z ∧ (0 ≤ p.2)%Z) trees).
  { eapply Forall_impl; [exact Hbox|]. intros [r c]. simpl. lia. }
  destruct (rasterize_spec trees _ raster _ _ Hpos
              (shape_replicate (Z.to_nat size) (Z.to_nat size) false) Hraster)
    as [_ Hset].
  destruct (Hset i j Hb0) as [Hzero|Hin].
  { unfold get2 in Hzero.
    destruct (replicate _ _ !! i) as [row|] eqn:Hrow; [|done].
    apply lookup_replicate in Hrow as [-> _]. simpl in Hzero.
    by apply lookup_replicate in Hzero as [? _]. }
  repeat split; try done; congruence.
Qed.

Lemma place_trees_positions_valid_witness :
  Scatter.place_trees Scatter.square_diagram [(5, 5)]%Z
    (replicate 4 (replicate 4 1%float)) 0.5%float
    (replicate 4 (replicate 4 true))
    (replicate 4 (replicate 4 0%float)) 4 = Some [(2, 2)]
  ∧ ∀ x y, (x, y) ∈ [(2, 2)] →
      ∃ trees m h,
        Scatter.generate_trees Scatter.square_diagram [(5, 5)]%Z 4 = Some trees
        ∧ (Z.of_nat y, Z.of_nat x) ∈ trees
        ∧ get2 (replicate 4 (replicate 4 1%float)) y x = Some m
        ∧ (0.5 <? m)%float = true
        ∧ get2 (replicate 4 (replicate 4 true)) y x = Some true
        ∧ get2 (replicate 4 (replicate 4 0%float)) y x = Some h
        ∧ (h <? 0.5)%float = true.
Proof.
  split; [vm_compute; reflexivity|].
  apply (place_trees_positions_valid Scatter.square_diagram [(5, 5)]%Z
           (replicate 4 (replicate 4 1%float)) 0.5%float
           (replicate 4 (replicate 4 true))
           (replicate 4 (replicate 4 0%float)) 4 [(2, 2)]).
  vm_compute. reflexivity.
Defined.

(** ** ShadingEngine *)

Section ShadingFacts.
Import Shading ShadingSpec.

Lemma reflect_lt (len : nat) (i : Z) : 0 < len → reflect len i < len.
Proof.
  intros Hlen. unfold reflect.
  pose proof (Z.mod_pos_bound i (2 * Z.of_nat len)).
  destruct (Z.ltb_spec (i mod (2 * Z.of_nat len)) (Z.of_nat len)); lia.
Qed.

Lemma ncols_shape {A} (g : list (list A)) n m : 0 < n → shape g n m → ncols g = m.
Proof.
  intros Hn [Hlen Hrows]. destruct g as [|row g]; simpl in *; [lia|].
  by apply Forall_cons in Hrows as [? _].
Qed.

(** The kernel that [gradient] builds, [-np.arange(-1, 2) / 2]. *)
Lemma gradient_kernel :
  (λ k, - k / 2)%float <$> arange (-1) 2 = [0.5; -0; -0.5]%float.
Proof. vm_compute. reflexivity. Qed.

(** [gradient] along the columns of each row. *)
Lemma convolve_row_kernel (im : list (list float)) n m :
  0 < n → 0 < m → shape im n m →
  ∃ gx, convolve im [[0.5; -0; -0.5]]%float = Some gx
        ∧ shape gx n m
        ∧ ∀ i j, i < n → j < m →
            ∃ before after,
              get2 im i (reflect m (Z.of_nat j - 1)) = Some before
              ∧ get2 im i (reflect m (Z.of_nat j + 1)) = Some after
              ∧ get2 gx i j = Some (central_difference before after).
Proof.
  intros Hn Hm Him. unfold convolve, correlate.
  set (fp := footprint _). vm_compute in fp. subst fp.
  set (ca := (_ + _)%Z). vm_compute in ca. subst ca.
  set (cb := (_ + _)%Z). vm_compute in cb. subst cb.
  rewrite (ncols_shape im n m Hn Him). destruct Him as [Hlen Hrows].
  rewrite Hlen.
  assert (Hget : ∀ i j, i < n → j < m → is_Some (get2 im i j)).
  { intros. by eapply get2_shape. }
  assert (Hrefl : ∀ i : nat, i < n → reflect n (Z.of_nat i + Z.of_nat 0 - 0) = i).
  { intros i Hi. unfold reflect.
    replace (Z.of_nat i + Z.of_nat 0 - 0)%Z with (Z.of_nat i) by lia.
    rewrite Z.mod_small by lia.
    destruct (Z.ltb_spec (Z.of_nat i) (Z.of_nat n)); lia. }
  match goal with
  | |- ∃ gx, mapM (λ i, mapM (@?f i) _) _ = _ ∧ _ =>
      destruct (mapM2_seq f n m) as (gx & Hgx & Hshape & Hpx)
  end.
  { intros i j Hi Hj. simpl. rewrite (Hrefl i Hi).
    destruct (Hget i (reflect m (Z.of_nat j + Z.of_nat 0 - 1)) Hi) as [b Hb];
      [by apply reflect_lt|].
    destruct (Hget i (reflect m (Z.of_nat j + Z.of_nat 2 - 1)) Hi) as [a Ha];
      [by apply reflect_lt|].
    rewrite Hb. simpl. rewrite Ha. simpl. eauto. }
  exists gx. split; [done|]. split; [done|].
  intros i j Hi Hj. rewrite (Hpx i j Hi Hj). simpl. rewrite (Hrefl i Hi).
  replace (Z.of_nat j + Z.of_nat 0 - 1)%Z with (Z.of_nat j - 1)%Z by lia.
  replace (Z.of_nat j + Z.of_nat 2 - 1)%Z with (Z.of_nat j + 1)%Z by lia.
  destruct (Hget i (reflect m (Z.of_nat j - 1)) Hi) as [b Hb];
    [by apply reflect_lt|].
  destruct (Hget i (reflect m (Z.of_nat j + 1)) Hi) as [a Ha];
    [by apply reflect_lt|].
  exists b, a. rewrite Hb, Ha. simpl. done.
Qed.

(** [gradient] along the rows of each column. *)
Lemma convolve_column_kernel (im : list (list float)) n m :
  0 < n → 0 < m → shape im n m →
  ∃ gy, convolve im [[0.5]; [-0]; [-0.5]]%float = Some gy
        ∧ shape gy n m
        ∧ ∀ i j, i < n → j < m →
            ∃ before after,
              get2 im (reflect n (Z.of_nat i - 1)) j = Some before
              ∧ get2 im (reflect n (Z.of_nat i + 1)) j = Some after
              ∧ get2 gy i j = Some (central_difference before after).
Proof.
  intros Hn Hm Him. unfold convolve, correlate.
  set (fp := footprint _). vm_compute in fp. subst fp.
  set (ca := (_ + _)%Z). vm_compute in ca. subst ca.
  set (cb := (_ + _)%Z). vm_compute in cb. subst cb.
  rewrite (ncols_shape im n m Hn Him). destruct Him as [Hlen Hrows].
  rewrite Hlen.
  assert (Hget : ∀ i j, i < n → j < m → is_Some (get2 im i j)).
  { intros. by eapply get2_shape. }
  assert (Hrefl : ∀ j : nat, j < m → reflect m (Z.of_nat j + Z.of_nat 0 - 0) = j).
  { intros j Hj. unfold reflect.
    replace (Z.of_nat j + Z.of_nat 0 - 0)%Z with (Z.of_nat j) by lia.
    rewrite Z.mod_small by lia.
    destruct (Z.ltb_spec (Z.of_nat j) (Z.of_nat m)); lia. }
  match goal with
  | |- ∃ gy, mapM (λ i, mapM (@?f i) _) _ = _ ∧ _ =>
      destruct (mapM2_seq f n m) as (gy & Hgy & Hshape & Hpx)
  end.
  { intros i j Hi Hj. simpl. rewrite (Hrefl j Hj).
    destruct (Hget (reflect n (Z.of_nat i + Z.of_nat 0 - 1)) j) as [b Hb];
      [by apply reflect_lt|done|].
    destruct (Hget (reflect n (Z.of_nat i + Z.of_nat 2 - 1)) j) as [a Ha];
      [by apply reflect_lt|done|].
    rewrite Hb. simpl. rewrite Ha. simpl. eauto. }
  exists gy. split; [done|]. split; [done|].
  intros i j Hi Hj. rewrite (Hpx i j Hi Hj). simpl. rewrite (Hrefl j Hj).
  replace (Z.of_nat i + Z.of_nat 0 - 1)%Z with (Z.of_nat i - 1)%Z by lia.
  replace (Z.of_nat i + Z.of_nat 2 - 1)%Z with (Z.of_nat i + 1)%Z by lia.
  destruct (Hget (reflect n (Z.of_nat i - 1)) j) as [b Hb];
    [by apply reflect_lt|done|].
  destruct (Hget (reflect n (Z.of_nat i + 1)) j) as [a Ha];
    [by apply reflect_lt|done|].
  exists b, a. rewrite Hb, Ha. simpl. done.
Qed.

End ShadingFacts.

(** C7, as the code has it: [gradient] convolves with the kernel
    [[0.5, -0, -0.5]], as a row for the x-gradient and as a column for the
    y-gradient, so that each gradient value is half the element after the
    pixel minus half the element before it along the axis, the edges being
    reflected. *)
Theorem gradient_central_difference (im : list (list float)) (n m : nat) :
  0 < n → 0 < m → shape im n m →
  ∃ gx gy,
    Shading.gradient im = Some (gx, gy)
    ∧ Shading.convolve im [[0.5; -0; -0.5]]%float = Some gx
    ∧ Shading.convolve im [[0.5]; [-0]; [-0.5]]%float = Some gy
    ∧ ∀ i j, i < n → j < m →
        ∃ left right up down,
          get2 im i (Shading.reflect m (Z.of_nat j - 1)) = Some left
          ∧ get2 im i (Shading.reflect m (Z.of_nat j + 1)) = Some right
          ∧ get2 im (Shading.reflect n (Z.of_nat i - 1)) j = Some up
          ∧ get2 im (Shading.reflect n (Z.of_nat i + 1)) j = Some down
          ∧ get2 gx i j = Some (ShadingSpec.central_difference left right)
          ∧ get2 gy i j = Some (ShadingSpec.central_difference up down).
Proof.
  intros Hn Hm Him.
  destruct (convolve_row_kernel im n m Hn Hm Him) as (gx & Hgx & _ & Hx).
  destruct (convolve_column_kernel im n m Hn Hm Him) as (gy & Hgy & _ & Hy).
  exists gx, gy. split.
  { unfold Shading.gradient. rewrite gradient_kernel.
    change (Shading.transpose [[0.5; -0; -0.5]]%float)
      with [[0.5]; [-0]; [-0.5]]%float.
    rewrite Hgx. cbn [mbind option_bind]. by rewrite Hgy. }
  split; [done|]. split; [done|].
  intros i j Hi Hj.
  destruct (Hx i j Hi Hj) as (l & r & Hl & Hr & Hgl).
  destruct (Hy i j Hi Hj) as (u & d & Hu & Hd & Hgu).
  exists l, r, u, d. auto 10.
Qed.

Lemma gradient_central_difference_witness :
  ∃ gx gy,
    Shading.gradient Shading.ramp = Some (gx, gy)
    ∧ Shading.convolve Shading.ramp [[0.5; -0; -0.5]]%float = Some gx
    ∧ Shading.convolve Shading.ramp [[0.5]; [-0]; [-0.5]]%float = Some gy
    ∧ ∀ i j, i < 3 → j < 3 →
        ∃ left right up down,
          get2 Shading.ramp i (Shading.reflect 3 (Z.of_nat j - 1)) = Some left
          ∧ get2 Shading.ramp i (Shading.reflect 3 (Z.of_nat j + 1)) = Some right
          ∧ get2 Shading.ramp (Shading.reflect 3 (Z.of_nat i - 1)) j = Some up
          ∧ get2 Shading.ramp (Shading.reflect 3 (Z.of_nat i + 1)) j = Some down
          ∧ get2 gx i j = Some (ShadingSpec.central_difference left right)
          ∧ get2 gy i j = Some (ShadingSpec.central_difference up down).
Proof.
  apply (gradient_central_difference Shading.ramp 3 3).
  - lia.
  - lia.
  - split; [reflexivity|]. repeat constructor.
Defined.

(** C7 fails as stated: on the one-row grid [[0, 1, 4]] the x-gradient of
    the code is [[0.5, 2, 1.5]], while the convolution with the kernel
    [[-0.5, 0, 0.5]] gives [[-0.5, -2, -1.5]], the opposite sign. *)
Lemma gradient_kernel_sign :
  ∃ gy,
    Shading.gradient [[0; 1; 4]]%float = Some ([[0.5; 2; 1.5]]%float, gy)
    ∧ Shading.gradient_spec [[0; 1; 4]]%float = Some ([[-0.5; -2; -1.5]]%float, gy)
    ∧ get2 [[0.5; 2; 1.5]]%float 0 1 = Some 2%float
    ∧ get2 [[-0.5; -2; -1.5]]%float 0 1 = Some (-2)%float
    ∧ (2 =? -2)%float = false
    ∧ Shading.gradient [[0; 1; 4]]%float ≠ Shading.gradient_spec [[0; 1; 4]]%float.
Proof.
  eexists. split; [vm_compute; reflexivity|].
  split; [vm_compute; reflexivity|].
  split; [reflexivity|]. split; [reflexivity|]. split; [reflexivity|].
  intros H.
  apply (f_equal (λ r : option (list (list float) * list (list float)),
            from_option (λ g, from_option (λ x, (x =? 2)%float) false (get2 g.1 0 1))
              false r)) in H.
  vm_compute in H. discriminate.
Qed.

(** C6, at the failing input: for the 1×1 gradients [[0]], [[0]] with
    intensity 1 the larger gradient maximum is zero and all three
    channels of the normal map are NaN; so are the channels of the normal
    map of a flat 2×2 height map. *)
Theorem compute_normal_map_zero_gradient :
  Shading.compute_normal_map [[0]]%float [[0]]%float 1
    = Some [[(nan, nan, nan)]]
  ∧ Shading.get_normal_map [[5; 5]; [5; 5]]%float 1
    = Some [[(nan, nan, nan); (nan, nan, nan)]; [(nan, nan, nan); (nan, nan, nan)]]
  ∧ is_nan nan = true.
Proof. repeat split; vm_compute; reflexivity. Qed.

Section CompositeFacts.
Import Shading ShadingSpec.

(** [np.interp] holds the first table value left of the table. *)
Lemma remap_low (v : float) : (v <=? -1)%float = true → remap v = (-192)%float.
Proof.
  intros Hv. unfold remap, Num.interp.
  destruct (leb_not_nan _ _ Hv) as [-> _].
  destruct (1 <? v)%float eqn:H1.
  { pose proof (ltb_leb_trans _ _ _ H1 Hv) as H. vm_compute in H. done. }
  destruct (v <? -1)%float eqn:H2; [done|].
  destruct (1 <=? v)%float eqn:H3.
  { assert (Hlt : (v <? 1)%float = true).
    { apply (leb_ltb_trans _ _ _ Hv). vm_compute. reflexivity. }
    pose proof (leb_ltb_trans _ _ _ H3 Hlt) as H. vm_compute in H. done. }
  by rewrite (leb_not_ltb _ _ Hv H2).
Qed.

(** [np.interp] holds the last table value right of the table. *)
Lemma remap_high (v : float) : (1 <=? v)%float = true → remap v = 192%float.
Proof.
  intros Hv. unfold remap, Num.interp.
  destruct (leb_not_nan _ _ Hv) as [_ ->].
  destruct (1 <? v)%float eqn:H1; [done|].
  destruct (v <? -1)%float eqn:H2.
  { pose proof (leb_ltb_trans _ _ _ Hv H2) as H. vm_compute in H. done. }
  by rewrite Hv.
Qed.

Lemma add64_exact (x y : Z) :
  (- 2 ^ 63 ≤ x + y < 2 ^ 63)%Z → add64 x y = (x + y)%Z.
Proof. intros H. unfold add64. rewrite Z.mod_small; lia. Qed.

End CompositeFacts.

(** C5, as the code has it: [apply_height_map] remaps the combined
    shading signal of each pixel with [np.interp] from [(-1, 1)] to
    [(-192, 192)] — to exactly [-192] for signals at or below [-1] and to
    exactly [192] for signals at or above [1] —, truncates the remapped
    value to an integer offset and adds the offset to every channel of the
    base colour.  The sum is returned as it is: for a base colour in
    [[0, 255]] and a clamped signal the channels are the base channels
    minus 192, or plus 192. *)
Theorem apply_height_map_adds_offset
    (im_map : list (list Shading.color)) (smooth_map height_map : list (list float))
    (land_mask : list (list bool))
    (out_map : list (list Shading.color)) (normal_map : list (list float)) :
  Shading.apply_height_map im_map smooth_map height_map land_mask
    = Some (out_map, normal_map) →
  (∀ i j px, get2 im_map i j = Some px → ShadingSpec.in_channel_range px) →
  ∀ i j out, get2 out_map i j = Some out →
    ∃ px light smooth land v,
      get2 im_map i j = Some px
      ∧ (lights ← Shading.get_normal_light height_map; get2 lights i j) = Some light
      ∧ get2 smooth_map i j = Some smooth
      ∧ get2 land_mask i j = Some land
      ∧ v = ShadingSpec.signal light smooth land
      ∧ get2 normal_map i j = Some (ShadingSpec.remap v)
      ∧ out = (Shading.add64 px.1.1 (Num.astype_int (ShadingSpec.remap v)),
               Shading.add64 px.1.2 (Num.astype_int (ShadingSpec.remap v)),
               Shading.add64 px.2 (Num.astype_int (ShadingSpec.remap v)))
      ∧ ((v <=? -1)%float = true →
           out = (px.1.1 - 192, px.1.2 - 192, px.2 - 192)%Z)
      ∧ ((1 <=? v)%float = true →
           out = (px.1.1 + 192, px.1.2 + 192, px.2 + 192)%Z).
Proof.
  unfold Shading.apply_height_map. intros Hrun Hbase i j out Hout.
  destruct (Shading.get_normal_light height_map) as [lights|]; [|done].
  cbn [mbind option_bind] in Hrun.
  destruct (Scatter.zip_grid _ lights land_mask) as [lit|] eqn:Hlit; [|done].
  cbn [mbind option_bind] in Hrun.
  destruct (Scatter.zip_grid _ smooth_map land_mask) as [flat|] eqn:Hflat; [|done].
  cbn [mbind option_bind] in Hrun.
  destruct (Scatter.zip_grid _ lit flat) as [sig|] eqn:Hsig; [|done].
  cbn [mbind option_bind] in Hrun.
  destruct (Scatter.zip_grid _ im_map _) as [out_map'|] eqn:Hadd; [|done].
  cbn [mbind option_bind] in Hrun. simplify_eq.
  destruct (zip_grid_get2 _ _ _ _ _ _ _ Hadd Hout) as (px & r & Hpx & Hr & ->).
  rewrite get2_fmap in Hr.
  destruct (get2 sig i j) as [v|] eqn:Hv; [|done]. simpl in Hr. simplify_eq.
  destruct (zip_grid_get2 _ _ _ _ _ _ _ Hsig Hv) as (a & b & Ha & Hb & ->).
  destruct (zip_grid_get2 _ _ _ _ _ _ _ Hlit Ha) as (light & land & Hl & Hland & ->).
  destruct (zip_grid_get2 _ _ _ _ _ _ _ Hflat Hb) as (smooth & land' & Hs & Hland' & ->).
  assert (land' = land) as -> by congruence.
  exists px, light, smooth, land, (ShadingSpec.signal light smooth land).
  split; [done|]. split; [done|]. split; [done|]. split; [done|]. split; [done|].
  split.
  { rewrite get2_fmap, Hv. done. }
  split; [done|].
  pose proof (Hbase i j px Hpx) as (H1 & H2 & H3).
  fold (ShadingSpec.signal light smooth land).
  fold (ShadingSpec.remap (ShadingSpec.signal light smooth land)).
  split; intros Hclamp.
  - rewrite (remap_low _ Hclamp).
    change (Num.astype_int (-192)) with (-192)%Z.
    rewrite !add64_exact by lia. done.
  - rewrite (remap_high _ Hclamp).
    change (Num.astype_int 192) with 192%Z.
    rewrite !add64_exact by lia. done.
Qed.

Lemma apply_height_map_adds_offset_witness :
  Shading.apply_height_map
    (replicate 3 (replicate 3 (255, 0, 7)%Z))
    (replicate 3 (replicate 3 3%float)) Shading.ramp
    (replicate 3 (replicate 3 false))
    = Some (replicate 3 (replicate 3 (447, 192, 199)%Z),
            replicate 3 (replicate 3 192%float))
  ∧ ∀ i j out,
      get2 (replicate 3 (replicate 3 (447, 192, 199)%Z)) i j = Some out →
      ∃ px light smooth land v,
        get2 (replicate 3 (replicate 3 (255, 0, 7)%Z)) i j = Some px
        ∧ (lights ← Shading.get_normal_light Shading.ramp; get2 lights i j) = Some light
        ∧ get2 (replicate 3 (replicate 3 3%float)) i j = Some smooth
        ∧ get2 (replicate 3 (replicate 3 false)) i j = Some land
        ∧ v = ShadingSpec.signal light smooth land
        ∧ get2 (replicate 3 (replicate 3 192%float)) i j = Some (ShadingSpec.remap v)
        ∧ out = (Shading.add64 px.1.1 (Num.astype_int (ShadingSpec.remap v)),
                 Shading.add64 px.1.2 (Num.astype_int (ShadingSpec.remap v)),
                 Shading.add64 px.2 (Num.astype_int (ShadingSpec.remap v)))
        ∧ ((v <=? -1)%float = true →
             out = (px.1.1 - 192, px.1.2 - 192, px.2 - 192)%Z)
        ∧ ((1 <=? v)%float = true →
             out = (px.1.1 + 192, px.1.2 + 192, px.2 + 192)%Z).
Proof.
  split; [vm_compute; reflexivity|].
  apply (apply_height_map_adds_offset
           (replicate 3 (replicate 3 (255, 0, 7)%Z))
           (replicate 3 (replicate 3 3%float)) Shading.ramp
           (replicate 3 (replicate 3 false))).
  - vm_compute. reflexivity.
  - intros i j px Hpx. apply get2_replicate_inv in Hpx as ->.
    unfold ShadingSpec.in_channel_range. simpl. lia.
Defined.

(** C5 fails as stated: with the base colour (255, 0, 7) at every pixel,
    the 3×3 ramp as height map, no land and the smoothed height 1.0, the
    offset is 96 and the output colour is (351, 96, 103): the red channel
    lies above 255. *)
Lemma apply_height_map_does_not_clip :
  ∃ out_map normal_map,
    Shading.apply_height_map
      (replicate 3 (replicate 3 (255, 0, 7)%Z))
      (replicate 3 (replicate 3 1%float)) Shading.ramp
      (replicate 3 (replicate 3 false))
      = Some (out_map, normal_map)
    ∧ get2 normal_map 0 0 = Some 96%float
    ∧ get2 out_map 0 0 = Some (351, 96, 103)%Z
    ∧ (255 < 351)%Z.
Proof.
  eexists _, _. split; [vm_compute; reflexivity|].
  split; [vm_compute; reflexivity|]. split; [vm_compute; reflexivity|]. lia.
Qed.

(** ** Rounding of binary64 operations *)

Section RoundingFacts.
Import Rounding.
Local Open Scope Z_scope.
Local Arguments V : simpl never.
Local Arguments Z.pow : simpl never.


Lemma digits2_pos_bounds (p : positive) :
  2 ^ (Z.pos (digits2_pos p) - 1) ≤ Z.pos p < 2 ^ Z.pos (digits2_pos p).
Proof.
  induction p as [p IH|p IH|]; simpl digits2_pos.
  - rewrite Pos2Z.inj_succ.
    replace (Z.succ (Z.pos (digits2_pos p)) - 1) with (Z.succ (Z.pos (digits2_pos p) - 1)) by lia.
    rewrite !Z.pow_succ_r by lia. lia.
  - rewrite Pos2Z.inj_succ.
    replace (Z.succ (Z.pos (digits2_pos p)) - 1) with (Z.succ (Z.pos (digits2_pos p) - 1)) by lia.
    rewrite !Z.pow_succ_r by lia. lia.
  - simpl. lia.
Qed.

Lemma iter_pos_nat {A} (f : A → A) (p : positive) (x : A) :
  SpecFloat.iter_pos f p x = Nat.iter (Pos.to_nat p) f x.
Proof.
  revert x. induction p as [p IH|p IH|]; intros x; cbn [SpecFloat.iter_pos].
  - rewrite !IH, Pos2Nat.inj_xI.
    replace (S (2 * Pos.to_nat p)) with (Pos.to_nat p + S (Pos.to_nat p))%nat by lia.
    rewrite Nat.iter_add. by rewrite Nat.iter_succ_r.
  - rewrite !IH, Pos2Nat.inj_xO.
    replace (2 * Pos.to_nat p)%nat with (Pos.to_nat p + Pos.to_nat p)%nat by lia.
    by rewrite Nat.iter_add.
  - done.
Qed.

Lemma shr_1_spec (m : Z) (r s : bool) :
  0 ≤ m →
  shr_1 (Build_shr_record m r s) = Build_shr_record (m / 2) (Z.odd m) (r || s).
Proof.
  intros Hm. destruct m as [|[p|p|]|p]; try lia.
  - done.
  - assert (H : Z.pos p~1 / 2 = Z.pos p).
    { symmetry. apply Z.div_unique with 1; lia. }
    rewrite H. done.
  - assert (H : Z.pos p~0 / 2 = Z.pos p).
    { symmetry. apply Z.div_unique with 0; lia. }
    rewrite H. done.
  - done.
Qed.

Lemma shr_iter (k : nat) (m : Z) :
  0 ≤ m →
  ∃ r s,
    Nat.iter k shr_1 (Build_shr_record m false false)
      = Build_shr_record (m / 2 ^ Z.of_nat k) r s
    ∧ (m mod 2 ^ Z.of_nat k = 0 → r = false ∧ s = false).
Proof.
  intros Hm. induction k as [|k (r & s & IH & Hrs)].
  - exists false, false. simpl. rewrite Z.div_1_r. done.
  - rewrite Nat.iter_succ, IH.
    rewrite shr_1_spec by (apply Z.div_pos; lia).
    exists (Z.odd (m / 2 ^ Z.of_nat k)), (r || s). split.
    + f_equal. rewrite Nat2Z.inj_succ, Z.pow_succ_r by lia.
      rewrite Z.div_div by lia. f_equal. lia.
    + rewrite Nat2Z.inj_succ, Z.pow_succ_r by lia. intros Hmod.
      assert (H2k : 0 < 2 ^ Z.of_nat k) by (apply Z.pow_pos_nonneg; lia).
      apply Z.mod_divide in Hmod as [q Hq]; [|lia].
      assert (Hmk : m mod 2 ^ Z.of_nat k = 0).
      { subst m. apply Z.mod_divide; [lia|]. exists (q * 2). lia. }
      destruct (Hrs Hmk) as [-> ->]. split; [|done].
      subst m. replace (q * (2 * 2 ^ Z.of_nat k)) with (q * 2 * 2 ^ Z.of_nat k) by lia.
      rewrite Z.div_mul by lia. rewrite Z.odd_mul. simpl. by rewrite andb_false_r.
Qed.

Lemma V_shift (m e d : Z) : 0 ≤ d → -2200 ≤ e → V (m * 2 ^ d) e = V m (e + d).
Proof.
  intros Hd He. unfold V.
  replace (e + d + 2200) with (d + (e + 2200)) by lia.
  rewrite (Z.pow_add_r 2 d (e + 2200)) by lia. ring.
Qed.

Lemma V_mono (m m' e : Z) : m ≤ m' → V m e ≤ V m' e.
Proof.
  intros H. unfold V. apply Z.mul_le_mono_nonneg_r; [|done].
  apply Z.pow_nonneg. lia.
Qed.

Lemma V_div (m e d : Z) : 0 ≤ m → 0 ≤ d → -2200 ≤ e → V (m / 2 ^ d) (e + d) ≤ V m e.
Proof.
  intros Hm Hd He. rewrite <- V_shift by done. apply V_mono.
  assert (0 < 2 ^ d) by (apply Z.pow_pos_nonneg; lia).
  rewrite Z.mul_comm. apply Z.mul_div_le. done.
Qed.

Lemma V_exact (m e d : Z) :
  0 ≤ d → -2200 ≤ e → m mod 2 ^ d = 0 → V (m / 2 ^ d) (e + d) = V m e.
Proof.
  intros Hd He Hmod. rewrite <- V_shift by done. f_equal.
  assert (0 < 2 ^ d) by (apply Z.pow_pos_nonneg; lia).
  pose proof (Z.div_mod m (2 ^ d)). lia.
Qed.

Lemma V_round_up (m e e1 b q : Z) :
  0 ≤ m → -2200 ≤ e → e ≤ e1 → e1 ≤ q →
  V m e ≤ V b q → m mod 2 ^ (e1 - e) ≠ 0 →
  V (m / 2 ^ (e1 - e) + 1) e1 ≤ V b q.
Proof.
  intros Hm He He1 Hq Hle Hmod.
  set (d := e1 - e) in *.
  assert (Hd : 0 < 2 ^ d) by (apply Z.pow_pos_nonneg; lia).
  assert (Hb : V b q = V (b * 2 ^ (q - e1) * 2 ^ d) e).
  { rewrite !V_shift by lia. f_equal. lia. }
  rewrite Hb in Hle.
  assert (Ht : 0 < 2 ^ (e + 2200)) by (apply Z.pow_pos_nonneg; lia).
  unfold V in Hle. apply Z.mul_le_mono_pos_r in Hle; [|done].
  set (c := b * 2 ^ (q - e1)) in *.
  assert (Hlt : m < c * 2 ^ d).
  { destruct (Z.eq_dec m (c * 2 ^ d)) as [->|]; [|lia].
    rewrite Z.mod_mul in Hmod by lia. done. }
  assert (m / 2 ^ d < c) by (apply Z.div_lt_upper_bound; lia).
  replace (V b q) with (V c e1).
  - apply V_mono. lia.
  - unfold c. rewrite V_shift by lia. f_equal. lia.
Qed.

Lemma V_digits (m e b q : Z) :
  0 < m → -2200 ≤ e → -2200 ≤ q → 0 < b < 2 ^ 53 →
  V m e ≤ V b q → Zdigits2 m + e - 53 ≤ q.
Proof.
  intros Hm He Hq Hb Hle. destruct m as [|p|p]; try lia. simpl Zdigits2.
  pose proof (digits2_pos_bounds p) as [Hlo _].
  assert (H1 : V (2 ^ (Z.pos (digits2_pos p) - 1)) e ≤ V b q).
  { etransitivity; [|exact Hle]. by apply V_mono. }
  assert (H2 : V b q < V (2 ^ 53) q).
  { unfold V. apply Z.mul_lt_mono_pos_r; [|lia].
    apply Z.pow_pos_nonneg; lia. }
  unfold V in H1, H2. rewrite <- !Z.pow_add_r in H1, H2 by lia.
  assert (H3 : 2 ^ (Z.pos (digits2_pos p) - 1 + (e + 2200)) < 2 ^ (53 + (q + 2200))) by lia.
  apply Z.pow_lt_mono_r_iff in H3; lia.
Qed.

Lemma shr_fexp_spec (m e : Z) :
  0 ≤ m →
  ∃ r s,
    shr_fexp prec emax m e loc_Exact
      = (Build_shr_record
           (m / 2 ^ (Z.max e (fexp prec emax (Zdigits2 m + e)) - e)) r s,
         Z.max e (fexp prec emax (Zdigits2 m + e)))
    ∧ (m mod 2 ^ (Z.max e (fexp prec emax (Zdigits2 m + e)) - e) = 0 →
       r = false ∧ s = false).
Proof.
  intros Hm. unfold shr_fexp, shr. cbn [shr_record_of_loc].
  destruct (fexp prec emax (Zdigits2 m + e) - e) as [|n|n] eqn:Hn.
  - exists false, false. replace (Z.max e _) with e by lia.
    rewrite Z.sub_diag, Z.pow_0_r, Z.div_1_r. done.
  - rewrite iter_pos_nat.
    destruct (shr_iter (Pos.to_nat n) m Hm) as (r & s & Hiter & Hrs).
    rewrite positive_nat_Z in Hiter, Hrs.
    exists r, s. replace (Z.max e _) with (e + Z.pos n) by lia.
    replace (e + Z.pos n - e) with (Z.pos n) by lia.
    rewrite Hiter. done.
  - exists false, false. replace (Z.max e _) with e by lia.
    rewrite Z.sub_diag, Z.pow_0_r, Z.div_1_r. done.
Qed.

Lemma round_nearest_even_bounds (m : Z) (r s : bool) :
  m ≤ round_nearest_even m (loc_of_shr_record (Build_shr_record m r s)) ≤ m + 1
  ∧ (r = false ∧ s = false →
     round_nearest_even m (loc_of_shr_record (Build_shr_record m r s)) = m).
Proof.
  destruct r, s; simpl; try destruct (Z.even m); split; try lia; intros [? ?]; done.
Qed.

Lemma fexp_eq (x : Z) : fexp prec emax x = Z.max (x - 53) (-1074).
Proof. reflexivity. Qed.

(** Rounding a positive value that is at most the representable value
    [b·2^q] gives zero or a finite float that is at most [b·2^q]. *)
Lemma binary_round_aux_le (sx : bool) (mx ex b q : Z) :
  0 < mx → -2200 ≤ ex ≤ 971 → 0 < b < 2 ^ 53 → -1074 ≤ q ≤ 970 →
  V mx ex ≤ V b q →
  binary_round_aux prec emax sx mx ex loc_Exact = S754_zero sx
  ∨ ∃ m e, binary_round_aux prec emax sx mx ex loc_Exact = S754_finite sx m e
           ∧ -1074 ≤ e ≤ 971 ∧ V (Z.pos m) e ≤ V b q.
Proof.
  intros Hmx Hex Hb Hq Hle. unfold binary_round_aux.
  destruct (shr_fexp_spec mx ex) as (r1 & s1 & -> & Hexact1); [lia|].
  set (e1 := Z.max ex (fexp prec emax (Zdigits2 mx + ex))) in *.
  set (m1 := mx / 2 ^ (e1 - ex)) in *.
  cbn [shr_m].
  destruct (round_nearest_even_bounds m1 r1 s1) as [Hround Hround_exact].
  set (mr := round_nearest_even m1 _) in *.
  assert (Hdig : Zdigits2 mx + ex - 53 ≤ q) by (apply (V_digits mx ex b q); lia).
  assert (He1 : ex ≤ e1 ∧ (e1 = ex ∨ e1 ≤ q)).
  { unfold e1. rewrite fexp_eq. lia. }
  assert (Hm1 : 0 ≤ m1) by (apply Z.div_pos; [lia|apply Z.pow_pos_nonneg; lia]).
  assert (Hmr : V mr e1 ≤ V b q).
  { destruct (Z.eq_dec (mx mod 2 ^ (e1 - ex)) 0) as [Hmod|Hmod].
    - rewrite (Hround_exact (Hexact1 Hmod)). unfold m1.
      replace e1 with (ex + (e1 - ex)) at 2 by lia.
      rewrite V_exact by lia. done.
    - etransitivity; [apply (V_mono _ (m1 + 1)); lia|].
      destruct He1 as [? [Heq|?]].
      + rewrite Heq, Z.sub_diag, Z.pow_0_r, Z.mod_1_r in Hmod. done.
      + apply V_round_up; lia. }
  destruct (shr_fexp_spec mr e1) as (r2 & s2 & -> & _); [lia|].
  set (e2 := Z.max e1 (fexp prec emax (Zdigits2 mr + e1))) in *.
  cbn [shr_m].
  assert (He2 : e1 ≤ e2 ≤ 971 ∧ -1074 ≤ e2).
  { unfold e2. rewrite fexp_eq.
    destruct (Z.eq_dec mr 0) as [->|Hne]; [simpl; lia|].
    pose proof (V_digits mr e1 b q). lia. }
  assert (Hm2 : V (mr / 2 ^ (e2 - e1)) e2 ≤ V b q).
  { etransitivity; [|exact Hmr].
    replace e2 with (e1 + (e2 - e1)) at 2 by lia. apply V_div; lia. }
  assert (0 ≤ mr / 2 ^ (e2 - e1)).
  { apply Z.div_pos; [lia|apply Z.pow_pos_nonneg; lia]. }
  destruct (mr / 2 ^ (e2 - e1)) as [|m2|m2] eqn:Hm2eq; [by left| |lia].
  right. exists m2, e2.
  destruct (Z.leb_spec e2 (emax - prec)) as [_|Hbig].
  - split; [done|]. split; [lia|done].
  - change (emax - prec) with 971 in Hbig. lia.
Qed.

Lemma V_add (a b e : Z) : V (a + b) e = V a e + V b e.
Proof. unfold V. ring. Qed.

Lemma V_opp (a e : Z) : V (- a) e = - V a e.
Proof. unfold V. ring. Qed.

Lemma V_scale (c m e : Z) : V (c * m) e = c * V m e.
Proof. unfold V. ring. Qed.

Lemma V_exp_mono (m e e' : Z) : 0 ≤ m → -2200 ≤ e → e ≤ e' → V m e ≤ V m e'.
Proof.
  intros Hm He Hee. unfold V. apply Z.mul_le_mono_nonneg_l; [done|].
  apply Z.pow_le_mono_r; lia.
Qed.

Lemma pos_iter_xO (m d : positive) : Z.pos (Pos.iter xO m d) = Z.pos m * 2 ^ Z.pos d.
Proof.
  induction d as [|d IH] using Pos.peano_ind.
  - simpl. lia.
  - rewrite Pos.iter_succ, Pos2Z.inj_xO, IH, Pos2Z.inj_succ, Z.pow_succ_r by lia.
    ring.
Qed.

Lemma shl_align_spec (mx : positive) (ex ex' : Z) :
  snd (shl_align mx ex ex') = Z.min ex ex'
  ∧ Z.pos (fst (shl_align mx ex ex')) = Z.pos mx * 2 ^ (ex - Z.min ex ex').
Proof.
  unfold shl_align. destruct (ex' - ex) as [|d|d] eqn:Hd; simpl.
  - replace (Z.min ex ex') with ex by lia.
    rewrite Z.sub_diag, Z.pow_0_r. lia.
  - replace (Z.min ex ex') with ex by lia.
    rewrite Z.sub_diag, Z.pow_0_r. lia.
  - replace (Z.min ex ex') with ex' by lia.
    rewrite pos_iter_xO. split; [done|]. do 2 f_equal. lia.
Qed.

Lemma shl_align_V (mx : positive) (ex ex' : Z) :
  -2200 ≤ Z.min ex ex' →
  V (Z.pos (fst (shl_align mx ex ex'))) (Z.min ex ex') = V (Z.pos mx) ex.
Proof.
  intros H. destruct (shl_align_spec mx ex ex') as [_ ->].
  rewrite V_shift by lia. f_equal. lia.
Qed.

Lemma binary_round_le (sx : bool) (mx : positive) (ex b q : Z) :
  -1074 ≤ ex ≤ 971 → 0 < b < 2 ^ 53 → -1074 ≤ q ≤ 970 →
  V (Z.pos mx) ex ≤ V b q →
  mag_le (binary_round prec emax sx mx ex) b q
  ∧ (sx = false → nonneg (binary_round prec emax sx mx ex)).
Proof.
  intros Hex Hb Hq Hle. unfold binary_round.
  pose proof (shl_align_spec mx ex (fexp prec emax (Z.pos (digits2_pos mx) + ex))) as [He Hm].
  pose proof (shl_align_V mx ex (fexp prec emax (Z.pos (digits2_pos mx) + ex))) as HV.
  destruct (shl_align _ _ _) as [mz ez]. simpl in He, Hm, HV. subst ez.
  rewrite fexp_eq in *.
  rewrite <- HV in Hle by lia.
  destruct (binary_round_aux_le sx (Z.pos mz)
              (Z.min ex (Z.max (Z.pos (digits2_pos mx) + ex - 53) (-1074))) b q)
    as [->|(m & e & -> & He & Hme)]; try lia; simpl; auto.
Qed.

Lemma binary_normalize_le (M e b q : Z) :
  -1074 ≤ e ≤ 971 → 0 < b < 2 ^ 53 → -1074 ≤ q ≤ 970 →
  V (Z.abs M) e ≤ V b q →
  mag_le (binary_normalize prec emax M e false) b q
  ∧ (0 ≤ M → nonneg (binary_normalize prec emax M e false)).
Proof.
  intros He Hb Hq Hle. destruct M as [|M|M]; simpl binary_normalize.
  - done.
  - destruct (binary_round_le false M e b q) as [H1 H2]; auto.
  - destruct (binary_round_le true M e b q) as [H1 H2]; auto.
    split; [done|]. lia.
Qed.

Lemma valid_finite (s : bool) (m : positive) (e : Z) :
  SpecFloat.valid_binary prec emax (S754_finite s m e) = true →
  -1074 ≤ e ≤ 971 ∧ Z.pos m < 2 ^ 53.
Proof.
  unfold SpecFloat.valid_binary, bounded, canonical_mantissa. rewrite fexp_eq.
  intros H. apply andb_prop in H as [H1 H2].
  apply Z.eqb_eq in H1. apply Z.leb_le in H2. change (emax - prec) with 971 in H2.
  split; [lia|].
  pose proof (digits2_pos_bounds m) as [_ Hhi].
  eapply Z.lt_le_trans; [exact Hhi|]. apply Z.pow_le_mono_r; lia.
Qed.

Lemma V_one : V 4503599627370496 (-52) = V 1 0.
Proof. change 4503599627370496 with (1 * 2 ^ 52). by rewrite V_shift. Qed.

Lemma V_192 : V 6755399441055744 (-45) = V 3 6.
Proof. change 6755399441055744 with (3 * 2 ^ 51). by rewrite V_shift. Qed.

(** A valid float between -1 and 1 has a magnitude of at most 1. *)
Lemma unit_mag (x : spec_float) :
  SpecFloat.valid_binary prec emax x = true → x ≠ S754_nan →
  SFltb SF_one x = false → SFltb x SF_mone = false →
  mag_le x 1 0.
Proof.
  intros Hvalid Hnan H1 H2. destruct x as [s|s| |s m e]; cbn [mag_le].
  - done.
  - destruct s; [cbv in H2|cbv in H1]; done.
  - done.
  - destruct (valid_finite _ _ _ Hvalid) as [He Hm]. split; [lia|].
    assert (Hcmp : e < -52 ∨ (e = -52 ∧ Z.pos m ≤ 4503599627370496)).
    { unfold SFltb, SF_one, SF_mone in *. cbn [SFcompare] in H1, H2.
      rewrite Pos.compare_cont_spec, Pos2Z.inj_compare in H1, H2.
      destruct s.
      - destruct (Z.compare_spec e (-52)) as [Heq|Hlt|Hgt]; [| |discriminate H2].
        + right. split; [exact Heq|].
          destruct (Z.compare_spec (Z.pos m) 4503599627370496) as [Hm1|Hm1|Hm1];
            [lia|lia|discriminate H2].
        + left. exact Hlt.
      - destruct (Z.compare_spec (-52) e) as [Heq|Hlt|Hgt]; [|discriminate H1|].
        + right. split; [lia|].
          destruct (Z.compare_spec 4503599627370496 (Z.pos m)) as [Hm1|Hm1|Hm1];
            [lia|discriminate H1|lia].
        + left. lia. }
    destruct Hcmp as [Hlt|[-> Hle]].
    + transitivity (V (1 * 2 ^ 53) e); [apply V_mono; lia|].
      rewrite V_shift by lia. apply V_exp_mono; lia.
    + rewrite <- V_one. by apply V_mono.
Qed.

(** [x - (-1)] for [x] of magnitude at most 1 lies between 0 and 2. *)
Lemma SFsub_mone (x : spec_float) :
  mag_le x 1 0 →
  mag_le (SFsub prec emax x SF_mone) 1 1 ∧ nonneg (SFsub prec emax x SF_mone).
Proof.
  intros Hx. destruct x as [s|s| |s m e]; cbn [mag_le] in Hx; [|done|done|].
  - unfold SF_mone. cbn [SFsub mag_le nonneg negb]. split; [|reflexivity].
    split; [lia|]. rewrite V_one. apply V_exp_mono; lia.
  - destruct Hx as [He Hm].
    unfold SFsub, SF_mone.
    set (ez := Z.min e (-52)).
    pose proof (shl_align_V m e ez) as Hvx.
    pose proof (shl_align_V 4503599627370496 (-52) ez) as Hv1.
    replace (Z.min e ez) with ez in Hvx by lia.
    replace (Z.min (-52) ez) with ez in Hv1 by lia.
    set (mx := Z.pos (fst (shl_align m e ez))) in *.
    set (m1 := Z.pos (fst (shl_align 4503599627370496 (-52) ez))) in *.
    rewrite V_one in Hv1.
    assert (Hmx : V mx ez ≤ V 1 0) by (rewrite Hvx by lia; done).
    assert (H1 : V m1 ez = V 1 0) by (apply Hv1; lia).
    assert (Hpos : 0 < V mx ez).
    { unfold V, mx. apply Z.mul_pos_pos; [lia|]. apply Z.pow_pos_nonneg; lia. }
    assert (H2 : V 1 1 = 2 * V 1 0) by (unfold V; simpl; lia).
    set (M := cond_Zopp s mx - cond_Zopp true m1).
    assert (HM : V M ez = V (cond_Zopp s mx) ez + V 1 0).
    { unfold M. simpl cond_Zopp. rewrite Z.sub_opp_r, V_add, H1. done. }
    assert (Ht : 0 < 2 ^ (ez + 2200)) by (apply Z.pow_pos_nonneg; lia).
    assert (HMnonneg : 0 ≤ M).
    { assert (0 ≤ V M ez); [|unfold V in *; nia].
      rewrite HM. destruct s; simpl cond_Zopp; rewrite ?V_opp; lia. }
    destruct (binary_normalize_le M ez 1 1) as [Hmag Hsign]; try lia.
    { rewrite Z.abs_eq by done. rewrite HM, H2.
      destruct s; simpl cond_Zopp; rewrite ?V_opp; lia. }
    split; [done|]. by apply Hsign.
Qed.

(** [192 * x] for [x] between 0 and 2 lies between 0 and 384. *)
Lemma SFmul_192 (x : spec_float) :
  mag_le x 1 1 → nonneg x →
  mag_le (SFmul prec emax SF_192 x) 3 7 ∧ nonneg (SFmul prec emax SF_192 x).
Proof.
  intros Hx Hs.
  destruct x as [s|s| |s m e]; cbn [mag_le nonneg] in Hx, Hs; [|done|done|].
  { unfold SF_192. cbn [SFmul mag_le nonneg]. done. }
  destruct Hx as [He Hm]. subst s.
  unfold SFmul, SF_192. cbn [xorb].
  assert (HV : V (Z.pos (6755399441055744 * m)) (-45 + e) ≤ V 3 7).
  { rewrite Pos2Z.inj_mul.
    change (Z.pos 6755399441055744) with (192 * 2 ^ 45).
    replace (192 * 2 ^ 45 * Z.pos m) with (192 * Z.pos m * 2 ^ 45) by ring.
    rewrite V_shift by lia. replace (-45 + e + 45) with e by lia.
    rewrite V_scale.
    replace (V 3 7) with (192 * V 1 1) by (unfold V; simpl; lia). lia. }
  destruct (binary_round_aux_le false (Z.pos (6755399441055744 * m)) (-45 + e) 3 7)
    as [->|(m' & e' & -> & He'' & Hm')]; try lia; simpl; auto.
Qed.

(** [x + (-192)] for [x] between 0 and 384 has a magnitude of at most
    192. *)
Lemma SFadd_m192 (x : spec_float) :
  mag_le x 3 7 → nonneg x →
  mag_le (SFadd prec emax x SF_m192) 3 6.
Proof.
  intros Hx Hs.
  destruct x as [s|s| |s m e]; cbn [mag_le nonneg] in Hx, Hs; [|done|done|].
  - unfold SF_m192. cbn [SFadd mag_le]. split; [lia|]. by rewrite V_192.
  - destruct Hx as [He Hm]. subst s.
    unfold SFadd, SF_m192.
    set (ez := Z.min e (-45)).
    pose proof (shl_align_V m e ez) as Hvx.
    pose proof (shl_align_V 6755399441055744 (-45) ez) as Hv1.
    replace (Z.min e ez) with ez in Hvx by lia.
    replace (Z.min (-45) ez) with ez in Hv1 by lia.
    set (mx := Z.pos (fst (shl_align m e ez))) in *.
    set (m1 := Z.pos (fst (shl_align 6755399441055744 (-45) ez))) in *.
    rewrite V_192 in Hv1.
    assert (Hmx : V mx ez ≤ V 3 7) by (rewrite Hvx by lia; done).
    assert (H1 : V m1 ez = V 3 6) by (apply Hv1; lia).
    assert (Hpos : 0 < V mx ez).
    { unfold V, mx. apply Z.mul_pos_pos; [lia|]. apply Z.pow_pos_nonneg; lia. }
    assert (H2 : V 3 7 = 2 * V 3 6) by (unfold V; simpl; lia).
    cbn [cond_Zopp].
    assert (HM : V (mx + - m1) ez = V mx ez - V 3 6).
    { rewrite V_add, V_opp, H1. lia. }
    assert (Habs : V (Z.abs (mx + - m1)) ez ≤ V 3 6).
    { destruct (Z.abs_spec (mx + - m1)) as [[_ ->]|[_ ->]].
      - rewrite HM. lia.
      - rewrite V_opp, HM. lia. }
    destruct (binary_normalize_le (mx + - m1) ez 3 6) as [Hmag _];
      [lia|lia|lia|exact Habs|exact Hmag].
Qed.

Lemma SFeqb_refl (x : spec_float) : x ≠ S754_nan → SFeqb x x = true.
Proof.
  intros Hx. unfold SFeqb. destruct x as [s|s| |s m e]; [done|by destruct s|done|].
  cbn [SFcompare]. rewrite Z.compare_refl, Pos.compare_cont_spec, Pos.compare_refl.
  by destruct s.
Qed.

Lemma mag_le_not_nan (x : float) (b q : Z) :
  mag_le (Prim2SF x) b q → is_nan x = false.
Proof.
  intros H. unfold is_nan. rewrite FloatAxioms.eqb_spec, SFeqb_refl; [done|].
  intros Hx. by rewrite Hx in H.
Qed.

Lemma not_nan_Prim2SF (x : float) : is_nan x = false → Prim2SF x ≠ S754_nan.
Proof.
  unfold is_nan. rewrite FloatAxioms.eqb_spec. intros H Hx.
  rewrite Hx in H. discriminate H.
Qed.

(** The integer part of a float of magnitude at most 192. *)
Lemma astype_int_192 (x : float) :
  mag_le (Prim2SF x) 3 6 → -192 ≤ Num.astype_int x ≤ 192.
Proof.
  unfold Num.astype_int, Num.trunc.
  destruct (Prim2SF x) as [s|s| |s m e]; cbn [mag_le]; [intros _|done|done|].
  { cbv. split; discriminate. }
  intros [He Hm].
  assert (Hz : 0 ≤ Z.shiftl (Z.pos m) e ≤ 192).
  { assert (H192 : V 3 6 = V 192 0) by (change 192 with (3 * 2 ^ 6); by rewrite V_shift).
    rewrite H192 in Hm. destruct (Z.le_gt_cases 0 e) as [Hpos|Hneg].
    - rewrite Z.shiftl_mul_pow2 by done. split.
      + apply Z.mul_nonneg_nonneg; [lia|]. apply Z.pow_nonneg. lia.
      + replace e with (0 + e) in Hm at 1 by lia.
        rewrite <- V_shift in Hm by lia. unfold V in Hm.
        apply Z.mul_le_mono_pos_r in Hm; [done|]. by apply Z.pow_pos_nonneg.
    - rewrite Z.shiftl_div_pow2 by lia.
      assert (Hp : 0 < 2 ^ (- e)) by (apply Z.pow_pos_nonneg; lia).
      split; [apply Z.div_pos; lia|].
      apply Z.div_le_upper_bound; [done|].
      replace (V 192 0) with (V (192 * 2 ^ (- e)) e) in Hm.
      + unfold V in Hm. apply Z.mul_le_mono_pos_r in Hm; [lia|].
        apply Z.pow_pos_nonneg; lia.
      + rewrite V_shift by lia. f_equal. lia. }
  set (z := cond_Zopp s (Z.shiftl (Z.pos m) e)).
  assert (Hzz : -192 ≤ z ≤ 192) by (unfold z; destruct s; cbn [cond_Zopp]; lia).
  assert (Hin : ((- 2 ^ 63 <=? z) && (z <? 2 ^ 63)) = true).
  { apply andb_true_intro. split; [apply Z.leb_le|apply Z.ltb_lt]; lia. }
  by rewrite Hin.
Qed.

(** The line of [np.interp] from [(-1, -192)] to [(1, 192)], at a signal
    between -1 and 1. *)
Lemma remap_line (v : float) :
  is_nan v = false → (1 <? v)%float = false → (v <? -1)%float = false →
  mag_le (Prim2SF (192 * (v - -1) + -192)%float) 3 6.
Proof.
  intros Hnan H1 H2.
  rewrite add_spec, mul_spec, sub_spec.
  rewrite ltb_spec in H1, H2.
  set (c1 := Prim2SF 1) in *. vm_compute in c1. change c1 with SF_one in *. clear c1.
  set (c2 := Prim2SF (-1)) in *. vm_compute in c2. change c2 with SF_mone in *. clear c2.
  set (c3 := Prim2SF 192). vm_compute in c3. change c3 with SF_192. clear c3.
  set (c4 := Prim2SF (-192)). vm_compute in c4. change c4 with SF_m192. clear c4.
  pose proof (unit_mag (Prim2SF v) (Prim2SF_valid v) (not_nan_Prim2SF v Hnan) H1 H2) as Hv.
  destruct (SFsub_mone _ Hv) as [Hs Hs'].
  destruct (SFmul_192 _ Hs Hs') as [Hp Hp'].
  exact (SFadd_m192 _ Hp Hp').
Qed.

(** The offset that [apply_height_map] adds lies in [[-192, 192]] for
    every signal that is not NaN. *)
Lemma remap_offset_range (v : float) :
  is_nan v = false → -192 ≤ Num.astype_int (ShadingSpec.remap v) ≤ 192.
Proof.
  intros Hnan. unfold ShadingSpec.remap, Num.interp. rewrite Hnan.
  destruct (1 <? v)%float eqn:H1; [by vm_compute|].
  destruct (v <? -1)%float eqn:H2; [by vm_compute|].
  destruct (1 <=? v)%float eqn:H3; [by vm_compute|].
  destruct (-1 =? v)%float eqn:H4; [by vm_compute|].
  set (slope := ((192 - -192) / (1 - -1))%float). vm_compute in slope. subst slope.
  pose proof (remap_line v Hnan H1 H2) as Hr.
  rewrite (mag_le_not_nan _ _ _ Hr). by apply astype_int_192.
Qed.

End RoundingFacts.

(** ** Further properties of the shading stage *)

Section CompositeRange.
Import Shading ShadingSpec.

Lemma remap_nan (v : float) : is_nan (remap v) = false → is_nan v = false.
Proof.
  unfold remap, Num.interp. destruct (is_nan v) eqn:Hv; [|done].
  by rewrite Hv.
Qed.

(** One pixel of the result of [apply_height_map]. *)
Lemma apply_height_map_pixel (im_map : list (list color))
    (smooth_map height_map : list (list float)) (land_mask : list (list bool))
    (out_map : list (list color)) (normal_map : list (list float)) i j out :
  apply_height_map im_map smooth_map height_map land_mask
    = Some (out_map, normal_map) →
  get2 out_map i j = Some out →
  ∃ px v,
    get2 im_map i j = Some px
    ∧ get2 normal_map i j = Some (remap v)
    ∧ out = (add64 px.1.1 (Num.astype_int (remap v)),
             add64 px.1.2 (Num.astype_int (remap v)),
             add64 px.2 (Num.astype_int (remap v))).
Proof.
  unfold apply_height_map. intros Hrun Hout.
  destruct (get_normal_light height_map) as [lights|]; [|done].
  cbn [mbind option_bind] in Hrun.
  destruct (Scatter.zip_grid _ lights land_mask) as [lit|]; [|done].
  cbn [mbind option_bind] in Hrun.
  destruct (Scatter.zip_grid _ smooth_map land_mask) as [flat|]; [|done].
  cbn [mbind option_bind] in Hrun.
  destruct (Scatter.zip_grid _ lit flat) as [sig|]; [|done].
  cbn [mbind option_bind] in Hrun.
  destruct (Scatter.zip_grid _ im_map _) as [out_map'|] eqn:Hadd; [|done].
  cbn [mbind option_bind] in Hrun. simplify_eq.
  destruct (zip_grid_get2 _ _ _ _ _ _ _ Hadd Hout) as (px & r & Hpx & Hr & ->).
  rewrite get2_fmap in Hr.
  destruct (get2 sig i j) as [v|] eqn:Hv; [|done]. simpl in Hr. simplify_eq.
  exists px, v. split; [done|]. split; [|done].
  rewrite get2_fmap, Hv. done.
Qed.

End CompositeRange.

(** X1: in the result of [apply_height_map], at every pixel whose
    returned shading value is not NaN, the integer offset added to the
    base colour lies in [[-192, 192]]; for a base colour in [[0, 255]]
    each output channel is the base channel plus that offset, hence in
    [[-192, 447]]. *)
Theorem apply_height_map_offset_range
    (im_map : list (list Shading.color)) (smooth_map height_map : list (list float))
    (land_mask : list (list bool))
    (out_map : list (list Shading.color)) (normal_map : list (list float)) :
  Shading.apply_height_map im_map smooth_map height_map land_mask
    = Some (out_map, normal_map) →
  (∀ i j px, get2 im_map i j = Some px → ShadingSpec.in_channel_range px) →
  ∀ i j out s,
    get2 out_map i j = Some out → get2 normal_map i j = Some s →
    is_nan s = false →
    ∃ px,
      get2 im_map i j = Some px
      ∧ (-192 ≤ Num.astype_int s ≤ 192)%Z
      ∧ out = (px.1.1 + Num.astype_int s, px.1.2 + Num.astype_int s,
               px.2 + Num.astype_int s)%Z
      ∧ (-192 ≤ out.1.1 ≤ 447 ∧ -192 ≤ out.1.2 ≤ 447 ∧ -192 ≤ out.2 ≤ 447)%Z.
Proof.
  intros Hrun Hbase i j out s Hout Hs Hnan.
  destruct (apply_height_map_pixel _ _ _ _ _ _ _ _ _ Hrun Hout)
    as (px & v & Hpx & Hv & ->).
  rewrite Hs in Hv. injection Hv as ->.
  pose proof (remap_offset_range v (remap_nan v Hnan)) as Hoff.
  pose proof (Hbase i j px Hpx) as (H1 & H2 & H3).
  exists px. split; [done|]. split; [done|].
  rewrite !add64_exact by lia. split; [done|]. simpl. lia.
Qed.

Lemma apply_height_map_offset_range_witness :
  Shading.apply_height_map
    (replicate 3 (replicate 3 (255, 0, 7)%Z))
    (replicate 3 (replicate 3 1%float)) Shading.ramp
    (replicate 3 (replicate 3 true))
    = Some ([[(365, 110, 117); (372, 117, 124); (365, 110, 117)];
             [(372, 117, 124); (383, 128, 135); (372, 117, 124)];
             [(365, 110, 117); (372, 117, 124); (365, 110, 117)]]%Z,
            [[110.85124969482422; 117.57550048828125; 110.85124969482422];
             [117.57550048828125; 128.00001525878906; 117.57550048828125];
             [110.85124969482422; 117.57550048828125; 110.85124969482422]]%float)
  ∧ ∀ i j out s,
      get2 [[(365, 110, 117); (372, 117, 124); (365, 110, 117)];
            [(372, 117, 124); (383, 128, 135); (372, 117, 124)];
            [(365, 110, 117); (372, 117, 124); (365, 110, 117)]]%Z i j = Some out →
      get2 [[110.85124969482422; 117.57550048828125; 110.85124969482422];
            [117.57550048828125; 128.00001525878906; 117.57550048828125];
            [110.85124969482422; 117.57550048828125; 110.85124969482422]]%float i j = Some s →
      is_nan s = false →
      ∃ px,
        get2 (replicate 3 (replicate 3 (255, 0, 7)%Z)) i j = Some px
        ∧ (-192 ≤ Num.astype_int s ≤ 192)%Z
        ∧ out = (px.1.1 + Num.astype_int s, px.1.2 + Num.astype_int s,
                 px.2 + Num.astype_int s)%Z
        ∧ (-192 ≤ out.1.1 ≤ 447 ∧ -192 ≤ out.1.2 ≤ 447 ∧ -192 ≤ out.2 ≤ 447)%Z.
Proof.
  split; [vm_compute; reflexivity|].
  apply (apply_height_map_offset_range
           (replicate 3 (replicate 3 (255, 0, 7)%Z))
           (replicate 3 (replicate 3 1%float)) Shading.ramp
           (replicate 3 (replicate 3 true))).
  - vm_compute. reflexivity.
  - intros i j px Hpx. apply get2_replicate_inv in Hpx as ->.
    unfold ShadingSpec.in_channel_range. simpl. lia.
Defined.

(** ** BoundaryDetector: what [get_boundary] reads and when it raises *)
Section BoundaryFacts.
Import Boundary.
Implicit Types vor_map : list (list nat).

Lemma elem_of_slice {A} (lo hi : Z) (l : list A) (x : A) :
  x ∈ slice lo hi l ↔ ∃ k, Z.to_nat lo ≤ k < Z.to_nat hi ∧ l !! k = Some x.
Proof.
  unfold slice. rewrite elem_of_take. split.
  - intros (t & Ht & Hlt). rewrite lookup_drop in Ht.
    exists (Z.to_nat lo + t). split; [lia|done].
  - intros (k & Hk & Hx). exists (k - Z.to_nat lo). split; [|lia].
    rewrite lookup_drop. by replace (Z.to_nat lo + (k - Z.to_nat lo)) with k by lia.
Qed.

(** The window [vor_map[r0:r1, c0:c1]] holds the pixels of the rows
    [r0 ≤ r < r1] and the columns [c0 ≤ c < c1] that exist. *)
Lemma elem_of_window vor_map (r0 r1 c0 c1 : Z) (x : nat) :
  x ∈ window vor_map r0 r1 c0 c1
  ↔ ∃ r c, Z.to_nat r0 ≤ r < Z.to_nat r1 ∧ Z.to_nat c0 ≤ c < Z.to_nat c1
           ∧ get2 vor_map r c = Some x.
Proof.
  unfold window. rewrite list_elem_of_In, in_concat. split.
  - intros (cells & Hcells & Hx).
    apply list_elem_of_In, list_elem_of_fmap in Hcells as (row & -> & Hrow).
    apply elem_of_slice in Hrow as (r & Hr & Hrow).
    apply list_elem_of_In, elem_of_slice in Hx as (c & Hc & Hx).
    exists r, c. unfold get2. rewrite Hrow. auto.
  - intros (r & c & Hr & Hc & Hx). unfold get2 in Hx.
    destruct (vor_map !! r) as [row|] eqn:Hrow; [|done]. simpl in Hx.
    exists (slice c0 c1 row). split; apply list_elem_of_In.
    + apply list_elem_of_fmap. exists row. split; [done|].
      apply elem_of_slice. eauto.
    + apply elem_of_slice. eauto.
Qed.

(** [check_for_mult] answers 1 only on an array with two different
    elements. *)
Lemma check_for_mult_true (a : list nat) :
  check_for_mult a = Some true → ∃ x y, x ∈ a ∧ y ∈ a ∧ x ≠ y.
Proof.
  destruct a as [|b a]; [done|]. intros [= H].
  apply existsb_exists in H as (x & Hx & Hne).
  apply list_elem_of_In, elem_of_take in Hx as (k & Hx & _).
  exists x, b. split; [by eapply list_elem_of_lookup_2|].
  split; [apply elem_of_cons; auto|].
  apply negb_true_iff, Nat.eqb_neq in Hne. done.
Qed.

Lemma check_for_mult_is_Some (a : list nat) x : x ∈ a → is_Some (check_for_mult a).
Proof. destruct a; [by intros ?%elem_of_nil|]. simpl. eauto. Qed.

(** What [get_boundary] stores at pixel [(i, j)]. *)
Lemma get_boundary_pixel vor_map kernel size boundary_map i j (b : bool) :
  get_boundary vor_map kernel size = Some boundary_map →
  get2 boundary_map i j = Some b →
  i < length vor_map ∧ j < ncols vor_map
  ∧ check_for_mult
      (window vor_map
         (clip size (Z.of_nat i - kernel)) (clip size (Z.of_nat i + kernel + 1))
         (clip size (Z.of_nat j - kernel)) (clip size (Z.of_nat j + kernel + 1)))
    = Some b.
Proof.
  unfold get_boundary, get2. intros Hrun Hb.
  destruct (boundary_map !! i) as [row|] eqn:Hrow; [|done]. simpl in Hb.
  assert (Hi : i < length vor_map).
  { apply length_mapM in Hrun. rewrite length_seq in Hrun. rewrite Hrun.
    by eapply lookup_lt_Some. }
  destruct (mapM_seq_lookup _ _ _ i Hrun Hi) as [Hrow' _].
  rewrite Hrow in Hrow'. symmetry in Hrow'.
  assert (Hj : j < ncols vor_map).
  { apply length_mapM in Hrow'. rewrite length_seq in Hrow'. rewrite Hrow'.
    by eapply lookup_lt_Some. }
  destruct (mapM_seq_lookup _ _ _ j Hrow' Hj) as [Hpx _].
  rewrite Hb in Hpx. auto.
Qed.

Lemma lookup_slice {A} (lo hi : Z) (l : list A) (t : nat) :
  slice lo hi l !! t
  = if decide (t < Z.to_nat hi - Z.to_nat lo) then l !! (Z.to_nat lo + t) else None.
Proof.
  unfold slice. destruct (decide _).
  - rewrite lookup_take_lt by done. apply lookup_drop.
  - apply lookup_take_ge. lia.
Qed.

Lemma slice_ext {A} (lo hi : Z) (l l' : list A) :
  (∀ k, k < Z.to_nat hi → l !! k = l' !! k) → slice lo hi l = slice lo hi l'.
Proof.
  intros H. apply list_eq. intros t. rewrite !lookup_slice.
  destruct (decide _); [apply H; lia|done].
Qed.

(** A window depends on the pixels above row [r1] and left of column
    [c1] only. *)
Lemma window_ext vor_map vor_map' (r0 r1 c0 c1 : Z) :
  length vor_map = length vor_map' →
  (∀ r c, r < Z.to_nat r1 → c < Z.to_nat c1 → get2 vor_map r c = get2 vor_map' r c) →
  window vor_map r0 r1 c0 c1 = window vor_map' r0 r1 c0 c1.
Proof.
  intros Hlen H. unfold window. f_equal. apply list_eq. intros t.
  rewrite !list_lookup_fmap, !lookup_slice. destruct (decide _); [|done].
  destruct (vor_map !! (Z.to_nat r0 + t)) as [row|] eqn:Hrow,
           (vor_map' !! (Z.to_nat r0 + t)) as [row'|] eqn:Hrow'; simpl.
  - f_equal. apply slice_ext. intros c Hc.
    specialize (H (Z.to_nat r0 + t) c). unfold get2 in H.
    rewrite Hrow, Hrow' in H. apply H; lia.
  - apply lookup_lt_Some in Hrow. apply lookup_ge_None in Hrow'. lia.
  - apply lookup_lt_Some in Hrow'. apply lookup_ge_None in Hrow. lia.
  - done.
Qed.

Lemma mapM_ext_in {A B} (f g : A → option B) (l : list A) :
  (∀ x, x ∈ l → f x = g x) → mapM f l = mapM g l.
Proof.
  induction l as [|x l IH]; intros H; [done|].
  simpl. rewrite (H x) by (apply elem_of_cons; auto).
  rewrite IH; [done|]. intros y Hy. apply H, elem_of_cons. auto.
Qed.

End BoundaryFacts.

(** X2: a pixel that [get_boundary] flags has two pixels with different
    cell ids around it, both at most [kernel] rows and [kernel] columns
    away (for a radius [kernel ≥ 0] and a grid that fits in
    [size × size]). *)
Theorem get_boundary_flag_sound (vor_map : list (list nat)) (kernel size : Z)
    (boundary_map : list (list bool)) (i j : nat) :
  (0 ≤ kernel)%Z →
  (Z.of_nat (length vor_map) ≤ size)%Z → (Z.of_nat (ncols vor_map) ≤ size)%Z →
  Boundary.get_boundary vor_map kernel size = Some boundary_map →
  get2 boundary_map i j = Some true →
  ∃ r c r' c' x y,
    get2 vor_map r c = Some x ∧ get2 vor_map r' c' = Some y ∧ x ≠ y
    ∧ (Z.of_nat i - kernel ≤ Z.of_nat r ≤ Z.of_nat i + kernel)%Z
    ∧ (Z.of_nat j - kernel ≤ Z.of_nat c ≤ Z.of_nat j + kernel)%Z
    ∧ (Z.of_nat i - kernel ≤ Z.of_nat r' ≤ Z.of_nat i + kernel)%Z
    ∧ (Z.of_nat j - kernel ≤ Z.of_nat c' ≤ Z.of_nat j + kernel)%Z.
Proof.
  intros Hk Hn Hm Hrun Hb.
  destruct (get_boundary_pixel _ _ _ _ _ _ _ Hrun Hb) as (Hi & Hj & Hpx).
  apply check_for_mult_true in Hpx as (x & y & Hx & Hy & Hne).
  apply elem_of_window in Hx as (r & c & Hr & Hc & Hx).
  apply elem_of_window in Hy as (r' & c' & Hr' & Hc' & Hy).
  exists r, c, r', c', x, y. unfold Boundary.clip in *.
  repeat (split; [done || lia|]). lia.
Qed.

Lemma get_boundary_flag_sound_witness :
  Boundary.get_boundary [[0; 1; 1]; [0; 0; 0]; [0; 0; 0]] 1 3
    = Some [[true; true; false]; [true; true; false]; [false; false; false]]
  ∧ ∃ r c r' c' x y,
      get2 [[0; 1; 1]; [0; 0; 0]; [0; 0; 0]] r c = Some x
      ∧ get2 [[0; 1; 1]; [0; 0; 0]; [0; 0; 0]] r' c' = Some y ∧ x ≠ y
      ∧ (Z.of_nat 1 - 1 ≤ Z.of_nat r ≤ Z.of_nat 1 + 1)%Z
      ∧ (Z.of_nat 0 - 1 ≤ Z.of_nat c ≤ Z.of_nat 0 + 1)%Z
      ∧ (Z.of_nat 1 - 1 ≤ Z.of_nat r' ≤ Z.of_nat 1 + 1)%Z
      ∧ (Z.of_nat 0 - 1 ≤ Z.of_nat c' ≤ Z.of_nat 0 + 1)%Z.
Proof.
  split; [reflexivity|].
  apply (get_boundary_flag_sound [[0; 1; 1]; [0; 0; 0]; [0; 0; 0]] 1 3
           [[true; true; false]; [true; true; false]; [false; false; false]] 1 0);
    [lia | simpl; lia | simpl; lia | reflexivity | reflexivity].
Defined.

(** X3: for a radius [kernel ≥ 1] and an [n × m] grid that fits in
    [size × size] with [size ≥ 2], [get_boundary] returns a map of the
    shape of the grid: every window has at least one pixel, so
    [check_for_mult] never reads [a[0]] of an empty array. *)
Theorem get_boundary_total (vor_map : list (list nat)) (n m : nat) (kernel size : Z) :
  shape vor_map n m → (1 ≤ kernel)%Z → (2 ≤ size)%Z →
  (Z.of_nat n ≤ size)%Z → (Z.of_nat m ≤ size)%Z →
  ∃ boundary_map,
    Boundary.get_boundary vor_map kernel size = Some boundary_map
    ∧ shape boundary_map n m.
Proof.
  intros Hs Hk Hsize Hn Hm. unfold Boundary.get_boundary.
  destruct (decide (n = 0)) as [->|Hn0].
  { destruct Hs as [Hlen _]. rewrite Hlen. simpl. exists []. split; [done|].
    split; [done|constructor]. }
  rewrite (ncols_shape vor_map n m) by (done || lia).
  pose proof Hs as [-> _].
  edestruct (mapM2_seq (λ i j : nat, Boundary.check_for_mult
               (Boundary.window vor_map
                  (Boundary.clip size (Z.of_nat i - kernel))
                  (Boundary.clip size (Z.of_nat i + kernel + 1))
                  (Boundary.clip size (Z.of_nat j - kernel))
                  (Boundary.clip size (Z.of_nat j + kernel + 1)))) n m)
    as (g & Hg & Hshape & _); [|eauto].
  intros i j Hi Hj.
  destruct (get2_shape vor_map n m
              (Z.to_nat (Boundary.clip size (Z.of_nat i - kernel)))
              (Z.to_nat (Boundary.clip size (Z.of_nat j - kernel))) Hs)
    as [x Hx]; [unfold Boundary.clip; lia..|].
  apply (check_for_mult_is_Some _ x), elem_of_window.
  eexists _, _. split; [|split; [|exact Hx]]; unfold Boundary.clip; lia.
Qed.

Lemma get_boundary_total_witness :
  shape [[0; 1; 1]; [0; 0; 0]; [0; 0; 0]] 3 3
  ∧ ∃ boundary_map,
      Boundary.get_boundary [[0; 1; 1]; [0; 0; 0]; [0; 0; 0]] 1 3 = Some boundary_map
      ∧ shape boundary_map 3 3.
Proof.
  assert (Hs : shape [[0; 1; 1]; [0; 0; 0]; [0; 0; 0]] 3 3).
  { split; [reflexivity|]. repeat constructor. }
  split; [exact Hs|].
  apply (get_boundary_total _ 3 3 1 3 Hs); lia.
Defined.

(** X4: with [kernel = 0] and [size] the number of rows, [get_boundary]
    raises on every grid that has a pixel: the window of a pixel of the
    last row is empty and [a[0]] raises. *)
Theorem get_boundary_kernel_zero_raises (vor_map : list (list nat)) (n m : nat) :
  shape vor_map n m → 0 < n → 0 < m →
  Boundary.get_boundary vor_map 0 (Z.of_nat n) = None.
Proof.
  intros Hs Hn Hm. unfold Boundary.get_boundary.
  rewrite (ncols_shape vor_map n m) by done. pose proof Hs as [-> _].
  apply mapM_None_2, Exists_exists. exists (n - 1). split; [apply elem_of_seq; lia|].
  apply mapM_None_2, Exists_exists. exists 0. split; [apply elem_of_seq; lia|].
  unfold Boundary.window, slice.
  replace (Z.to_nat (Boundary.clip (Z.of_nat n) (Z.of_nat (n - 1) + 0 + 1))
           - Z.to_nat (Boundary.clip (Z.of_nat n) (Z.of_nat (n - 1) - 0))) with 0
    by (unfold Boundary.clip; lia).
  done.
Qed.

Lemma get_boundary_kernel_zero_raises_witness :
  shape [[0; 1]; [0; 0]] 2 2
  ∧ Boundary.get_boundary [[0; 1]; [0; 0]] 0 (Z.of_nat 2) = None.
Proof.
  assert (Hs : shape [[0; 1]; [0; 0]] 2 2).
  { split; [reflexivity|]. repeat constructor. }
  split; [exact Hs|].
  apply (get_boundary_kernel_zero_raises _ 2 2 Hs); lia.
Defined.

(** X5: [get_boundary] reads no pixel of a row or a column with index
    [size - 1] or above: two grids of one shape that agree on the pixels
    [(i, j)] with [i < size - 1] and [j < size - 1] get the same result
    (the same map, or both raise). *)
Theorem get_boundary_ignores_last_row_and_column
    (vor_map vor_map' : list (list nat)) (n m : nat) (kernel size : Z) :
  shape vor_map n m → shape vor_map' n m →
  (∀ i j, (Z.of_nat i < size - 1)%Z → (Z.of_nat j < size - 1)%Z →
     get2 vor_map i j = get2 vor_map' i j) →
  Boundary.get_boundary vor_map kernel size
  = Boundary.get_boundary vor_map' kernel size.
Proof.
  intros Hs Hs' Hagree. unfold Boundary.get_boundary.
  assert (Hlen : length vor_map = length vor_map').
  { destruct Hs as [-> _], Hs' as [-> _]. done. }
  assert (Hcols : ncols vor_map = ncols vor_map').
  { destruct (decide (n = 0)) as [->|Hn].
    - destruct Hs as [H _], Hs' as [H' _].
      destruct vor_map, vor_map'; done.
    - rewrite (ncols_shape vor_map n m), (ncols_shape vor_map' n m) by (done || lia).
      done. }
  rewrite <- Hlen, <- Hcols.
  apply mapM_ext_in. intros i _. apply mapM_ext_in. intros j _.
  f_equal. apply window_ext; [done|].
  intros r c Hr Hc. apply Hagree; unfold Boundary.clip in *; lia.
Qed.

Lemma get_boundary_ignores_last_row_and_column_witness :
  shape [[0; 0; 0]; [0; 0; 0]; [0; 0; 0]] 3 3
  ∧ shape [[0; 0; 1]; [0; 0; 2]; [3; 4; 5]] 3 3
  ∧ Boundary.get_boundary [[0; 0; 0]; [0; 0; 0]; [0; 0; 0]] 1 3
    = Boundary.get_boundary [[0; 0; 1]; [0; 0; 2]; [3; 4; 5]] 1 3.
Proof.
  assert (Hs : shape [[0; 0; 0]; [0; 0; 0]; [0; 0; 0]] 3 3).
  { split; [reflexivity|]. repeat constructor. }
  assert (Hs' : shape [[0; 0; 1]; [0; 0; 2]; [3; 4; 5]] 3 3).
  { split; [reflexivity|]. repeat constructor. }
  split; [exact Hs|]. split; [exact Hs'|].
  apply (get_boundary_ignores_last_row_and_column _ _ 3 3 1 3 Hs Hs').
  intros [|[|i]] [|[|j]] Hi Hj; try reflexivity; lia.
Defined.

(** ** CellAggregator: the table of [average_cells], cell by cell *)

Section CellMeans.
Import Cells.
Implicit Types vor : list (list nat).

Lemma cell_data_cons_eq vor data p i j d pixels :
  get2 vor i j = Some p → get2 data i j = Some d →
  cell_data vor data p ((i, j) :: pixels) = d :: cell_data vor data p pixels.
Proof.
  intros Hp Hd. unfold cell_data. rewrite filter_cons_True by done.
  simpl. by rewrite Hd.
Qed.

Lemma cell_data_cons_ne vor data p q i j pixels :
  get2 vor i j = Some q → q ≠ p →
  cell_data vor data p ((i, j) :: pixels) = cell_data vor data p pixels.
Proof.
  intros Hq Hne. unfold cell_data. rewrite filter_cons_False; [done|].
  simpl. rewrite Hq. congruence.
Qed.

(** The loop of [average_cells] keeps the cells apart: the entries of
    cell [p] after the loop are the entries before it with the values of
    the visited pixels of that cell added, one by one. *)
Lemma accumulate_cells vor data pixels :
  ∀ sum_ count sum' count',
    foldM (accumulate vor data) (sum_, count) pixels = Some (sum', count') →
    length sum' = length sum_ ∧ length count' = length count
    ∧ ∀ p s c, sum_ !! p = Some s → count !! p = Some c →
        sum' !! p = Some (foldl (λ s d, (s + d)%float) s (cell_data vor data p pixels))
        ∧ count' !! p
          = Some (foldl (λ n _, (n + 1)%float) c (cell_data vor data p pixels)).
Proof.
  induction pixels as [|[i j] pixels IH]; intros sum_ count sum' count' Hrun.
  - simpl in Hrun. simplify_eq. auto.
  - simpl in Hrun.
    destruct (get2 vor i j) as [q|] eqn:Hq; [|done]. simpl in Hrun.
    destruct (count !! q) as [cq|] eqn:Hcq; [|done]. simpl in Hrun.
    destruct (get2 data i j) as [d|] eqn:Hd; [|done]. simpl in Hrun.
    destruct (sum_ !! q) as [sq|] eqn:Hsq; [|done]. simpl in Hrun.
    apply IH in Hrun as (Hls & Hlc & Hrun).
    rewrite length_insert in Hls, Hlc. split; [done|]. split; [done|].
    intros p s c Hs Hc. destruct (decide (p = q)) as [->|Hne].
    + rewrite (cell_data_cons_eq _ _ _ _ _ _ _ Hq Hd). simpl.
      apply Hrun; rewrite list_lookup_insert_eq; try congruence.
      * by eapply lookup_lt_Some.
      * by eapply lookup_lt_Some.
    + rewrite (cell_data_cons_ne _ _ _ _ _ _ _ Hq (not_eq_sym Hne)).
      apply Hrun; by rewrite list_lookup_insert_ne.
Qed.

Lemma average_cells_lookup vor data table p :
  average_cells vor data = Some table → p < length table →
  table !! p
  = Some (running_mean (cell_data vor data p (range2 (length vor) (length vor)))).
Proof.
  unfold average_cells. intros Hrun Hp.
  destruct (np_max vor) as [mx|]; [|done]. cbn [mbind option_bind] in Hrun.
  destruct (foldM _ _ _) as [[sum' count']|] eqn:Hloop; [|done].
  cbn [mbind option_bind] in Hrun. simplify_eq.
  apply accumulate_cells in Hloop as (Hls & Hlc & Hloop).
  rewrite length_replicate in Hls, Hlc.
  unfold guarded_divide in Hp. rewrite length_zip_with in Hp.
  destruct (Hloop p 0%float 0%float) as [Hs Hc].
  { apply lookup_replicate_2. lia. }
  { apply lookup_replicate_2. lia. }
  by rewrite (guarded_divide_lookup _ _ _ _ _ Hs Hc).
Qed.

Lemma cell_data_hits vor data p pixels :
  hits vor p pixels = 0 → cell_data vor data p pixels = [].
Proof.
  unfold hits, cell_data. intros H. apply nil_length_inv in H. by rewrite H.
Qed.

End CellMeans.

(** X6: every entry [p] of the table that [average_cells] returns is
    the running mean of the values of [data] at the pixels of cell [p],
    taken in row-major order: their sum, added up from [0.0], over their
    count, added up from [0.0] in steps of [1.0]. *)
Theorem average_cells_running_mean (vor : list (list nat)) (data : list (list float))
    (table : list float) (p : nat) :
  Cells.average_cells vor data = Some table → p < length table →
  table !! p
  = Some (Cells.running_mean
            (Cells.cell_data vor data p (range2 (length vor) (length vor)))).
Proof. apply average_cells_lookup. Qed.

Lemma average_cells_running_mean_witness :
  Cells.average_cells [[0; 2]; [2; 0]] [[1; 2]; [3; 4]]%float
    = Some [2.5; 0; 2.5]%float
  ∧ [2.5; 0; 2.5]%float !! 2
    = Some (Cells.running_mean
              (Cells.cell_data [[0; 2]; [2; 0]] [[1; 2]; [3; 4]]%float 2
                 (range2 (length [[0; 2]; [2; 0]]) (length [[0; 2]; [2; 0]])))).
Proof.
  split; [vm_compute; reflexivity|].
  apply (average_cells_running_mean [[0; 2]; [2; 0]] [[1; 2]; [3; 4]]%float).
  - vm_compute. reflexivity.
  - simpl. lia.
Defined.

(** X7: an id below the table length that no visited pixel holds gets
    the average [0.0]: the division guard [where=count != 0] keeps the
    NaN of [0/0] out of the table. *)
Theorem average_cells_empty_cell (vor : list (list nat)) (data : list (list float))
    (table : list float) (p : nat) :
  Cells.average_cells vor data = Some table → p < length table →
  Cells.cell_size vor p = 0 →
  table !! p = Some 0%float.
Proof.
  intros Hrun Hp Hsize.
  rewrite (average_cells_lookup _ _ _ _ Hrun Hp).
  unfold Cells.cell_size in Hsize.
  by rewrite (cell_data_hits _ data _ _ Hsize).
Qed.

Lemma average_cells_empty_cell_witness :
  Cells.average_cells [[0; 2]; [2; 0]] [[1; 2]; [3; 4]]%float
    = Some [2.5; 0; 2.5]%float
  ∧ Cells.cell_size [[0; 2]; [2; 0]] 1 = 0
  ∧ [2.5; 0; 2.5]%float !! 1 = Some 0%float.
Proof.
  split; [vm_compute; reflexivity|]. split; [vm_compute; reflexivity|].
  apply (average_cells_empty_cell [[0; 2]; [2; 0]] [[1; 2]; [3; 4]]%float).
  - vm_compute. reflexivity.
  - simpl. lia.
  - vm_compute. reflexivity.
Defined.

(** ** When the painting loops raise *)

Section CellLookups.
Import Cells.
Implicit Types vor : list (list nat).

(** The two loops of [fill_cells] and [color_cells] run to their end
    exactly when every id of the grid indexes into the table. *)
Lemma paint_loops_Some {A} vor (table : list A) (size : nat) :
  shape vor size size →
  is_Some (mapM (λ i, mapM (λ j, p ← get2 vor i j; table !! p) (seq 0 size))
             (seq 0 size))
  ↔ ∀ i j p, get2 vor i j = Some p → p < length table.
Proof.
  intros Hvor. split.
  - intros [image Himage] i j p Hp.
    assert (Hi : i < size).
    { unfold get2 in Hp. destruct (vor !! i) eqn:Hrow; [|done].
      apply lookup_lt_Some in Hrow. by destruct Hvor as [<- _]. }
    assert (Hj : j < size).
    { unfold get2 in Hp. destruct (vor !! i) as [row|] eqn:Hrow; [|done].
      simpl in Hp. apply lookup_lt_Some in Hp.
      destruct Hvor as [_ Hrows]. rewrite Forall_forall in Hrows.
      rewrite <- (Hrows row); [done|]. by eapply list_elem_of_lookup_2. }
    destruct (mapM_seq_lookup _ _ _ i Himage Hi) as [_ [row Hrow]].
    destruct (mapM_seq_lookup _ _ _ j Hrow Hj) as [_ [x Hx]].
    rewrite Hp in Hx. simpl in Hx. by eapply lookup_lt_Some.
  - intros Hids.
    destruct (mapM2_seq (λ i j, p ← get2 vor i j; table !! p) size size)
      as (image & Himage & _); [|eauto].
    intros i j Hi Hj.
    destruct (get2_shape vor _ _ i j Hvor Hi Hj) as [p Hp].
    rewrite Hp. simpl. apply lookup_lt_is_Some_2. eauto.
Qed.

End CellLookups.

(** X8: on a [size × size] grid [fill_cells] raises exactly when some
    pixel holds an id that is not below the length of the table. *)
Theorem fill_cells_raises_iff (size : nat) (vor : list (list nat)) (table : list float) :
  shape vor size size →
  Cells.fill_cells vor table = None
  ↔ ∃ i j p, get2 vor i j = Some p ∧ length table ≤ p.
Proof.
  intros Hvor. pose proof (paint_loops_Some vor table size Hvor) as Hiff.
  unfold Cells.fill_cells. pose proof Hvor as [-> _].
  rewrite eq_None_not_Some, Hiff. split.
  - intros Hnot.
    destruct (decide (Exists (λ p, length table ≤ p) (concat vor))) as [Hex|Hall].
    + apply Exists_exists in Hex as (p & Hp & Hle).
      apply list_elem_of_In, in_concat in Hp as (row & Hrow & Hp).
      apply list_elem_of_In, list_elem_of_lookup_1 in Hrow as [i Hi].
      apply list_elem_of_In, list_elem_of_lookup_1 in Hp as [j Hj].
      exists i, j, p. unfold get2. rewrite Hi. auto.
    + exfalso. apply Hnot. intros i j p Hp.
      apply get2_elem_of in Hp.
      apply not_Exists_Forall in Hall; [|intros ?; apply _].
      rewrite Forall_forall in Hall. specialize (Hall p Hp). simpl in Hall. lia.
  - intros (i & j & p & Hp & Hle) Hall. specialize (Hall i j p Hp). lia.
Qed.

Lemma fill_cells_raises_iff_witness :
  shape [[0; 0]; [0; 3]] 2 2
  ∧ (Cells.fill_cells [[0; 0]; [0; 3]] [1; 2; 3]%float = None
     ↔ ∃ i j p, get2 [[0; 0]; [0; 3]] i j = Some p ∧ length [1; 2; 3]%float ≤ p).
Proof.
  assert (Hs : shape [[0; 0]; [0; 3]] 2 2).
  { split; [reflexivity|]. repeat constructor. }
  split; [exact Hs|].
  apply (fill_cells_raises_iff 2 [[0; 0]; [0; 3]] [1; 2; 3]%float Hs).
Defined.

(** ** CellPainter *)

Section PainterFacts.
Import Cells Painter.
Implicit Types vor : list (list nat).

Lemma mapM_fmap_out {A B C} (g : A → option B) (f : B → C) (l : list A) :
  mapM (λ x, f <$> g x) l = (λ k : list B, f <$> k) <$> mapM g l.
Proof.
  induction l as [|x l IH]; [done|].
  simpl. destruct (g x); simpl; [|done].
  rewrite IH. by destruct (mapM g l).
Qed.

(** Painting with a table mapped through [f] is painting with the table
    itself and mapping the image. *)
Lemma paint_loops_fmap {A B} (f : A → B) vor (table : list A) (size : nat) :
  mapM (λ i : nat,
          mapM (λ j : nat, p ← get2 vor i j; (f <$> table) !! p) (seq 0 size))
       (seq 0 size)
  = (λ image : list (list A), (λ row : list A, f <$> row) <$> image)
      <$> mapM (λ i : nat,
                  mapM (λ j : nat, p ← get2 vor i j; table !! p) (seq 0 size))
               (seq 0 size).
Proof.
  rewrite <- mapM_fmap_out. apply mapM_ext_in. intros i _.
  rewrite <- mapM_fmap_out. apply mapM_ext_in. intros j _.
  destruct (get2 vor i j); simpl; [|done]. apply list_lookup_fmap.
Qed.

End PainterFacts.

(** X9: [color_cells] paints each channel as [fill_cells] does with the
    table of that channel, and then truncates toward zero: wherever
    [color_cells] returns an image, the three [fill_cells] calls return
    images too, and every colour is the triple of their converted
    values. *)
Theorem color_cells_channels (vor : list (list nat))
    (data : list (float * float * float)) (image : list (list (Z * Z * Z))) :
  Painter.color_cells vor data = Some image →
  ∃ red green blue,
    Cells.fill_cells vor ((λ c : float * float * float, c.1.1) <$> data) = Some red
    ∧ Cells.fill_cells vor ((λ c : float * float * float, c.1.2) <$> data) = Some green
    ∧ Cells.fill_cells vor ((λ c : float * float * float, c.2) <$> data) = Some blue
    ∧ ∀ i j c, get2 image i j = Some c →
        ∃ r g b,
          get2 red i j = Some r ∧ get2 green i j = Some g ∧ get2 blue i j = Some b
          ∧ c = (Num.astype_int r, Num.astype_int g, Num.astype_int b).
Proof.
  unfold Painter.color_cells, Cells.fill_cells. intros Hrun.
  destruct (mapM _ _) as [img|] eqn:Himg; [|done].
  cbn [mbind option_bind] in Hrun. simplify_eq.
  rewrite !paint_loops_fmap, Himg. simpl.
  eexists _, _, _. repeat (split; [reflexivity|]).
  intros i j c. rewrite !get2_fmap.
  destruct (get2 img i j) as [[[r g] b]|]; [|done].
  simpl. intros [= <-]. eauto 10.
Qed.

Lemma color_cells_channels_witness :
  Painter.color_cells [[0; 1]; [1; 0]] [(1.5, 2, 3); (-0.5, 200.75, 255)]%float
    = Some [[(1, 2, 3); (0, 200, 255)]; [(0, 200, 255); (1, 2, 3)]]%Z
  ∧ ∃ red green blue,
      Cells.fill_cells [[0; 1]; [1; 0]]
        ((λ c : float * float * float, c.1.1)
           <$> [(1.5, 2, 3); (-0.5, 200.75, 255)]%float) = Some red
      ∧ Cells.fill_cells [[0; 1]; [1; 0]]
          ((λ c : float * float * float, c.1.2)
             <$> [(1.5, 2, 3); (-0.5, 200.75, 255)]%float) = Some green
      ∧ Cells.fill_cells [[0; 1]; [1; 0]]
          ((λ c : float * float * float, c.2)
             <$> [(1.5, 2, 3); (-0.5, 200.75, 255)]%float) = Some blue
      ∧ ∀ i j c,
          get2 [[(1, 2, 3); (0, 200, 255)]; [(0, 200, 255); (1, 2, 3)]]%Z i j = Some c →
          ∃ r g b,
            get2 red i j = Some r ∧ get2 green i j = Some g ∧ get2 blue i j = Some b
            ∧ c = (Num.astype_int r, Num.astype_int g, Num.astype_int b).
Proof.
  split; [vm_compute; reflexivity|].
  apply (color_cells_channels [[0; 1]; [1; 0]]
           [(1.5, 2, 3); (-0.5, 200.75, 255)]%float).
  vm_compute. reflexivity.
Defined.

(** ** Scatterer: which positions [place_trees] returns *)

Section RasterFacts.
Import Scatter.

(** One assignment of the rasterization sets its element and clears
    none. *)
Lemma set_true_sets (g g' : list (list bool)) (r c : Z) :
  (0 ≤ r)%Z → (0 ≤ c)%Z → set_true g (r, c) = Some g' →
  get2 g' (Z.to_nat r) (Z.to_nat c) = Some true
  ∧ ∀ i j, get2 g i j = Some true → get2 g' i j = Some true.
Proof.
  intros Hr Hc Hset. unfold set_true in Hset. simpl in Hset.
  destruct (py_index (length g) r) as [ri|] eqn:Hri; [|done]. simpl in Hset.
  destruct (g !! ri) as [row|] eqn:Hrow; [|done]. simpl in Hset.
  destruct (py_index (length row) c) as [ci|] eqn:Hci; [|done]. simpl in Hset.
  simplify_eq.
  apply py_index_nonneg in Hri as [-> Hrlt]; [|done].
  apply py_index_nonneg in Hci as [-> Hclt]; [|done].
  split.
  - unfold get2. rewrite list_lookup_insert_eq by done. simpl.
    by rewrite list_lookup_insert_eq.
  - intros i j. unfold get2.
    destruct (decide (i = Z.to_nat r)) as [->|Hne].
    + rewrite list_lookup_insert_eq by done. rewrite Hrow. simpl.
      destruct (decide (j = Z.to_nat c)) as [->|Hne].
      * intros _. by rewrite list_lookup_insert_eq.
      * by rewrite list_lookup_insert_ne.
    + by rewrite list_lookup_insert_ne.
Qed.

Lemma rasterize_complete (trees : list (Z * Z)) (g g' : list (list bool)) :
  Forall (λ p : Z * Z, (0 ≤ p.1)%Z ∧ (0 ≤ p.2)%Z) trees →
  foldM set_true g trees = Some g' →
  (∀ i j, get2 g i j = Some true → get2 g' i j = Some true)
  ∧ ∀ r c, (r, c) ∈ trees → get2 g' (Z.to_nat r) (Z.to_nat c) = Some true.
Proof.
  revert g. induction trees as [|[r c] trees IH]; intros g Hpos Hrun.
  - simpl in Hrun. simplify_eq. split; [done|].
    intros r c H. by apply elem_of_nil in H.
  - simpl in Hrun. destruct (set_true g (r, c)) as [g1|] eqn:Hset; [|done].
    simpl in Hrun. apply Forall_cons in Hpos as [[Hr Hc] Hpos].
    destruct (set_true_sets _ _ _ _ Hr Hc Hset) as [Hrc Hkeep].
    destruct (IH g1 Hpos Hrun) as [Hkeep' Hall]. split; [auto|].
    intros r' c' H. apply elem_of_cons in H as [[= -> ->]|H]; auto.
Qed.

Lemma zip_grid_get2_2 {A B C} (f : A → B → C) a b c i j x y :
  zip_grid f a b = Some c → get2 a i j = Some x → get2 b i j = Some y →
  get2 c i j = Some (f x y).
Proof.
  unfold zip_grid. destruct (decide (length a = length b)); [|done].
  intros Hc Hx Hy. apply mapM_Some_1 in Hc. unfold get2 in *.
  destruct (a !! i) as [ra|] eqn:Hra; [|done].
  destruct (b !! i) as [rb|] eqn:Hrb; [|done]. simpl in Hx, Hy.
  destruct (Forall2_lookup_l _ _ _ i (ra, rb) Hc) as (rowc & Hrowc & Hrow).
  { by apply lookup_zip_Some. }
  simpl in Hrow. destruct (decide (length ra = length rb)); [|done].
  simplify_eq. rewrite Hrowc. simpl.
  rewrite lookup_zip_with, Hx. simpl. by rewrite Hy.
Qed.

Lemma where_true_complete (g : list (list bool)) i j :
  get2 g i j = Some true → (i, j) ∈ where_true g.
Proof.
  unfold get2, where_true. intros H.
  destruct (g !! i) as [row|] eqn:Hrow; [|done]. simpl in H.
  apply list_elem_of_bind. exists (i, row).
  split; [|by apply (elem_of_lookup_imap_2 pair)].
  apply list_elem_of_bind. exists (j, true).
  split; [by apply list_elem_of_singleton|].
  by apply (elem_of_lookup_imap_2 pair).
Qed.

Lemma NoDup_imap_pair {A} (l : list A) : NoDup (imap pair l).
Proof.
  apply NoDup_alt. intros i j [k x]. rewrite !list_lookup_imap.
  destruct (l !! i); [|done]. destruct (l !! j); [|done].
  simpl. congruence.
Qed.

Lemma where_true_NoDup (g : list (list bool)) : NoDup (where_true g).
Proof.
  unfold where_true. apply NoDup_bind.
  - intros [i1 row1] [i2 row2] [i j] H1 H2 Hy1 Hy2.
    apply elem_of_lookup_imap_1 in H1 as (i1' & r1 & [= -> ->] & Hr1).
    apply elem_of_lookup_imap_1 in H2 as (i2' & r2 & [= -> ->] & Hr2).
    apply list_elem_of_bind in Hy1 as ([j1 b1] & Hy1 & _).
    apply list_elem_of_bind in Hy2 as ([j2 b2] & Hy2 & _).
    destruct b1; [|by apply elem_of_nil in Hy1].
    destruct b2; [|by apply elem_of_nil in Hy2].
    apply list_elem_of_singleton in Hy1 as [= -> ->].
    apply list_elem_of_singleton in Hy2 as [= -> ->].
    congruence.
  - intros [i row] _. apply NoDup_bind.
    + intros [j1 b1] [j2 b2] [i' j] H1 H2 Hy1 Hy2.
      apply elem_of_lookup_imap_1 in H1 as (j1' & c1 & [= -> ->] & Hc1).
      apply elem_of_lookup_imap_1 in H2 as (j2' & c2 & [= -> ->] & Hc2).
      destruct c1; [|by apply elem_of_nil in Hy1].
      destruct c2; [|by apply elem_of_nil in Hy2].
      apply list_elem_of_singleton in Hy1 as [= -> ->].
      apply list_elem_of_singleton in Hy2 as [= ->].
      done.
    + intros [j b] _. destruct b; [apply NoDup_singleton|apply NoDup_nil_2].
    + apply NoDup_imap_pair.
  - apply NoDup_imap_pair.
Qed.

End RasterFacts.

(** X10: [place_trees] leaves out no admissible tree: every point
    [(r, c)] of [generate_trees] at which [mask > a], [river_land_mask] is
    true and [adjusted_height_river_map < 0.5] is returned, as [(c, r)]. *)
Theorem place_trees_complete
    (Voronoi : list Scatter.point → option Scatter.diagram)
    (draw : list (Z * Z)) (mask : list (list float)) (a : float)
    (river_land_mask : list (list bool))
    (adjusted_height_river_map : list (list float)) (size : Z)
    (trees : list (Z * Z)) (output_trees : list (nat * nat)) :
  Scatter.place_trees Voronoi draw mask a river_land_mask
    adjusted_height_river_map size = Some output_trees →
  Scatter.generate_trees Voronoi draw size = Some trees →
  ∀ r c m h, (r, c) ∈ trees →
    get2 mask (Z.to_nat r) (Z.to_nat c) = Some m → (a <? m)%float = true →
    get2 river_land_mask (Z.to_nat r) (Z.to_nat c) = Some true →
    get2 adjusted_height_river_map (Z.to_nat r) (Z.to_nat c) = Some h →
    (h <? 0.5)%float = true →
    (Z.to_nat c, Z.to_nat r) ∈ output_trees.
Proof.
  unfold Scatter.place_trees. intros Hrun Htrees r c m h Hrc Hm Ham Hriver Hh Hh5.
  rewrite Htrees in Hrun. simpl in Hrun.
  destruct (0 <=? size)%Z; [|done]. simpl in Hrun.
  destruct (foldM _ _ _) as [raster|] eqn:Hraster; [|done]. simpl in Hrun.
  destruct (Scatter.zip_grid andb raster _) as [t1|] eqn:H1; [|done]. simpl in Hrun.
  destruct (Scatter.zip_grid andb t1 _) as [t2|] eqn:H2; [|done]. simpl in Hrun.
  destruct (Scatter.zip_grid andb t2 _) as [t3|] eqn:H3; [|done]. simpl in Hrun.
  simplify_eq.
  assert (Hpos : Forall (λ p : Z * Z, (0 ≤ p.1)%Z ∧ (0 ≤ p.2)%Z) trees).
  { eapply Forall_impl; [exact (generate_trees_spec _ _ _ _ Htrees)|].
    intros [r' c']. simpl. lia. }
  destruct (rasterize_complete _ _ _ Hpos Hraster) as [_ Hset].
  specialize (Hset r c Hrc).
  pose proof (zip_grid_get2_2 _ _ _ _ _ _ _ _ H1 Hset
                ltac:(rewrite get2_fmap, Hm; reflexivity)) as Ht1.
  pose proof (zip_grid_get2_2 _ _ _ _ _ _ _ _ H2 Ht1 Hriver) as Ht2.
  pose proof (zip_grid_get2_2 _ _ _ _ _ _ _ _ H3 Ht2
                ltac:(rewrite get2_fmap, Hh; reflexivity)) as Ht3.
  rewrite Ham, Hh5 in Ht3. simpl in Ht3.
  apply list_elem_of_fmap. exists (Z.to_nat r, Z.to_nat c).
  split; [done|]. by apply where_true_complete.
Qed.

Lemma place_trees_complete_witness :
  Scatter.place_trees Scatter.square_diagram [(5, 5)]%Z
    (replicate 4 (replicate 4 1%float)) 0.5%float
    (replicate 4 (replicate 4 true))
    (replicate 4 (replicate 4 0%float)) 4 = Some [(2, 2)]
  ∧ Scatter.generate_trees Scatter.square_diagram [(5, 5)]%Z 4 = Some [(2, 2)%Z]
  ∧ (Z.to_nat 2, Z.to_nat 2) ∈ [(2, 2)].
Proof.
  split; [vm_compute; reflexivity|]. split; [vm_compute; reflexivity|].
  apply (place_trees_complete Scatter.square_diagram [(5, 5)]%Z
           (replicate 4 (replicate 4 1%float)) 0.5%float
           (replicate 4 (replicate 4 true))
           (replicate 4 (replicate 4 0%float)) 4 [(2, 2)%Z] [(2, 2)]
           ltac:(vm_compute; reflexivity) ltac:(vm_compute; reflexivity)
           2%Z 2%Z 1%float 0%float).
  - apply list_elem_of_singleton. reflexivity.
  - vm_compute. reflexivity.
  - vm_compute. reflexivity.
  - vm_compute. reflexivity.
  - vm_compute. reflexivity.
  - vm_compute. reflexivity.
Defined.

(** X11: [place_trees] returns every position once, also when several
    points of [generate_trees] fall on one pixel. *)
Theorem place_trees_NoDup
    (Voronoi : list Scatter.point → option Scatter.diagram)
    (draw : list (Z * Z)) (mask : list (list float)) (a : float)
    (river_land_mask : list (list bool))
    (adjusted_height_river_map : list (list float)) (size : Z)
    (output_trees : list (nat * nat)) :
  Scatter.place_trees Voronoi draw mask a river_land_mask
    adjusted_height_river_map size = Some output_trees →
  NoDup output_trees.
Proof.
  unfold Scatter.place_trees. intros Hrun.
  destruct (Scatter.generate_trees _ _ _) as [trees|]; [|done]. simpl in Hrun.
  destruct (0 <=? size)%Z; [|done]. simpl in Hrun.
  destruct (foldM _ _ _) as [raster|]; [|done]. simpl in Hrun.
  destruct (Scatter.zip_grid andb raster _) as [t1|]; [|done]. simpl in Hrun.
  destruct (Scatter.zip_grid andb t1 _) as [t2|]; [|done]. simpl in Hrun.
  destruct (Scatter.zip_grid andb t2 _) as [t3|]; [|done]. simpl in Hrun.
  simplify_eq. apply NoDup_fmap_2; [|apply where_true_NoDup].
  intros [i j] [i' j']. simpl. congruence.
Qed.

Lemma place_trees_NoDup_witness :
  Scatter.generate_trees Scatter.twin_diagram [(5, 5)]%Z 4
    = Some [(2, 2); (2, 2)]%Z
  ∧ Scatter.place_trees Scatter.twin_diagram [(5, 5)]%Z
      (replicate 4 (replicate 4 1%float)) 0.5%float
      (replicate 4 (replicate 4 true))
      (replicate 4 (replicate 4 0%float)) 4 = Some [(2, 2)]
  ∧ NoDup [(2, 2)].
Proof.
  split; [vm_compute; reflexivity|]. split; [vm_compute; reflexivity|].
  apply (place_trees_NoDup Scatter.twin_diagram [(5, 5)]%Z
           (replicate 4 (replicate 4 1%float)) 0.5%float
           (replicate 4 (replicate 4 true))
           (replicate 4 (replicate 4 0%float)) 4 [(2, 2)]).
  vm_compute. reflexivity.
Defined.

(** ** HeightShaper and shading: edge values and exceptions *)

Section NanFacts.
Import Shaper.

Lemma nan_Prim2SF (x : float) : is_nan x = true → Prim2SF x = S754_nan.
Proof.
  unfold is_nan. rewrite FloatAxioms.eqb_spec. intros H.
  destruct (Prim2SF x) as [s|s| |s m e] eqn:E; [exfalso|exfalso|done|exfalso];
    rewrite SFeqb_refl in H; done.
Qed.

Lemma ltb_nan_l (x b : float) : is_nan x = true → (x <? b)%float = false.
Proof. intros H. by rewrite ltb_spec, (nan_Prim2SF x H). Qed.

Lemma digitize_nan (x : float) (bins : list float) :
  is_nan x = true → digitize x bins = length bins.
Proof.
  intros H. induction bins as [|b bins IH]; [done|].
  simpl. by rewrite (ltb_nan_l x b H), IH.
Qed.

Lemma length_linspace (start stop : float) (num : nat) :
  length (linspace start stop num) = num.
Proof.
  unfold linspace.
  repeat match goal with
         | |- context [if ?b then _ else _] => destruct b
         end;
    rewrite ?length_insert, !length_fmap, length_seq; done.
Qed.

End NanFacts.

(** X12: [quantize] puts a NaN into the highest band, [n - 1]:
    [np.digitize] finds no bin edge above it, and the clip brings the
    index [n] down. *)
Theorem quantize_nan_top_band (data : list (list float)) (n i j : nat) (x : float) :
  get2 data i j = Some x → is_nan x = true →
  get2 (Shaper.quantize data n) i j = Some (Z.of_nat n - 1)%Z.
Proof.
  intros Hx Hnan. rewrite quantize_get2, Hx. simpl. f_equal.
  unfold Shaper.band. rewrite (digitize_nan x _ Hnan), length_linspace.
  unfold Shaper.clipZ. lia.
Qed.

Lemma quantize_nan_top_band_witness :
  get2 [[0.25; nan]]%float 0 1 = Some nan
  ∧ get2 (Shaper.quantize [[0.25; nan]]%float 4) 0 1 = Some (Z.of_nat 4 - 1)%Z.
Proof.
  split; [reflexivity|].
  apply (quantize_nan_top_band [[0.25; nan]]%float 4 0 1 nan); reflexivity.
Defined.

Section ShadingTotal.
Import Shading.

Lemma zip_grid_total {A B C} (f : A → B → C) a b n m :
  shape a n m → shape b n m →
  ∃ c, Scatter.zip_grid f a b = Some c ∧ shape c n m.
Proof.
  intros [Han Ham] [Hbn Hbm]. unfold Scatter.zip_grid.
  rewrite decide_True by congruence.
  rewrite Forall_forall in Ham. rewrite Forall_forall in Hbm.
  destruct (mapM_is_Some_2 (λ rows : list A * list B,
              if decide (length rows.1 = length rows.2)
              then Some (zip_with f rows.1 rows.2) else None) (zip a b))
    as [c Hc].
  { apply Forall_forall. intros [ra rb] Hin.
    apply elem_of_zip_l in Hin as Hl. apply elem_of_zip_r in Hin as Hr.
    simpl. rewrite decide_True; [eauto|]. by rewrite Ham, Hbm. }
  exists c. split; [done|]. split.
  - apply length_mapM in Hc. rewrite <- Hc, length_zip. lia.
  - apply Forall_forall. intros rowc Hrowc.
    apply list_elem_of_lookup_1 in Hrowc as [i Hi].
    apply mapM_Some_1 in Hc.
    destruct (Forall2_lookup_r _ _ _ _ _ Hc Hi) as ([ra rb] & Hzip & Hrow).
    apply lookup_zip_Some in Hzip as [Hra Hrb].
    simpl in Hrow. destruct (decide (length ra = length rb)); [|done].
    simplify_eq. rewrite length_zip_with.
    rewrite (Ham ra), (Hbm rb); [lia| |]; by eapply list_elem_of_lookup_2.
Qed.

Lemma shape_fmap {A B} (f : A → B) (g : list (list A)) n m :
  shape g n m → shape ((λ row : list A, f <$> row) <$> g) n m.
Proof.
  intros [Hn Hm]. split; [by rewrite length_fmap|].
  apply Forall_fmap. eapply Forall_impl; [exact Hm|].
  intros row. simpl. by rewrite length_fmap.
Qed.

(** In mode [reflect] every read of [correlate] is inside the input. *)
Lemma correlate_total (input weights : list (list float)) (origin : Z * Z) n m :
  0 < n → 0 < m → shape input n m →
  ∃ out, correlate input weights origin = Some out ∧ shape out n m.
Proof.
  intros Hn Hm Hs. unfold correlate.
  generalize (Z.of_nat (length weights / 2) + origin.1)%Z as ca.
  generalize (Z.of_nat (ncols weights / 2) + origin.2)%Z as cb. intros cb ca.
  rewrite (ncols_shape input n m Hn Hs). pose proof Hs as [-> _].
  match goal with
  | |- ∃ out, mapM (λ i, mapM (@?f i) _) _ = _ ∧ _ =>
      destruct (mapM2_seq f n m) as (out & Hout & Hshape & _); [|eauto]
  end.
  intros i j _ _. simpl.
  generalize 0%float. induction (footprint weights) as [|[[a b] w] fp IH];
    intros tmp; simpl; [eauto|].
  destruct (get2_shape input n m
              (reflect n (Z.of_nat i + Z.of_nat a - ca))
              (reflect m (Z.of_nat j + Z.of_nat b - cb)) Hs)
    as [v Hv]; [by apply reflect_lt..|].
  rewrite Hv. simpl. apply IH.
Qed.

Lemma convolve_total (input weights : list (list float)) n m :
  0 < n → 0 < m → shape input n m →
  ∃ out, convolve input weights = Some out ∧ shape out n m.
Proof. intros. unfold convolve. by apply correlate_total. Qed.

Lemma sobel_run (im : list (list float)) n m :
  0 < n → 0 < m → shape im n m →
  ∃ gx gy, sobel im = Some (gx, gy) ∧ shape gx n m ∧ shape gy n m.
Proof.
  intros Hn Hm Hs. unfold sobel.
  destruct (convolve_total im [[-1; 0; 1]; [-2; 0; 2]; [-1; 0; 1]]%float n m)
    as (gx & Hgx & Hsx); [done..|].
  destruct (convolve_total im
              (transpose [[-1; 0; 1]; [-2; 0; 2]; [-1; 0; 1]]%float) n m)
    as (gy & Hgy & Hsy); [done..|].
  rewrite Hgx. cbn [mbind option_bind]. rewrite Hgy. cbn [mbind option_bind].
  eauto.
Qed.

Lemma np_max_total (a : list (list float)) n m :
  0 < n → 0 < m → shape a n m → is_Some (np_max a).
Proof.
  intros Hn Hm Hs. destruct (get2_shape a n m 0 0 Hs Hn Hm) as [x Hx].
  apply get2_elem_of in Hx. unfold np_max.
  destruct (concat a); [by apply elem_of_nil in Hx|eauto].
Qed.

Lemma compute_normal_map_run (gx gy : list (list float)) (intensity : float) n m :
  0 < n → 0 < m → shape gx n m → shape gy n m →
  (intensity =? 0)%float = false →
  ∃ normal_map, compute_normal_map gx gy intensity = Some normal_map
                ∧ shape normal_map n m.
Proof.
  intros Hn Hm Hx Hy Hi. unfold compute_normal_map.
  destruct (np_max_total gx n m Hn Hm Hx) as [mx ->].
  destruct (np_max_total gy n m Hn Hm Hy) as [my ->].
  cbn [mbind option_bind]. rewrite Hi. cbn [mbind option_bind].
  by apply zip_grid_total.
Qed.

Lemma get_normal_map_run (im : list (list float)) (intensity : float) n m :
  0 < n → 0 < m → shape im n m →
  (intensity =? 0)%float = false →
  ∃ normal_map, get_normal_map im intensity = Some normal_map
                ∧ shape normal_map n m.
Proof.
  intros Hn Hm Hs Hi. unfold get_normal_map.
  destruct (sobel_run im n m Hn Hm Hs) as (gx & gy & -> & Hx & Hy).
  cbn [mbind option_bind]. by apply compute_normal_map_run.
Qed.

Lemma get_normal_light_run (im : list (list float)) n m :
  0 < n → 0 < m → shape im n m →
  ∃ light, get_normal_light im = Some light ∧ shape light n m.
Proof.
  intros Hn Hm Hs. unfold get_normal_light.
  destruct (get_normal_map_run im 1 n m Hn Hm Hs) as (nm & -> & Hnm); [done|].
  cbn [mbind option_bind]. eexists. split; [done|]. by apply shape_fmap.
Qed.

End ShadingTotal.

(** X13: on an image with at least one row and one column [sobel]
    does not raise, and both gradients have the shape of the image. *)
Theorem sobel_total (im : list (list float)) (n m : nat) :
  0 < n → 0 < m → shape im n m →
  ∃ gx gy, Shading.sobel im = Some (gx, gy) ∧ shape gx n m ∧ shape gy n m.
Proof. apply sobel_run. Qed.

Lemma sobel_total_witness :
  shape Shading.ramp 3 3
  ∧ ∃ gx gy, Shading.sobel Shading.ramp = Some (gx, gy)
             ∧ shape gx 3 3 ∧ shape gy 3 3.
Proof.
  assert (Hs : shape Shading.ramp 3 3).
  { split; [reflexivity|]. repeat constructor. }
  split; [exact Hs|].
  apply (sobel_total Shading.ramp 3 3); [lia|lia|exact Hs].
Defined.

(** X14: on an image with at least one row and one column
    [get_normal_map] raises exactly when [intensity] is zero, the
    [ZeroDivisionError] of [1 / intensity]. *)
Theorem get_normal_map_raises_iff (im : list (list float)) (intensity : float)
    (n m : nat) :
  0 < n → 0 < m → shape im n m →
  Shading.get_normal_map im intensity = None ↔ (intensity =? 0)%float = true.
Proof.
  intros Hn Hm Hs. destruct (intensity =? 0)%float eqn:Hi.
  - split; [done|]. intros _. unfold Shading.get_normal_map.
    destruct (sobel_run im n m Hn Hm Hs) as (gx & gy & -> & Hx & Hy).
    cbn [mbind option_bind]. unfold Shading.compute_normal_map.
    destruct (np_max_total gx n m Hn Hm Hx) as [mx ->].
    destruct (np_max_total gy n m Hn Hm Hy) as [my ->].
    cbn [mbind option_bind]. by rewrite Hi.
  - destruct (get_normal_map_run im intensity n m Hn Hm Hs Hi) as (nm & -> & _).
    done.
Qed.

Lemma get_normal_map_raises_iff_witness :
  shape Shading.ramp 3 3
  ∧ (Shading.get_normal_map Shading.ramp 0 = None ↔ (0 =? 0)%float = true).
Proof.
  assert (Hs : shape Shading.ramp 3 3).
  { split; [reflexivity|]. repeat constructor. }
  split; [exact Hs|].
  apply (get_normal_map_raises_iff Shading.ramp 0 3 3); [lia|lia|exact Hs].
Defined.

(** X15: for four arrays of one shape, with at least one row and one
    column, [apply_height_map] does not raise, and the colour grid and
    the shading signal it returns have that shape. *)
Theorem apply_height_map_total (im_map : list (list Shading.color))
    (smooth_map height_map : list (list float)) (land_mask : list (list bool))
    (n m : nat) :
  0 < n → 0 < m →
  shape im_map n m → shape smooth_map n m → shape height_map n m →
  shape land_mask n m →
  ∃ out_map normal_map,
    Shading.apply_height_map im_map smooth_map height_map land_mask
      = Some (out_map, normal_map)
    ∧ shape out_map n m ∧ shape normal_map n m.
Proof.
  intros Hn Hm Him Hsm Hh Hl. unfold Shading.apply_height_map.
  destruct (get_normal_light_run height_map n m Hn Hm Hh) as (light & -> & Hlight).
  cbn [mbind option_bind].
  destruct (zip_grid_total (λ v (l : bool), v * Shading.of_bool l)%float
              light land_mask n m Hlight Hl) as (lit & -> & Hlit).
  cbn [mbind option_bind].
  destruct (zip_grid_total (λ s (l : bool), s / 2 * Shading.of_bool (negb l))%float
              smooth_map land_mask n m Hsm Hl) as (flat & -> & Hflat).
  cbn [mbind option_bind].
  destruct (zip_grid_total (λ x y, x + y)%float lit flat n m Hlit Hflat)
    as (sig & -> & Hsig).
  cbn [mbind option_bind].
  pose proof (shape_fmap (λ v, Num.interp v (-1) 1 (-192) 192) sig n m Hsig) as Hre.
  match goal with
  | |- context [Scatter.zip_grid ?f im_map ?b] =>
      destruct (zip_grid_total f im_map b n m Him Hre) as (out & -> & Hout)
  end.
  cbn [mbind option_bind]. eauto.
Qed.

Lemma apply_height_map_total_witness :
  (shape (replicate 3 (replicate 3 (255, 0, 7)%Z)) 3 3
   ∧ shape (replicate 3 (replicate 3 1%float)) 3 3
   ∧ shape Shading.ramp 3 3
   ∧ shape (replicate 3 (replicate 3 true)) 3 3)
  ∧ ∃ out_map normal_map,
      Shading.apply_height_map (replicate 3 (replicate 3 (255, 0, 7)%Z))
        (replicate 3 (replicate 3 1%float)) Shading.ramp
        (replicate 3 (replicate 3 true))
        = Some (out_map, normal_map)
      ∧ shape out_map 3 3 ∧ shape normal_map 3 3.
Proof.
  assert (Hs : shape Shading.ramp 3 3).
  { split; [reflexivity|]. repeat constructor. }
  split.
  { split; [apply shape_replicate|]. split; [apply shape_replicate|].
    split; [exact Hs|apply shape_replicate]. }
  apply (apply_height_map_total (replicate 3 (replicate 3 (255, 0, 7)%Z))
           (replicate 3 (replicate 3 1%float)) Shading.ramp
           (replicate 3 (replicate 3 true)) 3 3);
    [lia | lia | apply shape_replicate | apply shape_replicate | exact Hs
    | apply shape_replicate].
Defined.

(** ** CellMapper: what [voronoi_map] paints *)

Lemma foldM_app {A B} (f : B → A → option B) (b : B) (l1 l2 : list A) :
  foldM f b (l1 ++ l2) = (b' ← foldM f b l1; foldM f b' l2).
Proof.
  revert b. induction l1 as [|x l1 IH]; intros b; [done|].
  simpl. destruct (f b x); simpl; [apply IH|done].
Qed.

Section CellMapFacts.
Import Scatter CellMap.
Variable polygon : list float → list float → option (list (Z * Z)).

Lemma paint_spec (i : nat) (g g' : list (list nat)) (r c : Z) n m :
  (0 ≤ r)%Z → (0 ≤ c)%Z → shape g n m → paint i g (r, c) = Some g' →
  shape g' n m
  ∧ get2 g' (Z.to_nat r) (Z.to_nat c) = Some i
  ∧ ∀ r' c', (r', c') ≠ (Z.to_nat r, Z.to_nat c) → get2 g' r' c' = get2 g r' c'.
Proof.
  intros Hr Hc [Hn Hm] Hset. unfold paint in Hset. simpl in Hset.
  destruct (py_index (length g) r) as [ri|] eqn:Hri; [|done]. simpl in Hset.
  destruct (g !! ri) as [row|] eqn:Hrow; [|done]. simpl in Hset.
  destruct (py_index (length row) c) as [ci|] eqn:Hci; [|done]. simpl in Hset.
  simplify_eq.
  apply py_index_nonneg in Hri as [-> Hrlt]; [|done].
  apply py_index_nonneg in Hci as [-> Hclt]; [|done].
  split; [|split].
  - split; [by rewrite length_insert|].
    apply Forall_insert; [done|]. rewrite length_insert.
    rewrite Forall_forall in Hm. apply Hm. by eapply list_elem_of_lookup_2.
  - unfold get2. rewrite list_lookup_insert_eq by done. simpl.
    by rewrite list_lookup_insert_eq.
  - intros r' c' Hne. unfold get2.
    destruct (decide (r' = Z.to_nat r)) as [->|Hr'].
    + rewrite list_lookup_insert_eq by done. rewrite Hrow. simpl.
      rewrite list_lookup_insert_ne; [done|]. congruence.
    + by rewrite list_lookup_insert_ne.
Qed.

Lemma paint_total (i : nat) (g : list (list nat)) (r c : Z) n m :
  shape g n m → (0 ≤ r < Z.of_nat n)%Z → (0 ≤ c < Z.of_nat m)%Z →
  is_Some (paint i g (r, c)).
Proof.
  intros [Hn Hm] Hr Hc. unfold paint. simpl.
  rewrite py_index_in_range by lia. simpl.
  destruct (lookup_lt_is_Some_2 g (Z.to_nat r)) as [row Hrow]; [lia|].
  rewrite Hrow. simpl.
  rewrite Forall_forall in Hm.
  rewrite (Hm row) by (by eapply list_elem_of_lookup_2).
  rewrite py_index_in_range by lia. simpl. eauto.
Qed.

(** Painting the pixels of one region: the painted positions hold the
    index of the region, the others keep their value. *)
Lemma paint_loop_spec (i : nat) (pixels : list (Z * Z)) (g g' : list (list nat)) n m :
  Forall (λ rc : Z * Z, (0 ≤ rc.1)%Z ∧ (0 ≤ rc.2)%Z) pixels →
  shape g n m → foldM (paint i) g pixels = Some g' →
  shape g' n m
  ∧ ∀ r c, if decide ((Z.of_nat r, Z.of_nat c) ∈ pixels)
           then get2 g' r c = Some i
           else get2 g' r c = get2 g r c.
Proof.
  revert g. induction pixels as [|[pr pc] pixels IH]; intros g Hpos Hs Hrun.
  - simpl in Hrun. simplify_eq. split; [done|]. intros r c.
    rewrite decide_False; [done|]. apply not_elem_of_nil.
  - simpl in Hrun. destruct (paint i g (pr, pc)) as [g1|] eqn:Hset; [|done].
    simpl in Hrun. apply Forall_cons in Hpos as [[Hr Hc] Hpos]. simpl in Hr, Hc.
    destruct (paint_spec _ _ _ _ _ _ _ Hr Hc Hs Hset) as (Hs1 & Hset1 & Hkeep1).
    destruct (IH g1 Hpos Hs1 Hrun) as [Hs' Hpx]. split; [done|].
    intros r c. specialize (Hpx r c).
    destruct (decide ((Z.of_nat r, Z.of_nat c) ∈ pixels)) as [Hin|Hnin].
    + rewrite decide_True; [done|]. apply elem_of_cons. auto.
    + destruct (decide ((Z.of_nat r, Z.of_nat c) = (pr, pc))) as [[= <- <-]|Hne].
      * rewrite decide_True by (apply elem_of_cons; auto).
        by rewrite Hpx, <- Hset1, !Nat2Z.id.
      * rewrite decide_False.
        -- rewrite Hpx. apply Hkeep1. intros [= -> ->]. apply Hne.
           f_equal; lia.
        -- intros [?|?]%elem_of_cons; done.
Qed.

Lemma paint_loop_total (i : nat) (pixels : list (Z * Z)) (g : list (list nat)) n m :
  Forall (λ rc : Z * Z, (0 ≤ rc.1 < Z.of_nat n)%Z ∧ (0 ≤ rc.2 < Z.of_nat m)%Z)
    pixels →
  shape g n m → is_Some (foldM (paint i) g pixels).
Proof.
  revert g. induction pixels as [|[r c] pixels IH]; intros g Hin Hs; simpl.
  - eauto.
  - apply Forall_cons in Hin as [[Hr Hc] Hin]. simpl in Hr, Hc.
    destruct (paint_total i g r c n m Hs Hr Hc) as [g1 Hset].
    rewrite Hset. simpl. apply IH; [done|].
    eapply paint_spec; [| |done|done]; lia.
Qed.

Local Arguments region_step : simpl never.

Lemma region_step_painted (vor : diagram) (size : Z) (k : nat) (region : list Z)
    (g g' : list (list nat)) :
  regions vor !! k = Some region →
  painted polygon vor size k g → region_step polygon vor size g (k, region) = Some g' →
  painted polygon vor size (S k) g'.
Proof.
  intros Hk [Hs Hinv] Hstep. unfold region_step in Hstep.
  destruct (bool_decide (region = []) || bool_decide ((-1)%Z ∈ region)) eqn:Hskip.
  - simplify_eq. split; [done|]. intros r c v Hv.
    destruct (Hinv r c v Hv) as [Hv1 Hv2]. split.
    + destruct Hv1 as [?|[? ?]]; [auto|right; split; [lia|done]].
    + intros i Hi Hcov. destruct (decide (i = k)) as [->|Hne]; [|apply Hv2; [lia|done]].
      destruct Hcov as (region' & pixels & Hreg & Hne & Hinf & _).
      rewrite Hk in Hreg. simplify_eq.
      apply orb_true_iff in Hskip as [H|H]; apply bool_decide_eq_true in H; done.
  - apply orb_false_iff in Hskip as [Hne Hinf].
    apply bool_decide_eq_false in Hne, Hinf.
    destruct (region_pixels polygon vor region) as [pixels|] eqn:Hpix; [|done].
    cbn [mbind option_bind] in Hstep.
    destruct (Z.of_nat k <? 2 ^ 32)%Z; [|done].
    apply (paint_loop_spec _ _ _ _ (Z.to_nat size) (Z.to_nat size)) in Hstep
      as [Hs' Hpx]; [|by apply Forall_forall; intros [??] [??]%list_elem_of_filter; simpl in *; lia|done].
    split; [done|]. intros r c v Hv. specialize (Hpx r c).
    assert (Hrc : r < Z.to_nat size ∧ c < Z.to_nat size).
    { destruct Hs' as [Hn Hm]. unfold get2 in Hv.
      destruct (g' !! r) as [row|] eqn:Hrow; [|done]. simpl in Hv.
      apply lookup_lt_Some in Hrow as Hr. apply lookup_lt_Some in Hv.
      rewrite Forall_forall in Hm.
      rewrite (Hm row) in Hv by (by eapply list_elem_of_lookup_2). lia. }
    destruct (decide _) as [Hin|Hnin].
    + rewrite Hv in Hpx. simplify_eq. split.
      * right. split; [lia|]. exists region, pixels.
        apply list_elem_of_filter in Hin as [_ Hin]. done.
      * intros i Hi _. lia.
    + rewrite Hv in Hpx. symmetry in Hpx.
      destruct (Hinv r c v Hpx) as [Hv1 Hv2]. split.
      * destruct Hv1 as [?|[? ?]]; [auto|right; split; [lia|done]].
      * intros i Hi Hcov.
        destruct (decide (i = k)) as [->|Hneq]; [|apply Hv2; [lia|done]].
        destruct Hcov as (region' & pixels' & Hreg & _ & _ & Hpix' & Hin).
        rewrite Hk in Hreg. simplify_eq.
        exfalso. apply Hnin. apply list_elem_of_filter. split; [simpl; lia|done].
Qed.

Lemma voronoi_map_loop (vor : diagram) (size : Z) (l1 l2 : list (list Z))
    (g0 g : list (list nat)) :
  regions vor = l1 ++ l2 →
  painted polygon vor size 0 g0 →
  foldM (region_step polygon vor size) g0 (imap pair l1) = Some g →
  painted polygon vor size (length l1) g.
Proof.
  revert l2 g. induction l1 as [|region l1 IH] using rev_ind; intros l2 g Hreg Hg0 Hrun.
  - simpl in Hrun. by simplify_eq.
  - rewrite imap_app, foldM_app in Hrun. simpl in Hrun.
    destruct (foldM _ g0 (imap pair l1)) as [g1|] eqn:Hrun1; [|done].
    cbn [mbind option_bind] in Hrun.
    rewrite Nat.add_0_r in Hrun.
    destruct (region_step polygon vor size g1 (length l1, region)) as [g2|] eqn:Hstep;
      cbn [mbind option_bind foldM] in Hrun; [|done].
    simplify_eq.
    rewrite length_app. simpl. rewrite Nat.add_1_r.
    eapply region_step_painted; [|eapply (IH (region :: l2))|exact Hstep]; try done.
    + rewrite Hreg, <- app_assoc. simpl.
      by rewrite lookup_app_r, Nat.sub_diag.
    + by rewrite Hreg, <- app_assoc.
Qed.

Lemma voronoi_map_painted (vor : diagram) (size : Z) (g : list (list nat)) :
  voronoi_map polygon vor size = Some g →
  painted polygon vor size (length (regions vor)) g.
Proof.
  unfold voronoi_map. intros Hrun.
  destruct (0 <=? size)%Z; [|done]. cbn [mbind option_bind] in Hrun.
  apply (voronoi_map_loop vor size (regions vor) []) in Hrun; [done|by rewrite app_nil_r|].
  split; [apply shape_replicate|].
  intros r c v Hv. apply get2_replicate_inv in Hv as ->.
  split; [auto|]. intros i Hi. lia.
Qed.

End CellMapFacts.

Lemma foldM_invariant {A B} (f : B → A → option B) (P : B → Prop) (l : list A) (b : B) :
  P b →
  (∀ b x, x ∈ l → P b → ∃ b', f b x = Some b' ∧ P b') →
  ∃ b', foldM f b l = Some b' ∧ P b'.
Proof.
  revert b. induction l as [|x l IH]; intros b Hb Hstep; simpl; [eauto|].
  destruct (Hstep b x) as (b1 & -> & Hb1); [apply elem_of_cons; auto|done|].
  simpl. apply IH; [done|]. intros b2 y Hy. apply Hstep, elem_of_cons. auto.
Qed.

(** X16: in the map that [voronoi_map] returns, of shape
    [size × size], every pixel holds the index of the last region that
    covers it (a region that is neither empty nor unbounded and whose
    polygon contains the pixel), or [0] when it holds no such index: no
    region with a larger index covers the pixel. *)
Theorem voronoi_map_last_painter
    (polygon : list float → list float → option (list (Z * Z)))
    (vor : Scatter.diagram) (size : Z) (vor_map : list (list nat)) :
  CellMap.voronoi_map polygon vor size = Some vor_map →
  shape vor_map (Z.to_nat size) (Z.to_nat size)
  ∧ ∀ r c v, get2 vor_map r c = Some v →
      (v = 0 ∨ CellMap.covers polygon vor v r c)
      ∧ ∀ i, CellMap.covers polygon vor i r c → i ≤ v.
Proof.
  intros Hrun. destruct (voronoi_map_painted polygon vor size vor_map Hrun) as [Hs Hpx].
  split; [done|]. intros r c v Hv. destruct (Hpx r c v Hv) as [H1 H2]. split.
  - destruct H1 as [?|[_ ?]]; auto.
  - intros i Hcov. apply H2; [|done].
    destruct Hcov as (region & _ & Hreg & _). by eapply lookup_lt_Some.
Qed.

Lemma voronoi_map_last_painter_witness :
  CellMap.voronoi_map CellMap.square_pixels
    (Scatter.Diagram [(1, 1); (3, 1); (3, 3); (1, 3)]%float
       [[]; [0; 1; 2; 3]; [-1; 0; 1]]%Z) 4
    = Some [[0; 0; 0; 0]; [0; 1; 1; 0]; [0; 1; 1; 0]; [0; 0; 0; 0]]
  ∧ shape [[0; 0; 0; 0]; [0; 1; 1; 0]; [0; 1; 1; 0]; [0; 0; 0; 0]]
      (Z.to_nat 4) (Z.to_nat 4)
  ∧ ∀ r c v,
      get2 [[0; 0; 0; 0]; [0; 1; 1; 0]; [0; 1; 1; 0]; [0; 0; 0; 0]] r c = Some v →
      (v = 0
       ∨ CellMap.covers CellMap.square_pixels
           (Scatter.Diagram [(1, 1); (3, 1); (3, 3); (1, 3)]%float
              [[]; [0; 1; 2; 3]; [-1; 0; 1]]%Z) v r c)
      ∧ ∀ i, CellMap.covers CellMap.square_pixels
               (Scatter.Diagram [(1, 1); (3, 1); (3, 3); (1, 3)]%float
                  [[]; [0; 1; 2; 3]; [-1; 0; 1]]%Z) i r c → i ≤ v.
Proof.
  split; [vm_compute; reflexivity|].
  apply (voronoi_map_last_painter CellMap.square_pixels
           (Scatter.Diagram [(1, 1); (3, 1); (3, 3); (1, 3)]%float
              [[]; [0; 1; 2; 3]; [-1; 0; 1]]%Z) 4).
  vm_compute. reflexivity.
Defined.

(** X17: for [size ≥ 0], when the vertices and the polygon of every
    region that is neither empty nor unbounded are found (and the diagram
    has at most [2^32] regions), [voronoi_map] does not raise: the pixels
    off the image are dropped before the assignment. *)
Theorem voronoi_map_total
    (polygon : list float → list float → option (list (Z * Z)))
    (vor : Scatter.diagram) (size : Z) :
  (0 ≤ size)%Z →
  (Z.of_nat (length (Scatter.regions vor)) ≤ 2 ^ 32)%Z →
  (∀ region, region ∈ Scatter.regions vor → region ≠ [] → (-1)%Z ∉ region →
     is_Some (CellMap.region_pixels polygon vor region)) →
  ∃ vor_map,
    CellMap.voronoi_map polygon vor size = Some vor_map
    ∧ shape vor_map (Z.to_nat size) (Z.to_nat size).
Proof.
  intros Hsize Hlen Hpix. unfold CellMap.voronoi_map.
  destruct (Z.leb_spec 0 size); [|lia]. cbn [mbind option_bind].
  apply foldM_invariant; [apply shape_replicate|].
  intros g [i region] Hin Hs.
  apply elem_of_lookup_imap_1 in Hin as (i' & region' & [= -> ->] & Hreg).
  unfold CellMap.region_step.
  destruct (bool_decide (region' = []) || bool_decide ((-1)%Z ∈ region')) eqn:Hskip;
    [eauto|].
  apply orb_false_iff in Hskip as [Hne Hinf].
  apply bool_decide_eq_false in Hne, Hinf.
  destruct (Hpix region') as [pixels ->]; [by eapply list_elem_of_lookup_2|done..|].
  cbn [mbind option_bind].
  apply lookup_lt_Some in Hreg.
  destruct (Z.ltb_spec (Z.of_nat i') (2 ^ 32)); [|lia].
  match goal with
  | |- ∃ b', foldM _ _ ?px = _ ∧ _ =>
      assert (Hbox : Forall (λ rc : Z * Z,
                (0 ≤ rc.1 < Z.of_nat (Z.to_nat size))%Z
                ∧ (0 ≤ rc.2 < Z.of_nat (Z.to_nat size))%Z) px)
  end.
  { apply Forall_forall. intros [r c] [Hrc _]%list_elem_of_filter. simpl in *. lia. }
  destruct (paint_loop_total i' _ g _ _ Hbox Hs) as [g' Hg'].
  exists g'. split; [done|].
  eapply (paint_loop_spec i' _ g g'); [|exact Hs|exact Hg'].
  eapply Forall_impl; [exact Hbox|]. intros [r c]. simpl. lia.
Qed.

Lemma voronoi_map_total_witness :
  ∃ vor_map,
    CellMap.voronoi_map CellMap.square_pixels
      (Scatter.Diagram [(1, 1); (3, 1); (3, 3); (1, 3)]%float
         [[]; [0; 1; 2; 3]; [-1; 0; 1]]%Z) 4 = Some vor_map
    ∧ shape vor_map (Z.to_nat 4) (Z.to_nat 4).
Proof.
  apply (voronoi_map_total CellMap.square_pixels
           (Scatter.Diagram [(1, 1); (3, 1); (3, 3); (1, 3)]%float
              [[]; [0; 1; 2; 3]; [-1; 0; 1]]%Z) 4).
  - lia.
  - simpl. lia.
  - intros region Hin Hne Hinf. simpl in Hin.
    apply elem_of_cons in Hin as [->|Hin]; [done|].
    apply elem_of_cons in Hin as [->|Hin]; [vm_compute; eauto|].
    apply elem_of_cons in Hin as [->|Hin].
    + exfalso. apply Hinf. apply elem_of_cons. auto.
    + by apply elem_of_nil in Hin.
Defined.

(** ** The range of the light that [get_normal_light] returns *)

Section LightRange.
Import Rounding.
Local Open Scope Z_scope.
Local Arguments V : simpl never.
Local Arguments Z.pow : simpl never.

(** A valid finite float is subnormal or has a full mantissa. *)
Lemma valid_normal (s : bool) (m : positive) (e : Z) :
  SpecFloat.valid_binary prec emax (S754_finite s m e) = true →
  e = -1074 ∨ 2 ^ 52 ≤ Z.pos m.
Proof.
  cbn [SpecFloat.valid_binary]. unfold bounded, canonical_mantissa.
  intros H. apply andb_prop in H as [H _]. apply Z.eqb_eq in H.
  rewrite fexp_eq in H. pose proof (digits2_pos_bounds m) as [Hlo _].
  destruct (Z.max_spec (Z.pos (digits2_pos m) + e - 53) (-1074)) as [[_ Hmax]|[_ Hmax]];
    rewrite Hmax in H; [by left|right].
  replace (Z.pos (digits2_pos m)) with 53 in Hlo by lia. exact Hlo.
Qed.

(** A float of magnitude at most 1 lies between -1 and 1. *)
Lemma mag_le_unit_leb (x : float) :
  mag_le (Prim2SF x) 1 0 → (-1 <=? x)%float = true ∧ (x <=? 1)%float = true.
Proof.
  rewrite !leb_spec. pose proof (Prim2SF_valid x) as Hvalid.
  set (c1 := Prim2SF 1). vm_compute in c1. change c1 with SF_one. clear c1.
  set (c2 := Prim2SF (-1)). vm_compute in c2. change c2 with SF_mone. clear c2.
  destruct (Prim2SF x) as [s|s| |s m e]; cbn [mag_le]; [|done|done|].
  { intros _. by destruct s. }
  intros [He Hm].
  assert (Hcmp : e < -52 ∨ (e = -52 ∧ Z.pos m ≤ 4503599627370496)).
  { destruct (Z.lt_trichotomy e (-52)) as [Hlt|[Heq|Hgt]]; [by left| |exfalso].
    - right. split; [done|]. subst e. rewrite <- V_one in Hm. unfold V in Hm.
      apply Z.mul_le_mono_pos_r in Hm; [done|]. by apply Z.pow_pos_nonneg.
    - destruct (valid_normal _ _ _ Hvalid) as [->|Hnorm]; [lia|].
      rewrite <- V_one in Hm.
      assert (V 4503599627370496 (-52) < V (Z.pos m) e); [|lia].
      apply Z.lt_le_trans with (V 4503599627370496 e).
      + unfold V. apply Z.mul_lt_mono_pos_l; [done|].
        apply Z.pow_lt_mono_r; lia.
      + apply V_mono. exact Hnorm. }
  unfold SFleb, SF_one, SF_mone. cbn [SFcompare].
  rewrite !Pos.compare_cont_spec, !Pos2Z.inj_compare.
  destruct s.
  - split; [|done].
    destruct (Z.compare_spec (-52) e) as [Heq|Hlt|Hgt]; [|lia|done].
    destruct (Z.compare_spec 4503599627370496 (Z.pos m)) as [Hm1|Hm1|Hm1];
      [done|lia|done].
  - split; [done|].
    destruct (Z.compare_spec e (-52)) as [Heq|Hlt|Hgt]; [|done|lia].
    destruct (Z.compare_spec (Z.pos m) 4503599627370496) as [Hm1|Hm1|Hm1];
      [done|done|lia].
Qed.

(** A float between 0 and 1. *)
Lemma unit_nonneg (x : spec_float) :
  SpecFloat.valid_binary prec emax x = true → x ≠ S754_nan →
  SFltb SF_one x = false → SFltb x (S754_zero false) = false →
  mag_le x 1 0 ∧ nonneg x.
Proof.
  intros Hvalid Hnan H1 H0. split.
  - apply unit_mag; [done..|].
    destruct (SFltb x SF_mone) eqn:Hlt; [|done].
    rewrite (SFltb_SFleb_trans x SF_mone (S754_zero false) Hlt) in H0; done.
  - destruct x as [s|s| |s m e]; cbn [nonneg]; [done| |done|].
    + destruct s; [cbv in H0|cbv in H1]; done.
    + destruct s; [cbv in H0|]; done.
Qed.

(** [x - 0] for [x] between 0 and 1. *)
Lemma SFsub_zero (x : spec_float) :
  mag_le x 1 0 → nonneg x →
  mag_le (SFsub prec emax x (S754_zero false)) 1 0
  ∧ nonneg (SFsub prec emax x (S754_zero false)).
Proof.
  intros Hx Hs. destruct x as [s|s| |s m e]; cbn [mag_le nonneg] in Hx, Hs;
    [|done|done|].
  - by destruct s.
  - done.
Qed.

(** [2 * x] for [x] between 0 and 1 lies between 0 and 2. *)
Lemma SFmul_2 (x : spec_float) :
  mag_le x 1 0 → nonneg x →
  mag_le (SFmul prec emax (S754_finite false 4503599627370496 (-51)) x) 1 1
  ∧ nonneg (SFmul prec emax (S754_finite false 4503599627370496 (-51)) x).
Proof.
  intros Hx Hs.
  destruct x as [s|s| |s m e]; cbn [mag_le nonneg] in Hx, Hs; [|done|done|].
  { cbn [SFmul mag_le nonneg]. done. }
  destruct Hx as [He Hm]. subst s.
  unfold SFmul. cbn [xorb].
  assert (HV : V (Z.pos (4503599627370496 * m)) (-51 + e) ≤ V 1 1).
  { rewrite Pos2Z.inj_mul.
    change (Z.pos 4503599627370496) with (1 * 2 ^ 52).
    replace (1 * 2 ^ 52 * Z.pos m) with (Z.pos m * 2 ^ 52) by ring.
    rewrite V_shift by lia. replace (-51 + e + 52) with (e + 1) by lia.
    rewrite <- V_shift by lia.
    replace (Z.pos m * 2 ^ 1) with (2 * Z.pos m) by (unfold Z.pow; simpl; lia).
    rewrite V_scale.
    replace (V 1 1) with (2 * V 1 0) by (unfold V; simpl; lia). lia. }
  destruct (binary_round_aux_le false (Z.pos (4503599627370496 * m)) (-51 + e) 1 1)
    as [->|(m' & e' & -> & He'' & Hm')]; try lia; simpl; auto.
Qed.

(** [x + (-1)] for [x] between 0 and 2 has a magnitude of at most 1. *)
Lemma SFadd_mone (x : spec_float) :
  mag_le x 1 1 → nonneg x →
  mag_le (SFadd prec emax x SF_mone) 1 0.
Proof.
  intros Hx Hs.
  destruct x as [s|s| |s m e]; cbn [mag_le nonneg] in Hx, Hs; [|done|done|].
  - unfold SF_mone. cbn [SFadd mag_le]. split; [lia|]. by rewrite V_one.
  - destruct Hx as [He Hm]. subst s.
    unfold SFadd, SF_mone.
    set (ez := Z.min e (-52)).
    pose proof (shl_align_V m e ez) as Hvx.
    pose proof (shl_align_V 4503599627370496 (-52) ez) as Hv1.
    replace (Z.min e ez) with ez in Hvx by lia.
    replace (Z.min (-52) ez) with ez in Hv1 by lia.
    set (mx := Z.pos (fst (shl_align m e ez))) in *.
    set (m1 := Z.pos (fst (shl_align 4503599627370496 (-52) ez))) in *.
    rewrite V_one in Hv1.
    assert (Hmx : V mx ez ≤ V 1 1) by (rewrite Hvx by lia; done).
    assert (H1 : V m1 ez = V 1 0) by (apply Hv1; lia).
    assert (Hpos : 0 < V mx ez).
    { unfold V, mx. apply Z.mul_pos_pos; [lia|]. apply Z.pow_pos_nonneg; lia. }
    assert (H2 : V 1 1 = 2 * V 1 0) by (unfold V; simpl; lia).
    cbn [cond_Zopp].
    assert (HM : V (mx + - m1) ez = V mx ez - V 1 0).
    { rewrite V_add, V_opp, H1. lia. }
    assert (Habs : V (Z.abs (mx + - m1)) ez ≤ V 1 0).
    { destruct (Z.abs_spec (mx + - m1)) as [[_ ->]|[_ ->]].
      - rewrite HM. lia.
      - rewrite V_opp, HM. lia. }
    destruct (binary_normalize_le (mx + - m1) ez 1 0) as [Hmag _];
      [lia|lia|lia|exact Habs|exact Hmag].
Qed.

(** The line of [np.interp] from [(0, -1)] to [(1, 1)], at a value
    between 0 and 1. *)
Lemma light_line (x : float) :
  is_nan x = false → (1 <? x)%float = false → (x <? 0)%float = false →
  mag_le (Prim2SF (2 * (x - 0) + -1)%float) 1 0.
Proof.
  intros Hnan H1 H0.
  rewrite add_spec, mul_spec, sub_spec.
  rewrite ltb_spec in H1, H0.
  set (c1 := Prim2SF 1) in *. vm_compute in c1. change c1 with SF_one in *. clear c1.
  set (c0 := Prim2SF 0) in *. vm_compute in c0. subst c0.
  set (c2 := Prim2SF 2). vm_compute in c2. subst c2.
  set (c3 := Prim2SF (-1)). vm_compute in c3. change c3 with SF_mone. clear c3.
  destruct (unit_nonneg (Prim2SF x) (Prim2SF_valid x) (not_nan_Prim2SF x Hnan) H1 H0)
    as [Hx Hx'].
  destruct (SFsub_zero _ Hx Hx') as [Hs Hs'].
  destruct (SFmul_2 _ Hs Hs') as [Hp Hp'].
  exact (SFadd_mone _ Hp Hp').
Qed.

(** [np.interp(x, (0, 1), (-1, 1))] of a value that is not NaN. *)
Lemma interp_light_range (x : float) :
  is_nan x = false →
  (-1 <=? Num.interp x 0 1 (-1) 1)%float = true
  ∧ (Num.interp x 0 1 (-1) 1 <=? 1)%float = true.
Proof.
  intros Hnan. unfold Num.interp. rewrite Hnan.
  destruct (1 <? x)%float eqn:H1; [by vm_compute|].
  destruct (x <? 0)%float eqn:H0; [by vm_compute|].
  destruct (1 <=? x)%float eqn:H3; [by vm_compute|].
  destruct (0 =? x)%float eqn:H4; [by vm_compute|].
  set (slope := ((1 - -1) / (1 - 0))%float). vm_compute in slope. subst slope.
  pose proof (light_line x Hnan H1 H0) as Hr.
  rewrite (mag_le_not_nan _ _ _ Hr). by apply mag_le_unit_leb.
Qed.

End LightRange.

(** X18: every value of the light map that [get_normal_light] returns
    is NaN or lies in [[-1, 1]]: the mean of the two normal channels goes
    through [np.interp] with the table [(0, 1) → (-1, 1)], which clamps
    outside of [[0, 1]] and whose line [2·x - 1], rounded after each
    operation, stays within the table values. *)
Theorem get_normal_light_range (height_map : list (list float))
    (light : list (list float)) (i j : nat) (v : float) :
  Shading.get_normal_light height_map = Some light →
  get2 light i j = Some v →
  is_nan v = true ∨ ((-1 <=? v)%float = true ∧ (v <=? 1)%float = true).
Proof.
  unfold Shading.get_normal_light. intros Hrun Hv.
  destruct (Shading.get_normal_map height_map 1) as [nm|]; [|done].
  cbn [mbind option_bind] in Hrun. simplify_eq.
  rewrite get2_fmap in Hv.
  destruct (get2 nm i j) as [px|]; [|done]. simpl in Hv. simplify_eq.
  set (x := Num.div32 _ _).
  destruct (is_nan x) eqn:Hnan.
  - left. unfold Num.interp. by rewrite Hnan.
  - right. by apply interp_light_range.
Qed.

Lemma get_normal_light_range_witness :
  Shading.get_normal_light [[0; 1]; [4; 9]]%float
    = Some [[0x1.37f278p-1; 0x1.312c18p-1];
            [0x1.5775c8p-1; 0x1.5301bp-1]]%float
  ∧ (is_nan 0x1.5775c8p-1%float = true
     ∨ ((-1 <=? 0x1.5775c8p-1)%float = true
        ∧ (0x1.5775c8p-1 <=? 1)%float = true)).
Proof.
  split; [vm_compute; reflexivity|].
  apply (get_normal_light_range [[0; 1]; [4; 9]]%float
           [[0x1.37f278p-1; 0x1.312c18p-1];
            [0x1.5775c8p-1; 0x1.5301bp-1]]%float 1 0).
  - vm_compute. reflexivity.
  - reflexivity.
Defined.

(** ** PointRelaxer: how many points [relax] returns *)

Section RelaxFacts.
Import Scatter.
Variable Voronoi : list point → option diagram.

(** The loop of [relax] over the regions appends one centre for each
    region that is neither empty nor unbounded. *)
Lemma centers_loop_length (vor : diagram) (l : list (list Z)) (acc cs : list point) :
  foldM (λ (new_points : list point) (region : list Z),
           if bool_decide (region = []) || bool_decide ((-1)%Z ∈ region)
           then Some new_points
           else
             poly ← mapM (λ i, idx ← py_index (length (vertices vor)) i;
                               vertices vor !! idx) region;
             Some (new_points ++ [mean_rows poly]))
        acc l = Some cs →
  length cs
  = length acc
    + length (filter (λ region : list Z, region ≠ [] ∧ (-1)%Z ∉ region) l).
Proof.
  revert acc. induction l as [|region l IH]; intros acc Hrun.
  - simpl in Hrun. simplify_eq. simpl. lia.
  - cbn [foldM] in Hrun.
    destruct (bool_decide (region = []) || bool_decide ((-1)%Z ∈ region)) eqn:Hskip.
    + cbn [mbind option_bind] in Hrun. apply IH in Hrun.
      rewrite filter_cons_False; [done|].
      apply orb_true_iff in Hskip as [H|H]; apply bool_decide_eq_true in H;
        intros [? ?]; done.
    + apply orb_false_iff in Hskip as [Hne Hinf].
      apply bool_decide_eq_false in Hne, Hinf.
      destruct (mapM _ region) as [poly|]; [|done].
      cbn [mbind option_bind] in Hrun. apply IH in Hrun.
      rewrite filter_cons_True by done.
      rewrite length_app in Hrun. simpl in *. lia.
Qed.

Lemma centers_length (vor : diagram) (cs : list point) :
  centers vor = Some cs →
  length cs
  = length (filter (λ region : list Z, region ≠ [] ∧ (-1)%Z ∉ region) (regions vor)).
Proof. unfold centers. intros H. by apply centers_loop_length in H. Qed.

(** [S k] iterations are [k] iterations followed by one more. *)
Lemma relax_loop_last (size : Z) (k : nat) (pts : ndpoints) :
  relax_loop Voronoi size (S k) pts
  = (pts' ← relax_loop Voronoi size k pts; relax_loop Voronoi size 1 pts').
Proof.
  revert pts. induction k as [|k IH]; intros pts; [done|].
  rewrite (relax_loop_S Voronoi size (S k) pts), (relax_loop_S Voronoi size k pts).
  destruct (voronoi Voronoi pts size) as [vor|]; cbn [mbind option_bind]; [|done].
  destruct (centers vor) as [cs|]; cbn [mbind option_bind]; [|done].
  apply IH.
Qed.

(** The last iteration of [relax]: the diagram of the points that the
    iterations before it have left, and the clipped centres of its
    regions. *)
Lemma relax_last_diagram (size : Z) (k : nat) (pts result : ndpoints) :
  relax_loop Voronoi size (S k) pts = Some result →
  ∃ pts' vor cs,
    relax_loop Voronoi size k pts = Some pts'
    ∧ voronoi Voronoi pts' size = Some vor ∧ centers vor = Some cs
    ∧ result = clip_points size (as_array cs).
Proof.
  rewrite relax_loop_last. intros H.
  destruct (relax_loop Voronoi size k pts) as [pts'|]; [|done].
  cbn [mbind option_bind] in H. rewrite relax_loop_S in H.
  destruct (voronoi Voronoi pts' size) as [vor|] eqn:Hvor; [|done].
  cbn [mbind option_bind] in H.
  destruct (centers vor) as [cs|] eqn:Hcs; [|done].
  cbn [mbind option_bind relax_loop] in H. simplify_eq.
  by exists pts', vor, cs.
Qed.

End RelaxFacts.

(** X19: after at least one iteration [relax] returns one point for
    each region, neither empty nor unbounded, of its last diagram, the
    diagram of the points that the iterations before the last one have
    left, whatever the number of points it was given; without such a
    region the result is the array of shape [(0,)], never an empty array
    of shape [(0, 2)]. *)
Theorem relax_point_count (Voronoi : list Scatter.point → option Scatter.diagram)
    (points result : Scatter.ndpoints) (size : Z) (k : nat) :
  Scatter.relax Voronoi points size (S k) = Some result →
  ∃ points' vor,
    Scatter.relax Voronoi points size k = Some points'
    ∧ Scatter.voronoi Voronoi points' size = Some vor
    ∧ match result with
      | Scatter.Flat0 =>
          filter (λ region : list Z, region ≠ [] ∧ (-1)%Z ∉ region)
            (Scatter.regions vor) = []
      | Scatter.Pts rows =>
          rows ≠ []
          ∧ length rows
            = length (filter (λ region : list Z, region ≠ [] ∧ (-1)%Z ∉ region)
                        (Scatter.regions vor))
      end.
Proof.
  unfold Scatter.relax. intros H.
  apply relax_last_diagram in H as (pts' & vor & cs & Hk & Hvor & Hcs & ->).
  exists pts', vor. split; [done|]. split; [done|].
  apply centers_length in Hcs.
  destruct cs as [|c cs]; simpl in *.
  - symmetry in Hcs. by apply nil_length_inv in Hcs.
  - split; [done|]. by rewrite length_fmap.
Qed.

Lemma relax_point_count_witness :
  Scatter.relax Scatter.twin_diagram
    (Scatter.Pts [(5, 5); (1, 2); (7, 3)]%float) 8 (S 1)
    = Some (Scatter.Pts [(2, 2); (2.5, 2.5)]%float)
  ∧ ∃ points' vor,
      Scatter.relax Scatter.twin_diagram
        (Scatter.Pts [(5, 5); (1, 2); (7, 3)]%float) 8 1 = Some points'
      ∧ Scatter.voronoi Scatter.twin_diagram points' 8 = Some vor
      ∧ [(2, 2); (2.5, 2.5)]%float ≠ []
      ∧ length [(2, 2); (2.5, 2.5)]%float
        = length (filter (λ region : list Z, region ≠ [] ∧ (-1)%Z ∉ region)
                    (Scatter.regions vor)).
Proof.
  split; [vm_compute; reflexivity|].
  apply (relax_point_count Scatter.twin_diagram
           (Scatter.Pts [(5, 5); (1, 2); (7, 3)]%float)
           (Scatter.Pts [(2, 2); (2.5, 2.5)]%float) 8 1).
  vm_compute. reflexivity.
Defined.
